(** * The real-time session relay of duowatch

    A shallow embedding of the WebSocket relay of [server/routes.ts]
    (the [wss.on('connection', ...)] handler: its ['message'] and ['close']
    callbacks and the [sessionConnections] table) and of the frame schemas of
    [shared/schema.ts] ([videoSyncMessageSchema], [chatMessageSchema],
    [sessionUpdateSchema], [wsMessageSchema]). Further on it embeds the
    session and playlist methods of [DatabaseStorage] that compute on rows
    ([getSessionsByUserId], [addPlaylistItem], [updatePlaylistItemOrder],
    [addParticipant], ...) and the routes that join and leave a session and
    change a playlist's items.

    Modelling decisions:
    - identifiers ([sessionId], [userId]) and the other numeric fields are
      integers ([Z]); the relay does no arithmetic on them, it only compares
      them with [===]/[!==], tests their truthiness and uses them as object
      keys. [JSON.parse] also yields numbers that are not integers and, for
      a literal such as [1e999], [Infinity] (which [z.number()] accepts and
      [JSON.stringify] writes as [null]); the relay handles them like any
      other number, and they are left out of the model;
    - a socket is identified by a handle ([nat]); [===] on sockets is equality
      of handles;
    - [sessionConnections] (a JS object used as a map from session id to an
      array of [Connection]) is a [gmap Z (list Connection)];
    - the input of the ['message'] callback is the outcome of
      [JSON.parse(message)]: either a [SyntaxError] or a JSON value;
    - [ws.send(JSON.stringify(x))] appends the pair (socket, x) to the log
      [sent] of the world: the log holds the object that is handed to
      [JSON.stringify], not the text made of it;
    - the ['message'] callback is [async]: its chat case is suspended at
      [await storage.createMessage(...)]. [on_message] is one run of the
      callback with the outcome of the storage call given and nothing
      interleaved; the events [Message] and [Settle] split the run at the
      [await], so that traces cover every interleaving of callbacks. *)

From Stdlib Require Import ZArith String List Bool Sorted.
From stdpp Require Import base option list gmap strings sorting.

Local Open Scope string_scope.
Local Open Scope list_scope.
Local Open Scope Z_scope.

(** ** JSON values *)

#[local] Unset Elimination Schemes.
Inductive json : Type :=
| JNull
| JBool (b : bool)
| JNumber (n : Z)
| JString (s : string)
| JArray (items : list json)
| JObject (fields : list (string * json)).
#[local] Set Elimination Schemes.

(** [obj[key]] on a parsed object; [None] is [undefined]. *)
Fixpoint get (key : string) (fields : list (string * json)) : option json :=
  match fields with
  | [] => None
  | (k, v) :: rest => if String.eqb k key then Some v else get key rest
  end.

(** ** zod schemas ([shared/schema.ts]) *)

Inductive ZodIssueCode :=
| invalid_type
| invalid_literal
| invalid_enum_value
| invalid_union_discriminator.

Inductive PathSeg :=
| PKey (k : string)
| PIndex (i : nat).

(** An issue of a [ZodError]: its code and the path of the offending value
    (the human-readable texts are left out). *)
Record ZodIssue := { code : ZodIssueCode; path : list PathSeg }.

Inductive SafeParse (A : Type) :=
| ParseOk (data : A)
| ParseError (issues : list ZodIssue).
Arguments ParseOk {A} data.
Arguments ParseError {A} issues.

Definition Schema (A : Type) := list PathSeg → option json → SafeParse A.

Definition issue {A} (c : ZodIssueCode) (p : list PathSeg) : SafeParse A :=
  ParseError [ {| code := c; path := p |} ].

Definition map_parse {A B} (f : A → B) (r : SafeParse A) : SafeParse B :=
  match r with
  | ParseOk a => ParseOk (f a)
  | ParseError e => ParseError e
  end.

(** An object schema parses every key of its shape and reports the issues of
    all of them. *)
Definition and_field {A B} (f : SafeParse (A → B)) (x : SafeParse A) : SafeParse B :=
  match f, x with
  | ParseOk g, ParseOk a => ParseOk (g a)
  | ParseOk _, ParseError e => ParseError e
  | ParseError e, ParseOk _ => ParseError e
  | ParseError e1, ParseError e2 => ParseError (e1 ++ e2)
  end.

Notation "f <&> x" := (and_field f x) (at level 61, left associativity).

Definition z_number : Schema Z := fun p input =>
  match input with
  | Some (JNumber n) => ParseOk n
  | _ => issue invalid_type p
  end.

Definition z_string : Schema string := fun p input =>
  match input with
  | Some (JString s) => ParseOk s
  | _ => issue invalid_type p
  end.

Definition z_literal (value : string) : Schema unit := fun p input =>
  match input with
  | Some (JString s) => if String.eqb s value then ParseOk tt else issue invalid_literal p
  | _ => issue invalid_literal p
  end.

Inductive Action := play | pause | seek.

Definition Action_toString (a : Action) : string :=
  match a with play => "play" | pause => "pause" | seek => "seek" end.

(** [z.enum(["play", "pause", "seek"])] *)
Definition z_enum_action : Schema Action := fun p input =>
  match input with
  | Some (JString s) =>
      if String.eqb s "play" then ParseOk play
      else if String.eqb s "pause" then ParseOk pause
      else if String.eqb s "seek" then ParseOk seek
      else issue invalid_enum_value p
  | _ => issue invalid_type p
  end.

Definition z_optional {A} (inner : Schema A) : Schema (option A) := fun p input =>
  match input with
  | None => ParseOk None
  | Some _ => map_parse Some (inner p input)
  end.

Fixpoint parse_items {A} (element : Schema A) (p : list PathSeg) (i : nat)
    (items : list json) : SafeParse (list A) :=
  match items with
  | [] => ParseOk []
  | item :: rest =>
      ParseOk cons <&> element (p ++ [PIndex i]) (Some item)
                   <&> parse_items element p (S i) rest
  end.

Definition z_array {A} (element : Schema A) : Schema (list A) := fun p input =>
  match input with
  | Some (JArray items) => parse_items element p 0%nat items
  | _ => issue invalid_type p
  end.

Record VideoSyncMessage := {
  sync_sessionId : Z;
  sync_action : Action;
  sync_timestamp : option Z;
  sync_currentTime : option Z
}.

Record ChatMessage := {
  chat_sessionId : Z;
  chat_userId : Z;
  chat_username : string;
  chat_message : string;
  chat_timestamp : Z
}.

Record Participant := { part_userId : Z; part_username : string }.

Record SessionUpdateMessage := {
  update_sessionId : Z;
  update_participants : list Participant
}.

Definition videoSyncMessageSchema : Schema VideoSyncMessage := fun p input =>
  match input with
  | Some (JObject o) =>
      ParseOk (fun _ : unit => Build_VideoSyncMessage)
        <&> z_literal "videoSync" (p ++ [PKey "type"]) (get "type" o)
        <&> z_number (p ++ [PKey "sessionId"]) (get "sessionId" o)
        <&> z_enum_action (p ++ [PKey "action"]) (get "action" o)
        <&> z_optional z_number (p ++ [PKey "timestamp"]) (get "timestamp" o)
        <&> z_optional z_number (p ++ [PKey "currentTime"]) (get "currentTime" o)
  | _ => issue invalid_type p
  end.

Definition chatMessageSchema : Schema ChatMessage := fun p input =>
  match input with
  | Some (JObject o) =>
      ParseOk (fun _ : unit => Build_ChatMessage)
        <&> z_literal "chat" (p ++ [PKey "type"]) (get "type" o)
        <&> z_number (p ++ [PKey "sessionId"]) (get "sessionId" o)
        <&> z_number (p ++ [PKey "userId"]) (get "userId" o)
        <&> z_string (p ++ [PKey "username"]) (get "username" o)
        <&> z_string (p ++ [PKey "message"]) (get "message" o)
        <&> z_number (p ++ [PKey "timestamp"]) (get "timestamp" o)
  | _ => issue invalid_type p
  end.

Definition participantSchema : Schema Participant := fun p input =>
  match input with
  | Some (JObject o) =>
      ParseOk Build_Participant
        <&> z_number (p ++ [PKey "userId"]) (get "userId" o)
        <&> z_string (p ++ [PKey "username"]) (get "username" o)
  | _ => issue invalid_type p
  end.

Definition sessionUpdateSchema : Schema SessionUpdateMessage := fun p input =>
  match input with
  | Some (JObject o) =>
      ParseOk (fun _ : unit => Build_SessionUpdateMessage)
        <&> z_literal "sessionUpdate" (p ++ [PKey "type"]) (get "type" o)
        <&> z_number (p ++ [PKey "sessionId"]) (get "sessionId" o)
        <&> z_array participantSchema (p ++ [PKey "participants"]) (get "participants" o)
  | _ => issue invalid_type p
  end.

Inductive WsMessage :=
| VideoSync (m : VideoSyncMessage)
| Chat (m : ChatMessage)
| SessionUpdate (m : SessionUpdateMessage).

(** [z.discriminatedUnion("type", [...])]: the input must be an object, its
    [type] selects the option, and the option's schema parses the whole
    input. *)
Definition wsMessageSchema : Schema WsMessage := fun p input =>
  match input with
  | Some (JObject o) =>
      match get "type" o with
      | Some (JString t) =>
          if String.eqb t "videoSync" then map_parse VideoSync (videoSyncMessageSchema p input)
          else if String.eqb t "chat" then map_parse Chat (chatMessageSchema p input)
          else if String.eqb t "sessionUpdate" then
            map_parse SessionUpdate (sessionUpdateSchema p input)
          else issue invalid_union_discriminator (p ++ [PKey "type"])
      | _ => issue invalid_union_discriminator (p ++ [PKey "type"])
      end
  | _ => issue invalid_type p
  end.

(** [schema.parse(x)]: the data, or a thrown [ZodError] with the issues. *)
Definition parse {A} (schema : Schema A) (x : json) : SafeParse A := schema [] (Some x).

(** The object a validated message is (what [JSON.stringify] serialises):
    the keys of the shape, in the order of the shape; an absent optional key
    stays absent. *)
Definition optional_field (k : string) (v : option Z) : list (string * json) :=
  match v with
  | Some n => [(k, JNumber n)]
  | None => []
  end.

Definition VideoSyncMessage_toJSON (m : VideoSyncMessage) : json :=
  JObject ([("type", JString "videoSync");
            ("sessionId", JNumber (sync_sessionId m));
            ("action", JString (Action_toString (sync_action m)))]
           ++ optional_field "timestamp" (sync_timestamp m)
           ++ optional_field "currentTime" (sync_currentTime m)).

Definition ChatMessage_toJSON (m : ChatMessage) : json :=
  JObject [("type", JString "chat");
           ("sessionId", JNumber (chat_sessionId m));
           ("userId", JNumber (chat_userId m));
           ("username", JString (chat_username m));
           ("message", JString (chat_message m));
           ("timestamp", JNumber (chat_timestamp m))].

Definition Participant_toJSON (x : Participant) : json :=
  JObject [("userId", JNumber (part_userId x)); ("username", JString (part_username x))].

Definition SessionUpdateMessage_toJSON (m : SessionUpdateMessage) : json :=
  JObject [("type", JString "sessionUpdate");
           ("sessionId", JNumber (update_sessionId m));
           ("participants", JArray (map Participant_toJSON (update_participants m)))].

(** ** The relay state ([server/routes.ts]) *)

Definition Handle := nat.
Bind Scope nat_scope with Handle.

Record Connection := { userId : Z; socket : Handle }.

Inductive ReadyState := CONNECTING | OPEN | CLOSING | CLOSED.

(** The variables [userId] and [sessionId] of one connection's closure
    ([number | undefined]). *)
Record ConnVars := { var_userId : option Z; var_sessionId : option Z }.

(** What [ws.send] is given: a relayed message object, or the error object of
    the [catch] block. *)
Inductive Frame :=
| Relay (payload : json)
| ErrorFrame (message : string) (details : list ZodIssue).

Record World := {
  sessionConnections : gmap Z (list Connection);
  vars : gmap Handle ConnVars;
  readyState : gmap Handle ReadyState;
  sent : list (Handle * Frame);
  (** handlers suspended at [await storage.createMessage(...)] *)
  pending : list (Handle * ChatMessage)
}.

Definition set_sessionConnections (sc : gmap Z (list Connection)) (w : World) : World :=
  {| sessionConnections := sc; vars := vars w; readyState := readyState w;
     sent := sent w; pending := pending w |}.

Definition set_vars (v : gmap Handle ConnVars) (w : World) : World :=
  {| sessionConnections := sessionConnections w; vars := v; readyState := readyState w;
     sent := sent w; pending := pending w |}.

Definition set_readyState (ws : Handle) (r : ReadyState) (w : World) : World :=
  {| sessionConnections := sessionConnections w; vars := vars w;
     readyState := <[ws := r]> (readyState w);
     sent := sent w; pending := pending w |}.

Definition set_pending (q : list (Handle * ChatMessage)) (w : World) : World :=
  {| sessionConnections := sessionConnections w; vars := vars w; readyState := readyState w;
     sent := sent w; pending := q |}.

(** [ws.send(JSON.stringify(x))] *)
Definition send (ws : Handle) (f : Frame) (w : World) : World :=
  {| sessionConnections := sessionConnections w; vars := vars w; readyState := readyState w;
     sent := sent w ++ [(ws, f)]; pending := pending w |}.

(** The closure variables of [ws]; both are [undefined] until assigned. *)
Definition vars_of (w : World) (ws : Handle) : ConnVars :=
  default {| var_userId := None; var_sessionId := None |} (vars w !! ws).

Definition assign_sessionId (ws : Handle) (sid : Z) (w : World) : World :=
  set_vars (<[ws := {| var_userId := var_userId (vars_of w ws); var_sessionId := Some sid |}]> (vars w)) w.

Definition assign_userId (ws : Handle) (uid : Z) (w : World) : World :=
  set_vars (<[ws := {| var_userId := Some uid; var_sessionId := var_sessionId (vars_of w ws) |}]> (vars w)) w.

(** [socket.readyState === WebSocket.OPEN]; a socket handed over by the
    ['connection'] event is open until the transport says otherwise. *)
Definition isOpen (w : World) (ws : Handle) : bool :=
  match default OPEN (readyState w !! ws) with
  | OPEN => true
  | _ => false
  end.

(** Truthiness of a [number | undefined]. *)
Definition truthy (x : option Z) : bool :=
  match x with
  | Some n => negb (n =? 0)
  | None => false
  end.

(** [connection.userId !== userId] *)
Definition userId_differs (c : Connection) (uid : option Z) : bool :=
  match uid with
  | Some u => negb (userId c =? u)
  | None => true
  end.

(** The loop
    [for (const connection of conns) if (cond && OPEN) connection.socket.send(...)]. *)
Definition broadcast (conns : list Connection) (cond : Connection → bool)
    (payload : json) (w : World) : World :=
  foldl (fun w connection =>
           if cond connection && isOpen w (socket connection)
           then send (socket connection) (Relay payload) w
           else w) w conns.

(** [if (sessionConnections[sessionId]) { for ... }], where [sessionId] is the
    closure variable. *)
Definition broadcast_session (sid : option Z) (cond : Connection → bool)
    (payload : json) (w : World) : World :=
  match sid with
  | Some s =>
      match sessionConnections w !! s with
      | Some conns => broadcast conns cond payload w
      | None => w
      end
  | None => w
  end.

(** The block "Register connection if not already done". *)
Definition register_connection (ws : Handle) (w : World) : World :=
  match var_userId (vars_of w ws), var_sessionId (vars_of w ws) with
  | Some uid, Some sid =>
      if truthy (Some uid) && truthy (Some sid)
         && negb (match sessionConnections w !! sid with
                  | Some conns => existsb (fun conn => userId conn =? uid) conns
                  | None => false
                  end)
      then
        let conns := default [] (sessionConnections w !! sid) in
        set_sessionConnections
          (<[sid := conns ++ [ {| userId := uid; socket := ws |} ]]> (sessionConnections w)) w
      else w
  | _, _ => w
  end.

Inductive Exception :=
| SyntaxError
| ZodError (errors : list ZodIssue)
| StorageError.

(** How far one run of the [try] block gets. *)
Inductive Outcome :=
| Completed (w : World)
| Thrown (e : Exception) (w : World)
| Awaiting (chatMsg : ChatMessage) (w : World).

Inductive JSONParse :=
| JSONSyntaxError
| JSONValue (parsedMessage : json).

(** The [try] block of the ['message'] callback, up to its end, to a thrown
    exception, or to the [await] of the chat case. *)
Definition try_block (ws : Handle) (message : JSONParse) (w : World) : Outcome :=
  match message with
  | JSONSyntaxError => Thrown SyntaxError w
  | JSONValue parsedMessage =>
      match parse wsMessageSchema parsedMessage with
      | ParseError errors => Thrown (ZodError errors) w
      | ParseOk (VideoSync validatedMessage) =>
          match parse videoSyncMessageSchema (VideoSyncMessage_toJSON validatedMessage) with
          | ParseError errors => Thrown (ZodError errors) w
          | ParseOk syncMessage =>
              let w := assign_sessionId ws (sync_sessionId syncMessage) w in
              let w := broadcast_session (var_sessionId (vars_of w ws))
                         (fun connection => userId_differs connection (var_userId (vars_of w ws)))
                         (VideoSyncMessage_toJSON syncMessage) w in
              Completed (register_connection ws w)
          end
      | ParseOk (Chat validatedMessage) =>
          match parse chatMessageSchema (ChatMessage_toJSON validatedMessage) with
          | ParseError errors => Thrown (ZodError errors) w
          | ParseOk chatMsg =>
              let w := assign_sessionId ws (chat_sessionId chatMsg) w in
              let w := assign_userId ws (chat_userId chatMsg) w in
              Awaiting chatMsg w
          end
      | ParseOk (SessionUpdate validatedMessage) =>
          match parse sessionUpdateSchema (SessionUpdateMessage_toJSON validatedMessage) with
          | ParseError errors => Thrown (ZodError errors) w
          | ParseOk updateMsg =>
              let w := assign_sessionId ws (update_sessionId updateMsg) w in
              let w := broadcast_session (var_sessionId (vars_of w ws)) (fun _ => true)
                         (SessionUpdateMessage_toJSON updateMsg) w in
              Completed (register_connection ws w)
          end
      end
  end.

(** The rest of the [try] block once [storage.createMessage] has settled:
    [db_ok = false] is a rejected promise. *)
Definition after_await (ws : Handle) (chatMsg : ChatMessage) (db_ok : bool) (w : World) : Outcome :=
  if db_ok then
    let w := broadcast_session (var_sessionId (vars_of w ws)) (fun _ => true)
               (ChatMessage_toJSON chatMsg) w in
    Completed (register_connection ws w)
  else Thrown StorageError w.

(** The [catch] block: only a [ZodError] is answered. *)
Definition catch_block (ws : Handle) (error : Exception) (w : World) : World :=
  match error with
  | ZodError errors => send ws (ErrorFrame "Invalid message format" errors) w
  | _ => w
  end.

Definition settle (ws : Handle) (o : Outcome) : World :=
  match o with
  | Completed w => w
  | Thrown e w => catch_block ws e w
  | Awaiting _ w => w
  end.

(** One run of the ['message'] callback with nothing interleaved at its
    [await]. *)
Definition on_message (ws : Handle) (message : JSONParse) (db_ok : bool) (w : World) : World :=
  match try_block ws message w with
  | Awaiting chatMsg w' => settle ws (after_await ws chatMsg db_ok w')
  | o => settle ws o
  end.

(** The ['close'] callback. *)
Definition on_close (ws : Handle) (w : World) : World :=
  if truthy (var_sessionId (vars_of w ws)) && truthy (var_userId (vars_of w ws)) then
    match var_sessionId (vars_of w ws), var_userId (vars_of w ws) with
    | Some sid, Some uid =>
        match sessionConnections w !! sid with
        | Some conns =>
            let remaining :=
              List.filter (fun conn => negb ((userId conn =? uid) && (socket conn =? ws)%nat)) conns in
            if (length remaining =? 0)%nat then
              set_sessionConnections (delete sid (sessionConnections w)) w
            else
              let w := set_sessionConnections (<[sid := remaining]> (sessionConnections w)) w in
              let remainingUsers :=
                map (fun conn => {| part_userId := userId conn; part_username := "User" |})
                    remaining in
              let updateMessage :=
                SessionUpdateMessage_toJSON
                  {| update_sessionId := sid; update_participants := remainingUsers |} in
              broadcast remaining (fun _ => true) updateMessage w
        | None => w
        end
    | _, _ => w
    end
  else w.

(** ** Events of the relay process

    A chat handler is suspended at its [await] and resumes when the storage
    promise settles; other callbacks can run in between. *)
Inductive Event :=
| Message (ws : Handle) (message : JSONParse)
| Settle (k : nat) (db_ok : bool)
| Closing (ws : Handle)
| Close (ws : Handle).

Definition step (e : Event) (w : World) : World :=
  match e with
  | Message ws message =>
      match try_block ws message w with
      | Awaiting chatMsg w' => set_pending (pending w' ++ [(ws, chatMsg)]) w'
      | o => settle ws o
      end
  | Settle k db_ok =>
      match pending w !! k with
      | Some (ws, chatMsg) =>
          settle ws (after_await ws chatMsg db_ok (set_pending (delete k (pending w)) w))
      | None => w
      end
  | Closing ws => set_readyState ws CLOSING w
  | Close ws => on_close ws (set_readyState ws CLOSED w)
  end.

Definition run (events : list Event) (w : World) : World :=
  foldl (fun w e => step e w) w events.

Definition init : World :=
  {| sessionConnections := ∅; vars := ∅; readyState := ∅; sent := []; pending := [] |}.

(** The entries of a session; none when the key is absent. *)
Definition entries (w : World) (sid : Z) : list Connection :=
  default [] (sessionConnections w !! sid).

(** ** Frames used in the examples *)

Definition chat_frame (sid uid : Z) (body : string) : json :=
  JObject [("type", JString "chat"); ("sessionId", JNumber sid); ("userId", JNumber uid);
           ("username", JString "ann"); ("message", JString body); ("timestamp", JNumber 7)].

Definition sync_frame (sid : Z) : json :=
  JObject [("type", JString "videoSync"); ("sessionId", JNumber sid);
           ("action", JString "play")].

Definition join (ws : Handle) (sid uid : Z) : list Event :=
  [Message ws (JSONValue (chat_frame sid uid "hi")); Settle 0 true].

(** ** Vocabulary of the statements *)

(** Appending a batch of [send] calls to the log. *)
Definition deliver (ds : list (Handle * Frame)) (w : World) : World :=
  {| sessionConnections := sessionConnections w; vars := vars w; readyState := readyState w;
     sent := sent w ++ ds; pending := pending w |}.

(** The [send] calls of one loop over [conns], in order. *)
Definition deliveries (w : World) (cond : Connection → bool) (payload : json)
    (conns : list Connection) : list (Handle * Frame) :=
  map (fun c => (socket c, Relay payload))
      (List.filter (fun c => cond c && isOpen w (socket c)) conns).

(** The world in which a chat handler waits for the storage. *)
Definition bound (ws : Handle) (m : ChatMessage) (w : World) : World :=
  assign_userId ws (chat_userId m) (assign_sessionId ws (chat_sessionId m) w).

(** [r] is a failed parse that reports the issue [i]. *)
Definition reports {A} (i : ZodIssue) (r : SafeParse A) : Prop :=
  match r with
  | ParseError es => i ∈ es
  | ParseOk _ => False
  end.

(** A frame the relay rejects: it does not parse as JSON, or it parses and
    fails [wsMessageSchema]. *)
Definition rejected (message : JSONParse) : Prop :=
  match message with
  | JSONSyntaxError => True
  | JSONValue j => ∃ errors, parse wsMessageSchema j = ParseError errors
  end.

(** [w'] is [w] after exactly one error frame was sent to [ws], and nothing
    else happened. *)
Definition one_error_reply (ws : Handle) (w w' : World) : Prop :=
  ∃ message details, w' = send ws (ErrorFrame message details) w.

(** The [send] calls made between [w] and a later world [w']. *)
Definition sent_during (w w' : World) : list (Handle * Frame) :=
  drop (length (sent w)) (sent w').

(** C1 as the specification states it: whatever the storage does, a valid
    chat frame reaches every registered connection of its session whose
    socket is open. *)
Definition chat_reaches_session_even_if_storage_fails : Prop :=
  ∀ ws j m db_ok w c,
    parse wsMessageSchema j = ParseOk (Chat m) →
    c ∈ entries w (chat_sessionId m) →
    isOpen w (socket c) = true →
    (socket c, Relay (ChatMessage_toJSON m))
      ∈ sent_during w (on_message ws (JSONValue j) db_ok w).

(** The entries that the ['close'] callback of [ws], bound to user [uid],
    keeps. *)
Definition survivors (uid : Z) (ws : Handle) (conns : list Connection) : list Connection :=
  List.filter (fun conn => negb ((userId conn =? uid) && (socket conn =? ws)%nat)) conns.

(** The roster frame that the ['close'] callback builds. *)
Definition roster (sid : Z) (remaining : list Connection) : json :=
  SessionUpdateMessage_toJSON
    {| update_sessionId := sid;
       update_participants :=
         map (fun conn => {| part_userId := userId conn; part_username := "User" |})
             remaining |}.

(** C3 as the specification states it: a chat frame from a second connection
    of a user who already has an entry in the session replaces that entry. *)
Definition reconnect_replaces_entry : Prop :=
  ∀ ws old j m db_ok w,
    parse wsMessageSchema j = ParseOk (Chat m) →
    old ≠ ws →
    {| userId := chat_userId m; socket := old |} ∈ entries w (chat_sessionId m) →
    List.filter (fun c => userId c =? chat_userId m)
                (entries (on_message ws (JSONValue j) db_ok w) (chat_sessionId m))
    = [ {| userId := chat_userId m; socket := ws |} ].

(** The table is well formed: no key maps to an empty list, a list has at
    most one entry per [userId], and keys and [userId]s are non-zero. *)
Definition table_wf (sc : gmap Z (list Connection)) : Prop :=
  ∀ sid conns, sc !! sid = Some conns →
    conns ≠ [] ∧ NoDup (map userId conns) ∧ sid ≠ 0 ∧ ∀ c, c ∈ conns → userId c ≠ 0.

(** [e] runs the registration block for socket [ws]: it is a valid
    videoSync or sessionUpdate frame of [ws], or the successful settlement of
    a chat frame of [ws]. *)
Definition registers (e : Event) (w : World) (ws : Handle) : Prop :=
  match e with
  | Message ws' (JSONValue j) =>
      ws' = ws ∧ ∃ m, parse wsMessageSchema j = ParseOk m
                      ∧ match m with Chat _ => False | _ => True end
  | Settle k true => ∃ m, pending w !! k = Some (ws, m)
  | _ => False
  end.

(** C9, first half, as the specification states it: a socket is registered
    in at most one session at a time. *)
Definition one_session_per_connection (w : World) : Prop :=
  ∀ s1 s2 c1 c2,
    c1 ∈ entries w s1 → c2 ∈ entries w s2 → socket c1 = socket c2 → s1 = s2.

(** C9, second half, as the specification states it: once a socket is
    registered, the frames it sends leave the table as it is. *)
Definition membership_ignores_later_frames : Prop :=
  ∀ events ws message s c,
    c ∈ entries (run events init) s → socket c = ws →
    sessionConnections (step (Message ws message) (run events init))
    = sessionConnections (run events init).

(** Every frame that socket [h] sends in [events] is a valid videoSync
    frame. *)
Definition only_videoSync (h : Handle) (events : list Event) : Prop :=
  ∀ message, Message h message ∈ events →
    ∃ j m, message = JSONValue j ∧ parse wsMessageSchema j = ParseOk (VideoSync m).

(** Socket [h] has no identity, no entry, no frame addressed to it and no
    suspended handler. *)
Definition never_bound (h : Handle) (w : World) : Prop :=
  var_userId (vars_of w h) = None
  ∧ (∀ s c, c ∈ entries w s → socket c ≠ h)
  ∧ (∀ d, d ∈ sent w → fst d ≠ h)
  ∧ (∀ d, d ∈ pending w → fst d ≠ h).

(** The [sessionId] that a validated message carries. *)
Definition WsMessage_sessionId (m : WsMessage) : Z :=
  match m with
  | VideoSync v => sync_sessionId v
  | Chat c => chat_sessionId c
  | SessionUpdate u => update_sessionId u
  end.

(** C2, second half, as the specification states it: a videoSync frame of a
    connection that is registered for user [A] in the frame's session is
    never delivered back to that connection. *)
Definition videoSync_never_returns_to_sender : Prop :=
  ∀ events ws A j m,
    parse wsMessageSchema j = ParseOk (VideoSync m) →
    var_userId (vars_of (run events init) ws) = Some A →
    {| userId := A; socket := ws |} ∈ entries (run events init) (sync_sessionId m) →
    ∀ f, (ws, f) ∉ sent_during (run events init)
                     (step (Message ws (JSONValue j)) (run events init)).


(** The number of frames sent to socket [h] among [ds]. *)
Definition received (h : Handle) (ds : list (Handle * Frame)) : nat :=
  length (List.filter (fun d => (fst d =? h)%nat) ds).

(** C8 as the specification states it: when a registered connection closes,
    every socket that is still registered in its session and open receives
    exactly one frame. *)
Definition each_survivor_notified_once : Prop :=
  ∀ events ws sid uid h,
    var_sessionId (vars_of (run events init) ws) = Some sid →
    var_userId (vars_of (run events init) ws) = Some uid →
    {| userId := uid; socket := ws |} ∈ entries (run events init) sid →
    (∃ c, c ∈ entries (step (Close ws) (run events init)) sid ∧ socket c = h) →
    isOpen (step (Close ws) (run events init)) h = true →
    received h (sent_during (run events init) (step (Close ws) (run events init))) = 1%nat.

(** ** Further vocabulary: wire forms *)

(** The object a validated message of any variant is. *)
Definition WsMessage_toJSON (m : WsMessage) : json :=
  match m with
  | VideoSync v => VideoSyncMessage_toJSON v
  | Chat c => ChatMessage_toJSON c
  | SessionUpdate u => SessionUpdateMessage_toJSON u
  end.

(** The value of the discriminator of a message. *)
Definition WsMessage_type (m : WsMessage) : string :=
  match m with
  | VideoSync _ => "videoSync"
  | Chat _ => "chat"
  | SessionUpdate _ => "sessionUpdate"
  end.

(** The keys that some shape of [wsMessageSchema] reads at top level. *)
Definition shape_keys : list string :=
  ["type"; "sessionId"; "action"; "timestamp"; "currentTime";
   "userId"; "username"; "message"; "participants"].

(** A failed parse carries at least one issue. *)
Definition has_issue {A} (r : SafeParse A) : Prop :=
  match r with
  | ParseError [] => False
  | _ => True
  end.

(** ** The storage layer and the playlist routes ([server/routes.ts])

    Rows are records with the columns of [shared/schema.ts]; a table is the
    list of its rows. Timestamps are numbers. The [integer] and [serial]
    columns are 32-bit: a statement that compares one of them with a value
    that is not such an integer is rejected by the database, the storage
    call throws, and the [catch] of the route answers 500. The routes that
    delete an item, reorder a playlist and leave a session are followed
    through that path; apart from it the database calls are taken to
    succeed. A path parameter is what [parseInt] made of it: [None] stands
    for [NaN]; the [Infinity] that [parseInt] makes of more than 308 digits
    is rejected by the database like every other number outside the range,
    and stands here as an integer outside the range. *)

Record Session := {
  session_id : Z;
  session_name : string;
  session_hostId : Z;
  session_videoId : string;
  session_videoTitle : option string;
  session_videoThumbnail : option string;
  session_createdAt : option Z;
  session_active : option bool
}.

(** A JS [Map<number, V>]: its entries in insertion order. *)
Definition JsMap (V : Type) := list (Z * V).

Fixpoint map_has {V} (k : Z) (m : JsMap V) : bool :=
  match m with
  | [] => false
  | (k', _) :: rest => (k' =? k) || map_has k rest
  end.

(** [m.set(k, v)]: a present key keeps its place and takes the new value, a
    new key goes to the end. *)
Fixpoint map_set {V} (k : Z) (v : V) (m : JsMap V) : JsMap V :=
  match m with
  | [] => [(k, v)]
  | (k', v') :: rest => if k' =? k then (k, v) :: rest else (k', v') :: map_set k v rest
  end.

Definition map_values {V} (m : JsMap V) : list V := map snd m.

(** [getSessionsByUserId], from the rows of its two queries on. *)
Definition getSessionsByUserId (hostedSessions participatedSessions : list Session)
    : list Session :=
  let sessionMap :=
    foldl (fun m session => map_set (session_id session) session m) [] hostedSessions in
  let sessionMap :=
    foldl (fun m session =>
             if negb (map_has (session_id session) m)
             then map_set (session_id session) session m
             else m) sessionMap participatedSessions in
  map_values sessionMap.

Record Playlist := {
  playlist_id : Z;
  playlist_name : string;
  playlist_userId : Z;
  playlist_createdAt : option Z
}.

Record PlaylistItem := {
  item_id : Z;
  item_playlistId : Z;
  item_videoId : string;
  item_videoTitle : option string;
  item_videoThumbnail : option string;
  item_videoDuration : option string;
  item_order : Z
}.

Record InsertPlaylistItem := {
  ins_playlistId : Z;
  ins_videoId : string;
  ins_videoTitle : option string;
  ins_videoThumbnail : option string;
  ins_videoDuration : option string;
  ins_order : Z
}.

Record Db := { playlists : list Playlist; playlistItems : list PlaylistItem }.

(** The range of an [integer] or [serial] column. *)
Definition int4 (n : Z) : bool := (-2147483648 <=? n) && (n <=? 2147483647).

(** [Math.max(...xs)] of a non-empty array, SQL [max] of a non-empty column. *)
Definition maximum (x : Z) (xs : list Z) : Z := foldl Z.max x xs.

(** The [nextOrder] that the route [POST /api/playlists/:id/items] computes
    from the current items. *)
Definition nextOrder (currentItems : list PlaylistItem) : Z :=
  match map item_order currentItems with
  | [] => 0
  | o :: os => maximum o os + 1
  end.

(** [select max(order)]: NULL on no rows. *)
Definition sql_max (column : list Z) : option Z :=
  match column with
  | [] => None
  | o :: os => Some (maximum o os)
  end.

(** [x || 0] on a number. *)
Definition or_zero (x : Z) : Z := if x =? 0 then 0 else x.

Definition in_playlist (playlistId : Z) (item : PlaylistItem) : bool :=
  item_playlistId item =? playlistId.

(** [addPlaylistItem]: the new table and the row returned; [fresh] is the id
    that the [serial] column hands out. *)
Definition addPlaylistItem (fresh : Z) (insertItem : InsertPlaylistItem)
    (items : list PlaylistItem) : list PlaylistItem * PlaylistItem :=
  let maxOrder :=
    or_zero (default 0 (sql_max (map item_order
                                   (List.filter (in_playlist (ins_playlistId insertItem))
                                                items)))) in
  let item :=
    {| item_id := fresh;
       item_playlistId := ins_playlistId insertItem;
       item_videoId := ins_videoId insertItem;
       item_videoTitle := ins_videoTitle insertItem;
       item_videoThumbnail := ins_videoThumbnail insertItem;
       item_videoDuration := ins_videoDuration insertItem;
       item_order := maxOrder + 1 |} in
  (items ++ [item], item).

(** [rows] is a result of [getPlaylistItems]: the rows of the playlist, in
    some order that is ascending in [order]. *)
Definition is_getPlaylistItems (playlistId : Z) (items rows : list PlaylistItem) : Prop :=
  rows ≡ₚ List.filter (in_playlist playlistId) items
  ∧ Sorted (fun a b => item_order a ≤ item_order b) rows.

(** [getPlaylist]: the first row with the id, if any. *)
Definition getPlaylist (id : Z) (db : Db) : option Playlist :=
  head (List.filter (fun p => playlist_id p =? id) (playlists db)).

(** [removePlaylistItem] *)
Definition removePlaylistItem (id : Z) (items : list PlaylistItem) : list PlaylistItem :=
  List.filter (fun item => negb (item_id item =? id)) items.

Definition set_order (o : Z) (item : PlaylistItem) : PlaylistItem :=
  {| item_id := item_id item; item_playlistId := item_playlistId item;
     item_videoId := item_videoId item; item_videoTitle := item_videoTitle item;
     item_videoThumbnail := item_videoThumbnail item;
     item_videoDuration := item_videoDuration item; item_order := o |}.

(** One [update ... set order = i + 1 where id = itemIds[i] and playlistId = ...]. *)
Definition update_order (playlistId : Z) (i : nat) (id : Z) (items : list PlaylistItem)
    : list PlaylistItem :=
  map (fun item =>
         if (item_id item =? id) && (item_playlistId item =? playlistId)
         then set_order (Z.of_nat i + 1) item else item) items.

(** [updatePlaylistItemOrder] when the database accepts every statement:
    the loop over [itemIds], from index [i] on. *)
Fixpoint updatePlaylistItemOrder_from (playlistId : Z) (i : nat) (itemIds : list Z)
    (items : list PlaylistItem) : list PlaylistItem :=
  match itemIds with
  | [] => items
  | id :: rest =>
      updatePlaylistItemOrder_from playlistId (S i) rest (update_order playlistId i id items)
  end.

Definition updatePlaylistItemOrder (playlistId : Z) (itemIds : list Z)
    (items : list PlaylistItem) : list PlaylistItem :=
  updatePlaylistItemOrder_from playlistId 0 itemIds items.

(** The answer of a route: status and message. *)
Record Reply := { status : nat; reply_message : string }.

Definition internal_server_error : Reply :=
  {| status := 500; reply_message := "Internal server error" |}.

(** [DELETE /api/playlists/:playlistId/items/:itemId]. [userId] is
    [req.session.userId]; [playlistId] and [itemId] are what [parseInt] made
    of the path parameters. [storage.getPlaylist] is rejected for a
    [playlistId] outside the range of the column,
    [storage.removePlaylistItem] for an [itemId] outside it. *)
Definition delete_item_route (userId : option Z) (playlistId itemId : option Z) (db : Db)
    : Reply * Db :=
  if negb (truthy userId) then
    ({| status := 401; reply_message := "Not authenticated" |}, db)
  else
    match playlistId, itemId with
    | Some pid, Some iid =>
        if negb (int4 pid) then (internal_server_error, db)
        else
          match getPlaylist pid db with
          | None => ({| status := 404; reply_message := "Playlist not found" |}, db)
          | Some playlist =>
              if negb (bool_decide (Some (playlist_userId playlist) = userId)) then
                ({| status := 403;
                    reply_message := "Not authorized to remove items from this playlist" |},
                 db)
              else if negb (int4 iid) then (internal_server_error, db)
              else
                ({| status := 200; reply_message := "Item removed successfully" |},
                 {| playlists := playlists db;
                    playlistItems := removePlaylistItem iid (playlistItems db) |})
          end
    | _, _ => ({| status := 400; reply_message := "Invalid playlist or item ID" |}, db)
    end.

(** An element of the array [itemIds] as the statement
    [update ... where id = itemIds[i] and playlistId = ...] takes it. The
    route hands over whatever array the request body holds. The database
    reads an element as an integer (the statement runs for that id when it
    is within the range of the column), or as [null] (no row has it), or it
    rejects the statement (a number that is outside the range or not an
    integer, a text that is not an integer, an object, ...). *)
Inductive IdParam :=
| IntParam (id : Z)
| NullParam
| BadParam.

(** Whether the database accepts a statement with this element. *)
Definition accepted (p : IdParam) : bool :=
  match p with
  | IntParam id => int4 id
  | NullParam => true
  | BadParam => false
  end.

(** One [await db.update(...)] of the loop: the table after it, or [None]
    when the statement is rejected. *)
Definition update_order_await (playlistId : Z) (i : nat) (p : IdParam)
    (items : list PlaylistItem) : option (list PlaylistItem) :=
  if negb (int4 playlistId) then None
  else
    match p with
    | IntParam id => if int4 id then Some (update_order playlistId i id items) else None
    | NullParam => Some items
    | BadParam => None
    end.

(** [updatePlaylistItemOrder] as it runs: one statement after the other with
    no transaction around them. The result is whether the promise resolves,
    and the table that is left: a rejected statement ends the loop, and the
    statements before it stay applied. *)
Fixpoint updatePlaylistItemOrder_await_from (playlistId : Z) (i : nat)
    (itemIds : list IdParam) (items : list PlaylistItem) : bool * list PlaylistItem :=
  match itemIds with
  | [] => (true, items)
  | p :: rest =>
      match update_order_await playlistId i p items with
      | Some items' => updatePlaylistItemOrder_await_from playlistId (S i) rest items'
      | None => (false, items)
      end
  end.

Definition updatePlaylistItemOrder_await (playlistId : Z) (itemIds : list IdParam)
    (items : list PlaylistItem) : bool * list PlaylistItem :=
  updatePlaylistItemOrder_await_from playlistId 0 itemIds items.

(** [POST /api/playlists/:id/reorder]; [itemIds] is [None] when the body's
    [itemIds] is not an array. *)
Definition reorder_route (userId : option Z) (playlistId : option Z)
    (itemIds : option (list IdParam)) (db : Db) : Reply * Db :=
  if negb (truthy userId) then
    ({| status := 401; reply_message := "Not authenticated" |}, db)
  else
    match playlistId with
    | None => ({| status := 400; reply_message := "Invalid playlist ID" |}, db)
    | Some pid =>
        match itemIds with
        | None => ({| status := 400; reply_message := "Item IDs must be an array" |}, db)
        | Some ids =>
            if negb (int4 pid) then (internal_server_error, db)
            else
              match getPlaylist pid db with
              | None => ({| status := 404; reply_message := "Playlist not found" |}, db)
              | Some playlist =>
                  if negb (bool_decide (Some (playlist_userId playlist) = userId)) then
                    ({| status := 403;
                        reply_message := "Not authorized to reorder this playlist" |}, db)
                  else
                    let result := updatePlaylistItemOrder_await pid ids (playlistItems db) in
                    (if fst result
                     then {| status := 200;
                             reply_message := "Playlist reordered successfully" |}
                     else internal_server_error,
                     {| playlists := playlists db; playlistItems := snd result |})
              end
        end
    end.

(** What the map holds after the sessions [src] have been put into it: one
    entry per id of [src], each a session of [src] under its own id. *)
Definition gathered_from (src : list Session) (m : JsMap Session) : Prop :=
  NoDup (map fst m)
  ∧ (∀ k v, In (k, v) m → session_id v = k ∧ In v src)
  ∧ (∀ k, In k (map fst m) ↔ In k (map session_id src)).

(** What the loop of [updatePlaylistItemOrder] makes of one row. *)
Fixpoint reorder_row (playlistId : Z) (i : nat) (itemIds : list Z) (item : PlaylistItem)
    : PlaylistItem :=
  match itemIds with
  | [] => item
  | id :: rest =>
      reorder_row playlistId (S i) rest
        (if (item_id item =? id) && (item_playlistId item =? playlistId)
         then set_order (Z.of_nat i + 1) item else item)
  end.

(** The index of the first occurrence of [x] in [l] (the length of [l] when
    there is none). *)
Fixpoint position (x : Z) (l : list Z) : nat :=
  match l with
  | [] => 0
  | y :: rest => if y =? x then 0 else S (position x rest)
  end.

(** ** Joining and leaving a session ([server/routes.ts]) *)

Record ParticipantRow := {
  participant_id : Z;
  participant_sessionId : Z;
  participant_userId : Z;
  participant_joinedAt : option Z
}.

Record SessionDb := { sessions : list Session; participants : list ParticipantRow }.

Definition getSession (id : Z) (db : SessionDb) : option Session :=
  head (List.filter (fun s => session_id s =? id) (sessions db)).

Definition getSessionParticipants (sessionId : Z) (rows : list ParticipantRow)
    : list ParticipantRow :=
  List.filter (fun p => participant_sessionId p =? sessionId) rows.

Definition is_participant_row (sessionId userId : Z) (p : ParticipantRow) : bool :=
  (participant_sessionId p =? sessionId) && (participant_userId p =? userId).

(** [addParticipant]: the existing row of the pair if there is one, a new row
    otherwise; [fresh] is the id of the [serial] column and [now] the value
    of [new Date()]. *)
Definition addParticipant (fresh now : Z) (sessionId userId : Z)
    (rows : list ParticipantRow) : list ParticipantRow * ParticipantRow :=
  match head (List.filter (is_participant_row sessionId userId) rows) with
  | Some existingParticipant => (rows, existingParticipant)
  | None =>
      let participant :=
        {| participant_id := fresh; participant_sessionId := sessionId;
           participant_userId := userId; participant_joinedAt := Some now |} in
      (rows ++ [participant], participant)
  end.



(** [POST /api/sessions/:id/join], on the path on which no storage call is
    rejected. *)
Definition join_route (fresh now : Z) (userId sessionId : option Z) (db : SessionDb)
    : Reply * SessionDb :=
  match userId with
  | Some uid =>
      if negb (truthy userId) then
        ({| status := 401; reply_message := "Not authenticated" |}, db)
      else
        match sessionId with
        | None => ({| status := 400; reply_message := "Invalid session ID" |}, db)
        | Some sid =>
            match getSession sid db with
            | None => ({| status := 404; reply_message := "Session not found" |}, db)
            | Some session =>
                let isParticipant :=
                  existsb (fun p => participant_userId p =? uid)
                          (getSessionParticipants sid (participants db)) in
                let db :=
                  if negb isParticipant then
                    {| sessions := sessions db;
                       participants :=
                         fst (addParticipant fresh now sid uid (participants db)) |}
                  else db in
                ({| status := 200; reply_message := "Joined session successfully" |}, db)
            end
        end
  | None => ({| status := 401; reply_message := "Not authenticated" |}, db)
  end.


(** * Properties *)

(** Closed goals about concrete runs are settled by evaluation. *)
Ltac by_evaluation := vm_compute; first [reflexivity | discriminate | tauto].
Ltac elem_by_evaluation := apply list_elem_of_In; vm_compute; tauto.

(** Settles a goal whose hypotheses, once taken apart, contradict one
    another; [Htruthy] relates [truthy (Some u)] to [u ≠ 0]. *)
Ltac by_cases Htruthy :=
  intros;
  repeat match goal with
         | H : _ ∧ _ |- _ => destruct H
         | H : ∃ _, _ |- _ => destruct H
         | H : _ ∨ _ |- _ => destruct H
         | H : _ ≠ 0 |- _ => apply Htruthy in H
         end;
  simplify_eq; congruence.

(** ** Validated messages parse again to themselves *)

Lemma videoSync_reparse (m : VideoSyncMessage) :
  parse videoSyncMessageSchema (VideoSyncMessage_toJSON m) = ParseOk m.
Proof. destruct m as [sid a [ts|] [ct|]]; destruct a; reflexivity. Qed.

Lemma chat_reparse (m : ChatMessage) :
  parse chatMessageSchema (ChatMessage_toJSON m) = ParseOk m.
Proof. destruct m; reflexivity. Qed.

Lemma participants_reparse (p : list PathSeg) (i : nat) (l : list Participant) :
  parse_items participantSchema p i (map Participant_toJSON l) = ParseOk l.
Proof.
  revert i; induction l as [|[u n] l IH]; intros i; [reflexivity|].
  cbn [map parse_items]. rewrite IH. reflexivity.
Qed.

Lemma sessionUpdate_reparse (m : SessionUpdateMessage) :
  parse sessionUpdateSchema (SessionUpdateMessage_toJSON m) = ParseOk m.
Proof.
  destruct m as [sid l]. unfold parse, sessionUpdateSchema, SessionUpdateMessage_toJSON.
  cbn [update_sessionId update_participants].
  change (get "type" _) with (Some (JString "sessionUpdate")).
  change (get "sessionId" _) with (Some (JNumber sid)).
  change (get "participants" _) with (Some (JArray (map Participant_toJSON l))).
  unfold z_array. rewrite participants_reparse. reflexivity.
Qed.

(** ** The fan-out loop *)

Lemma deliver_nil w : deliver [] w = w.
Proof. destruct w; unfold deliver; cbn. by rewrite app_nil_r. Qed.

Lemma deliver_deliver a b w : deliver b (deliver a w) = deliver (a ++ b) w.
Proof. unfold deliver; cbn. by rewrite app_assoc. Qed.

Lemma send_deliver ws f w : send ws f w = deliver [(ws, f)] w.
Proof. reflexivity. Qed.

Lemma broadcast_deliver conns cond payload w :
  broadcast conns cond payload w = deliver (deliveries w cond payload conns) w.
Proof.
  unfold broadcast, deliveries. revert w.
  induction conns as [|c conns IH]; intros w; cbn [foldl List.filter map].
  - by rewrite deliver_nil.
  - destruct (cond c && isOpen w (socket c)) eqn:E.
    + rewrite IH, send_deliver, deliver_deliver. reflexivity.
    + apply IH.
Qed.

Lemma broadcast_session_deliver sid cond payload w :
  broadcast_session sid cond payload w
  = deliver (deliveries w cond payload (from_option (entries w) [] sid)) w.
Proof.
  unfold broadcast_session, entries. destruct sid as [s|]; cbn.
  - destruct (sessionConnections w !! s); cbn.
    + apply broadcast_deliver.
    + by rewrite deliver_nil.
  - by rewrite deliver_nil.
Qed.

(** ** The closure variables *)

Lemma vars_of_assign_sessionId ws sid w :
  vars_of (assign_sessionId ws sid w) ws
  = {| var_userId := var_userId (vars_of w ws); var_sessionId := Some sid |}.
Proof. unfold vars_of, assign_sessionId; cbn. by rewrite lookup_insert_eq. Qed.

Lemma vars_of_assign_userId ws uid w :
  vars_of (assign_userId ws uid w) ws
  = {| var_userId := Some uid; var_sessionId := var_sessionId (vars_of w ws) |}.
Proof. unfold vars_of, assign_userId; cbn. by rewrite lookup_insert_eq. Qed.

Lemma vars_of_assign_sessionId_ne ws ws' sid w :
  ws ≠ ws' → vars_of (assign_sessionId ws sid w) ws' = vars_of w ws'.
Proof. intros H. unfold vars_of, assign_sessionId; cbn. by rewrite lookup_insert_ne. Qed.

Lemma vars_of_assign_userId_ne ws ws' uid w :
  ws ≠ ws' → vars_of (assign_userId ws uid w) ws' = vars_of w ws'.
Proof. intros H. unfold vars_of, assign_userId; cbn. by rewrite lookup_insert_ne. Qed.

(** ** The ['message'] callback, case by case *)

Lemma try_block_videoSync ws j m w :
  parse wsMessageSchema j = ParseOk (VideoSync m) →
  try_block ws (JSONValue j) w
  = let w1 := assign_sessionId ws (sync_sessionId m) w in
    Completed (register_connection ws
      (deliver (deliveries w1 (fun c => userId_differs c (var_userId (vars_of w ws)))
                  (VideoSyncMessage_toJSON m) (entries w (sync_sessionId m))) w1)).
Proof.
  intros H. unfold try_block. rewrite H, videoSync_reparse. cbv zeta.
  rewrite broadcast_session_deliver, vars_of_assign_sessionId. reflexivity.
Qed.

Lemma try_block_sessionUpdate ws j m w :
  parse wsMessageSchema j = ParseOk (SessionUpdate m) →
  try_block ws (JSONValue j) w
  = let w1 := assign_sessionId ws (update_sessionId m) w in
    Completed (register_connection ws
      (deliver (deliveries w1 (fun _ => true) (SessionUpdateMessage_toJSON m)
                  (entries w (update_sessionId m))) w1)).
Proof.
  intros H. unfold try_block. rewrite H, sessionUpdate_reparse. cbv zeta.
  rewrite broadcast_session_deliver, vars_of_assign_sessionId. reflexivity.
Qed.

Lemma try_block_chat ws j m w :
  parse wsMessageSchema j = ParseOk (Chat m) →
  try_block ws (JSONValue j) w
  = Awaiting m (assign_userId ws (chat_userId m) (assign_sessionId ws (chat_sessionId m) w)).
Proof. intros H. unfold try_block. by rewrite H, chat_reparse. Qed.

Lemma try_block_invalid ws j errors w :
  parse wsMessageSchema j = ParseError errors →
  try_block ws (JSONValue j) w = Thrown (ZodError errors) w.
Proof. intros H. unfold try_block. by rewrite H. Qed.

Lemma vars_of_bound ws m w :
  vars_of (bound ws m w) ws
  = {| var_userId := Some (chat_userId m); var_sessionId := Some (chat_sessionId m) |}.
Proof.
  unfold bound. rewrite vars_of_assign_userId, vars_of_assign_sessionId. reflexivity.
Qed.

Lemma on_message_chat_ok ws j m w :
  parse wsMessageSchema j = ParseOk (Chat m) →
  on_message ws (JSONValue j) true w
  = register_connection ws
      (deliver (deliveries w (fun _ => true) (ChatMessage_toJSON m)
                  (entries w (chat_sessionId m))) (bound ws m w)).
Proof.
  intros H. unfold on_message. rewrite (try_block_chat _ _ _ _ H).
  unfold after_await, settle. fold (bound ws m w).
  rewrite broadcast_session_deliver, vars_of_bound. reflexivity.
Qed.

Lemma on_message_chat_failed ws j m w :
  parse wsMessageSchema j = ParseOk (Chat m) →
  on_message ws (JSONValue j) false w = bound ws m w.
Proof.
  intros H. unfold on_message. rewrite (try_block_chat _ _ _ _ H). reflexivity.
Qed.

Lemma on_message_videoSync ws j m db_ok w :
  parse wsMessageSchema j = ParseOk (VideoSync m) →
  on_message ws (JSONValue j) db_ok w
  = let w1 := assign_sessionId ws (sync_sessionId m) w in
    register_connection ws
      (deliver (deliveries w (fun c => userId_differs c (var_userId (vars_of w ws)))
                  (VideoSyncMessage_toJSON m) (entries w (sync_sessionId m))) w1).
Proof.
  intros H. unfold on_message. rewrite (try_block_videoSync _ _ _ _ H). reflexivity.
Qed.

(** Registration touches the table only. *)
Lemma sent_register_connection ws w : sent (register_connection ws w) = sent w.
Proof.
  unfold register_connection.
  destruct (var_userId (vars_of w ws)), (var_sessionId (vars_of w ws)); try reflexivity.
  by destruct (_ && _).
Qed.

(** ** Rejected frames *)

Lemma reports_and_l {A B} i (f : SafeParse (A → B)) (x : SafeParse A) :
  reports i f → reports i (f <&> x).
Proof.
  destruct f as [g|e1], x as [a|e2]; cbn; try done.
  intros H. apply elem_of_app. by left.
Qed.

Lemma reports_and_r {A B} i (f : SafeParse (A → B)) (x : SafeParse A) :
  reports i x → reports i (f <&> x).
Proof.
  destruct f as [g|e1], x as [a|e2]; cbn; try done.
  intros H. apply elem_of_app. by right.
Qed.

Lemma reports_map_parse {A B} i (g : A → B) (r : SafeParse A) :
  reports i r → reports i (map_parse g r).
Proof. by destruct r. Qed.

Lemma reports_error {A} i (r : SafeParse A) :
  reports i r → ∃ es, r = ParseError es ∧ i ∈ es.
Proof. destruct r as [a|es]; [done|]. intros H. by exists es. Qed.

Lemma chat_without_message_reports (o : list (string * json)) :
  get "type" o = Some (JString "chat") →
  get "message" o = None →
  reports {| code := invalid_type; path := [PKey "message"] |}
          (parse wsMessageSchema (JObject o)).
Proof.
  intros Ht Hm. unfold parse, wsMessageSchema. rewrite Ht.
  change (String.eqb "chat" "videoSync") with false.
  change (String.eqb "chat" "chat") with true. cbv iota.
  apply reports_map_parse. unfold chatMessageSchema. rewrite Hm.
  apply reports_and_l, reports_and_r. cbn. apply list_elem_of_here.
Qed.

Lemma on_message_invalid ws j errors db_ok w :
  parse wsMessageSchema j = ParseError errors →
  on_message ws (JSONValue j) db_ok w = send ws (ErrorFrame "Invalid message format" errors) w.
Proof.
  intros H. unfold on_message. by rewrite (try_block_invalid _ _ _ _ H).
Qed.

(** C6, as stated, fails: a frame that is not parseable JSON makes
    [JSON.parse] throw a [SyntaxError], which the [catch] block logs without
    sending anything, since it answers a [ZodError] only. *)
Lemma unparseable_frame_gets_no_reply :
  ¬ (∀ ws message db_ok w,
       rejected message → one_error_reply ws w (on_message ws message db_ok w)).
Proof.
  intros H. destruct (H 1%nat JSONSyntaxError true init I) as (m & d & E).
  apply (f_equal sent) in E. discriminate E.
Qed.

(** C6, amended: a frame that parses as JSON and fails the schema (not an
    object, missing or unknown discriminator, a field of the selected variant
    missing or of the wrong type) is answered with exactly one error frame,
    sent to the originating socket only; the table, the closure variables and
    the sockets' states are untouched, so nothing is fanned out and the
    connection is not closed. A frame that does not parse as JSON changes
    nothing either and is not answered. *)
Theorem rejected_frame_reply ws j errors db_ok w :
  parse wsMessageSchema j = ParseError errors →
  on_message ws (JSONValue j) db_ok w
    = send ws (ErrorFrame "Invalid message format" errors) w
  ∧ sent (on_message ws (JSONValue j) db_ok w)
    = sent w ++ [(ws, ErrorFrame "Invalid message format" errors)]
  ∧ sessionConnections (on_message ws (JSONValue j) db_ok w) = sessionConnections w
  ∧ readyState (on_message ws (JSONValue j) db_ok w) = readyState w
  ∧ on_message ws JSONSyntaxError db_ok w = w.
Proof.
  intros H. rewrite (on_message_invalid _ _ _ _ _ H). by repeat split.
Qed.

Lemma rejected_frame_reply_witness :
  parse wsMessageSchema (JObject [("sessionId", JNumber 42)])
    = ParseError [ {| code := invalid_union_discriminator; path := [PKey "type"] |} ]
  ∧ sent (on_message 1%nat (JSONValue (JObject [("sessionId", JNumber 42)])) true
            (run (join 1 42 1 ++ join 2 42 2) init))
    = sent (run (join 1 42 1 ++ join 2 42 2) init)
      ++ [(1%nat, ErrorFrame "Invalid message format"
                    [ {| code := invalid_union_discriminator; path := [PKey "type"] |} ])].
Proof.
  split; [reflexivity|].
  apply (rejected_frame_reply 1%nat (JObject [("sessionId", JNumber 42)])
           [ {| code := invalid_union_discriminator; path := [PKey "type"] |} ] true
           (run (join 1 42 1 ++ join 2 42 2) init)).
  reflexivity.
Defined.

(** C7: a chat frame without a [message] key fails validation with an
    [invalid_type] issue at path [message]; the handler sends exactly one
    error frame, to the sender, and does nothing else: no fan-out, no
    assignment, no registration. *)
Theorem chat_without_message_rejected ws (o : list (string * json)) db_ok w :
  get "type" o = Some (JString "chat") →
  get "message" o = None →
  ∃ errors,
    parse wsMessageSchema (JObject o) = ParseError errors
    ∧ {| code := invalid_type; path := [PKey "message"] |} ∈ errors
    ∧ on_message ws (JSONValue (JObject o)) db_ok w
      = send ws (ErrorFrame "Invalid message format" errors) w
    ∧ sent (on_message ws (JSONValue (JObject o)) db_ok w)
      = sent w ++ [(ws, ErrorFrame "Invalid message format" errors)].
Proof.
  intros Ht Hm.
  destruct (reports_error _ _ (chat_without_message_reports o Ht Hm)) as (es & E & Hin).
  exists es. rewrite (on_message_invalid _ _ _ _ _ E). by repeat split.
Qed.

Lemma chat_without_message_rejected_witness :
  ∃ errors,
    parse wsMessageSchema
      (JObject [("type", JString "chat"); ("sessionId", JNumber 42); ("userId", JNumber 1);
                ("username", JString "ann"); ("timestamp", JNumber 7)])
    = ParseError errors
    ∧ sent (on_message 1%nat
              (JSONValue (JObject [("type", JString "chat"); ("sessionId", JNumber 42);
                                   ("userId", JNumber 1); ("username", JString "ann");
                                   ("timestamp", JNumber 7)]))
              true (run (join 1 42 1 ++ join 2 42 2) init))
      = sent (run (join 1 42 1 ++ join 2 42 2) init)
        ++ [(1%nat, ErrorFrame "Invalid message format" errors)].
Proof.
  destruct (chat_without_message_rejected 1%nat
              [("type", JString "chat"); ("sessionId", JNumber 42); ("userId", JNumber 1);
               ("username", JString "ann"); ("timestamp", JNumber 7)]
              true (run (join 1 42 1 ++ join 2 42 2) init) eq_refl eq_refl)
    as (errors & E & _ & _ & Hs).
  exists errors. by split.
Defined.

(** ** Fan-out of valid frames *)

Lemma sent_during_deliver w ds w' :
  sent w' = sent w ++ ds → sent_during w w' = ds.
Proof. intros H. unfold sent_during. rewrite H. apply drop_app_length. Qed.

Lemma elem_of_deliveries w cond payload conns h f :
  (h, f) ∈ deliveries w cond payload conns
  ↔ f = Relay payload
    ∧ ∃ c, c ∈ conns ∧ socket c = h ∧ cond c = true ∧ isOpen w (socket c) = true.
Proof.
  unfold deliveries. rewrite list_elem_of_In, in_map_iff. split.
  - intros (c & E & Hc). apply filter_In in Hc as [Hc Hb].
    apply andb_true_iff in Hb as [Hb1 Hb2]. injection E as <- <-.
    split; [done|]. exists c. by rewrite list_elem_of_In.
  - intros (-> & c & Hc & <- & Hb1 & Hb2). exists c. split; [done|].
    apply filter_In. split; [by apply list_elem_of_In|]. by rewrite Hb1, Hb2.
Qed.


Lemma sent_chat_ok ws j m w :
  parse wsMessageSchema j = ParseOk (Chat m) →
  sent (on_message ws (JSONValue j) true w)
  = sent w ++ deliveries w (fun _ => true) (ChatMessage_toJSON m)
                (entries w (chat_sessionId m)).
Proof.
  intros H. rewrite (on_message_chat_ok _ _ _ _ H).
  by rewrite sent_register_connection.
Qed.

Lemma sent_step_videoSync ws j m w :
  parse wsMessageSchema j = ParseOk (VideoSync m) →
  sent (step (Message ws (JSONValue j)) w)
  = sent w ++ deliveries w (fun c => userId_differs c (var_userId (vars_of w ws)))
                (VideoSyncMessage_toJSON m) (entries w (sync_sessionId m)).
Proof.
  intros H. unfold step. rewrite (try_block_videoSync _ _ _ _ H). cbv zeta. cbn [settle].
  by rewrite sent_register_connection.
Qed.

Lemma received_deliveries (h : Handle) (f : Frame) (l : list Connection) :
  received h (map (fun c => (socket c, f)) l)
  = length (List.filter (fun c => (socket c =? h)%nat) l).
Proof.
  unfold received. induction l as [|c l IH]; [reflexivity|]. cbn.
  destruct (socket c =? h)%nat; cbn; by rewrite IH.
Qed.

(** C2, as stated, fails: the loop leaves out the entries whose [userId] is
    the sender's, it does not look at sockets. A connection that has sent
    chat frames under two user ids has two entries in the session, and its
    videoSync frame comes back to it through the entry of the other user
    id. *)
Lemma videoSync_returns_to_sender : ¬ videoSync_never_returns_to_sender.
Proof.
  intros H.
  apply (H (join 1 42 1 ++ join 1 42 2) 1%nat 2 (sync_frame 42)
           {| sync_sessionId := 42; sync_action := play;
              sync_timestamp := None; sync_currentTime := None |}
           eq_refl ltac:(by_evaluation) ltac:(elem_by_evaluation) (Relay (sync_frame 42))).
  elem_by_evaluation.
Qed.

(** C2, amended: for a valid videoSync frame from a connection whose [userId]
    variable is [A], the validated message (the fields of the schema that the
    frame has, and no others) is serialised and sent once for each entry of
    the frame's session whose [userId] is not [A] and whose socket is open,
    in the order of the list, and for no other entry. So a socket receives it
    as many times as it has such entries: a socket all of whose entries in
    the session carry [A] receives nothing, and the sender's own socket
    receives its frame back when it also has an entry under another user
    id. *)
Theorem videoSync_fanout ws j m A w :
  parse wsMessageSchema j = ParseOk (VideoSync m) →
  var_userId (vars_of w ws) = Some A →
  let conns := entries w (sync_sessionId m) in
  let payload :=
    JObject ([("type", JString "videoSync");
              ("sessionId", JNumber (sync_sessionId m));
              ("action", JString match sync_action m with
                                 | play => "play"
                                 | pause => "pause"
                                 | seek => "seek"
                                 end)]
             ++ match sync_timestamp m with
                | Some t => [("timestamp", JNumber t)]
                | None => []
                end
             ++ match sync_currentTime m with
                | Some t => [("currentTime", JNumber t)]
                | None => []
                end) in
  let addressed :=
    List.filter (fun c => negb (userId c =? A) && isOpen w (socket c)) conns in
  let w' := step (Message ws (JSONValue j)) w in
  sent w' = sent w ++ map (fun c => (socket c, Relay payload)) addressed
  ∧ (∀ c, c ∈ conns → userId c ≠ A → isOpen w (socket c) = true →
       (socket c, Relay payload) ∈ sent_during w w')
  ∧ (∀ h f, (h, f) ∈ sent_during w w' ↔
       f = Relay payload
       ∧ ∃ c, c ∈ conns ∧ socket c = h ∧ userId c ≠ A ∧ isOpen w h = true)
  ∧ (∀ h, received h (sent_during w w')
          = length (List.filter (fun c => (socket c =? h)%nat) addressed))
  ∧ (∀ h, (∀ c, c ∈ conns → socket c = h → userId c = A) →
       ∀ f, (h, f) ∉ sent_during w w')
  ∧ ((∃ c, c ∈ conns ∧ socket c = ws ∧ userId c ≠ A) → isOpen w ws = true →
       (ws, Relay payload) ∈ sent_during w w').
Proof.
  intros H HA conns payload addressed w'.
  assert (Hp : payload = VideoSyncMessage_toJSON m) by reflexivity.
  pose proof (sent_step_videoSync ws j m w H) as Hs. rewrite HA, <- Hp in Hs.
  fold conns w' in Hs.
  assert (Hin : ∀ h f, (h, f) ∈ sent_during w w' ↔
            f = Relay payload
            ∧ ∃ c, c ∈ conns ∧ socket c = h ∧ userId c ≠ A ∧ isOpen w h = true).
  { intros h f. rewrite (sent_during_deliver _ _ _ Hs), elem_of_deliveries.
    split.
    - intros (-> & c & Hc & <- & Hu & Ho). split; [done|]. exists c.
      cbn in Hu. apply negb_true_iff, Z.eqb_neq in Hu. done.
    - intros (-> & c & Hc & <- & Hu & Ho). split; [done|]. exists c.
      repeat split; try done. cbn. by apply negb_true_iff, Z.eqb_neq. }
  split; [exact Hs|]. split; [|split; [exact Hin|split; [|split]]].
  - intros c Hc Hu Ho. apply Hin. split; [done|]. by exists c.
  - intros h. rewrite (sent_during_deliver _ _ _ Hs). apply received_deliveries.
  - intros h Hh f Hf. apply Hin in Hf as (_ & c & Hc & Eh & Hu & _).
    by apply Hu, Hh.
  - intros (c & Hc & Eh & Hu) Ho. apply Hin. split; [done|]. by exists c.
Qed.

Lemma videoSync_fanout_witness :
  sent (step (Message 1 (JSONValue (JObject [("type", JString "videoSync");
                                             ("sessionId", JNumber 42);
                                             ("action", JString "seek");
                                             ("timestamp", JNumber 1700);
                                             ("currentTime", JNumber 90);
                                             ("volume", JNumber 11)])))
          (run (join 1 42 1 ++ join 2 42 2 ++ join 3 42 3 ++ [Closing 3]) init))
  = sent (run (join 1 42 1 ++ join 2 42 2 ++ join 3 42 3 ++ [Closing 3]) init)
    ++ [(2%nat, Relay (JObject [("type", JString "videoSync"); ("sessionId", JNumber 42);
                                ("action", JString "seek"); ("timestamp", JNumber 1700);
                                ("currentTime", JNumber 90)]))].
Proof.
  apply (videoSync_fanout 1%nat
           (JObject [("type", JString "videoSync"); ("sessionId", JNumber 42);
                     ("action", JString "seek"); ("timestamp", JNumber 1700);
                     ("currentTime", JNumber 90); ("volume", JNumber 11)])
           {| sync_sessionId := 42; sync_action := seek;
              sync_timestamp := Some 1700; sync_currentTime := Some 90 |}
           1 (run (join 1 42 1 ++ join 2 42 2 ++ join 3 42 3 ++ [Closing 3]) init)
           eq_refl eq_refl).
Defined.

(** C1, as stated, fails: when [storage.createMessage] rejects, the [await]
    throws, the rest of the [try] block (fan-out and registration) is
    skipped, and the [catch] block sends nothing. *)
Lemma chat_not_relayed_when_storage_fails :
  ¬ chat_reaches_session_even_if_storage_fails.
Proof.
  intros H.
  specialize (H 1%nat (chat_frame 42 1 "hello") _ false
                (run (join 1 42 1 ++ join 2 42 2) init)
                {| userId := 2; socket := 2 |} eq_refl).
  vm_compute in H.
  specialize (H ltac:(elem_by_evaluation) eq_refl).
  apply list_elem_of_In in H. exact H.
Qed.

(** ** Registration *)

Lemma vars_of_deliver ds w ws : vars_of (deliver ds w) ws = vars_of w ws.
Proof. reflexivity. Qed.

Lemma entries_deliver ds w sid : entries (deliver ds w) sid = entries w sid.
Proof. reflexivity. Qed.

Lemma entries_bound ws m w sid : entries (bound ws m w) sid = entries w sid.
Proof. reflexivity. Qed.

Lemma register_existing ws w uid sid c :
  var_userId (vars_of w ws) = Some uid →
  var_sessionId (vars_of w ws) = Some sid →
  c ∈ entries w sid → userId c = uid →
  register_connection ws w = w.
Proof.
  intros Hu Hs Hc Hcu. unfold register_connection. rewrite Hu, Hs.
  unfold entries in Hc. destruct (sessionConnections w !! sid) as [conns|]; cbn in Hc.
  - assert (existsb (fun conn => userId conn =? uid) conns = true) as ->.
    { apply existsb_exists. exists c. split; [by apply list_elem_of_In|].
      by apply Z.eqb_eq. }
    by rewrite andb_false_r.
  - by apply elem_of_nil in Hc.
Qed.

Lemma register_new ws w uid sid :
  var_userId (vars_of w ws) = Some uid →
  var_sessionId (vars_of w ws) = Some sid →
  uid ≠ 0 → sid ≠ 0 →
  (∀ c, c ∈ entries w sid → userId c ≠ uid) →
  register_connection ws w
  = set_sessionConnections
      (<[sid := entries w sid ++ [ {| userId := uid; socket := ws |} ]]> (sessionConnections w)) w.
Proof.
  intros Hu Hs Hu0 Hs0 Hnone. unfold register_connection. rewrite Hu, Hs.
  unfold truthy. apply Z.eqb_neq in Hu0 as ->. apply Z.eqb_neq in Hs0 as ->. cbn [negb andb].
  unfold entries in *. destruct (sessionConnections w !! sid) as [conns|]; cbn in *.
  - destruct (existsb _ conns) eqn:E; [|reflexivity].
    apply existsb_exists in E as (c & Hc & Hcu). apply Z.eqb_eq in Hcu.
    by destruct (Hnone c (proj2 (list_elem_of_In _ _) Hc)).
  - reflexivity.
Qed.

Lemma register_falsy ws w u s :
  var_userId (vars_of w ws) = Some u → var_sessionId (vars_of w ws) = Some s →
  u = 0 ∨ s = 0 → register_connection ws w = w.
Proof.
  intros Hu Hs H0. unfold register_connection. rewrite Hu, Hs.
  destruct H0 as [->| ->]; cbn; [done|]. by rewrite andb_false_r.
Qed.


(** C3, as stated, fails: the registration block pushes only when the
    session has no entry with the connection's [userId]; a second connection
    of the same user is not registered and the first entry stays. *)
Lemma reconnect_keeps_old_entry : ¬ reconnect_replaces_entry.
Proof.
  intros H.
  specialize (H 2%nat 1%nat (chat_frame 42 1 "back") _ true (run (join 1 42 1) init)
                eq_refl ltac:(discriminate)).
  vm_compute in H.
  specialize (H ltac:(elem_by_evaluation)).
  discriminate H.
Qed.

(** ** The ['close'] callback *)

Lemma on_close_bound ws w sid uid conns :
  var_sessionId (vars_of w ws) = Some sid →
  var_userId (vars_of w ws) = Some uid →
  sid ≠ 0 → uid ≠ 0 →
  sessionConnections w !! sid = Some conns →
  on_close ws w
  = if (length (survivors uid ws conns) =? 0)%nat
    then set_sessionConnections (delete sid (sessionConnections w)) w
    else deliver (deliveries w (fun _ => true) (roster sid (survivors uid ws conns))
                    (survivors uid ws conns))
           (set_sessionConnections (<[sid := survivors uid ws conns]> (sessionConnections w)) w).
Proof.
  intros Hs Hu Hs0 Hu0 Hl. unfold on_close, survivors, roster. rewrite Hs, Hu, Hl.
  unfold truthy. apply Z.eqb_neq in Hu0 as ->. apply Z.eqb_neq in Hs0 as ->.
  cbn [negb andb]. cbv zeta.
  destruct (length _ =? 0)%nat; [reflexivity|].
  by rewrite broadcast_deliver.
Qed.

Lemma on_close_absent ws w sid :
  var_sessionId (vars_of w ws) = Some sid →
  sessionConnections w !! sid = None →
  on_close ws w = w.
Proof.
  intros Hs Hl. unfold on_close. rewrite Hs, Hl.
  destruct (_ && _); [|reflexivity]. by destruct (var_userId (vars_of w ws)).
Qed.

Lemma on_close_cases ws w :
  on_close ws w = w
  ∨ ∃ sid uid, var_sessionId (vars_of w ws) = Some sid
               ∧ var_userId (vars_of w ws) = Some uid ∧ sid ≠ 0 ∧ uid ≠ 0.
Proof.
  unfold on_close.
  destruct (var_sessionId (vars_of w ws)) as [sid|]; [|by left].
  destruct (var_userId (vars_of w ws)) as [uid|]; [|left; by rewrite andb_false_r].
  destruct (decide (sid = 0)) as [->|Hs]; [by left|].
  destruct (decide (uid = 0)) as [->|Hu]; [left; by rewrite andb_false_r|].
  right. by exists sid, uid.
Qed.

Lemma survivors_nil_length uid ws conns :
  (length (survivors uid ws conns) =? 0)%nat = true ↔ survivors uid ws conns = [].
Proof.
  rewrite Nat.eqb_eq. split; [apply nil_length_inv|]. by intros ->.
Qed.

(** The entries of every session after a close of a bound connection. *)
Lemma entries_on_close ws w sid uid s :
  var_sessionId (vars_of w ws) = Some sid →
  var_userId (vars_of w ws) = Some uid →
  sid ≠ 0 → uid ≠ 0 →
  entries (on_close ws w) s
  = if decide (s = sid) then survivors uid ws (entries w sid) else entries w s.
Proof.
  intros Hs Hu Hs0 Hu0.
  destruct (sessionConnections w !! sid) as [conns|] eqn:Hl.
  - rewrite (on_close_bound _ _ _ _ _ Hs Hu Hs0 Hu0 Hl).
    unfold entries at 2. rewrite Hl. change (default [] (Some conns)) with conns.
    destruct (length (survivors uid ws conns) =? 0)%nat eqn:E.
    + apply survivors_nil_length in E. unfold entries; cbn.
      destruct (decide (s = sid)) as [->|Hne].
      * by rewrite lookup_delete_eq, E.
      * by rewrite lookup_delete_ne.
    + rewrite entries_deliver. unfold entries; cbn.
      destruct (decide (s = sid)) as [->|Hne].
      * by rewrite lookup_insert_eq.
      * by rewrite lookup_insert_ne.
  - rewrite (on_close_absent _ _ _ Hs Hl).
    destruct (decide (s = sid)) as [->|Hne]; [|done].
    unfold entries. by rewrite Hl.
Qed.

Lemma elem_of_survivors uid ws conns c :
  c ∈ survivors uid ws conns ↔ c ∈ conns ∧ ¬ (userId c = uid ∧ socket c = ws).
Proof.
  unfold survivors. rewrite !list_elem_of_In, filter_In, negb_true_iff, andb_false_iff.
  rewrite Z.eqb_neq, Nat.eqb_neq. split; intros [Hc Hn]; (split; [done|]).
  - intros [? ?]. by destruct Hn.
  - destruct (decide (userId c = uid)); [|by left]. right. intros ?. by apply Hn.
Qed.

Lemma survivors_all uid ws conns :
  (∀ c, c ∈ conns → userId c = uid → socket c ≠ ws) → survivors uid ws conns = conns.
Proof.
  intros H. induction conns as [|c conns IH]; [reflexivity|].
  unfold survivors in *. cbn [List.filter].
  assert (negb ((userId c =? uid) && (socket c =? ws)%nat) = true) as ->.
  { apply negb_true_iff, andb_false_iff.
    destruct (decide (userId c = uid)) as [E|E].
    - right. apply Nat.eqb_neq. apply H; [apply list_elem_of_here|done].
    - left. by apply Z.eqb_neq. }
  f_equal. apply IH. intros c' Hc'. apply H. by apply list_elem_of_further.
Qed.


(** An entry that a close removes is the closing connection's own. *)
Lemma on_close_removed ws w s c :
  c ∈ entries w s → c ∉ entries (on_close ws w) s →
  socket c = ws
  ∧ var_userId (vars_of w ws) = Some (userId c)
  ∧ var_sessionId (vars_of w ws) = Some s.
Proof.
  intros Hc Hgone.
  destruct (on_close_cases ws w) as [E|(sid & uid & Hs & Hu & Hs0 & Hu0)].
  { by rewrite E in Hgone. }
  rewrite (entries_on_close _ _ _ _ s Hs Hu Hs0 Hu0) in Hgone.
  destruct (decide (s = sid)) as [->|Hne]; [|done].
  rewrite elem_of_survivors in Hgone.
  destruct (decide (userId c = uid)) as [Eu|Eu];
    [destruct (decide (socket c = ws)) as [Ew|Ew]|].
  - subst. by rewrite Hu, Hs.
  - destruct Hgone. split; [done|]. by intros [_ ?].
  - destruct Hgone. split; [done|]. by intros [? _].
Qed.

(** A close adds no entry. *)
Lemma on_close_subset ws w s c :
  c ∈ entries (on_close ws w) s → c ∈ entries w s.
Proof.
  destruct (on_close_cases ws w) as [E|(sid & uid & Hs & Hu & Hs0 & Hu0)].
  { by rewrite E. }
  rewrite (entries_on_close _ _ _ _ s Hs Hu Hs0 Hu0).
  destruct (decide (s = sid)) as [->|Hne]; [|done].
  rewrite elem_of_survivors. by intros [? _].
Qed.

(** C4: the ['close'] callback removes an entry only if the entry's socket
    is the closing socket (and the entry's user and session are the ones the
    closing connection is bound to); when the entries stored for the closing
    connection's (sessionId, userId) all refer to another socket, the table is
    left unchanged. *)
Theorem unregister_needs_matching_handle ws w s c :
  c ∈ entries w s →
  (c ∉ entries (on_close ws w) s →
     socket c = ws
     ∧ var_userId (vars_of w ws) = Some (userId c)
     ∧ var_sessionId (vars_of w ws) = Some s)
  ∧ (var_sessionId (vars_of w ws) = Some s →
     var_userId (vars_of w ws) = Some (userId c) →
     (∀ c', c' ∈ entries w s → userId c' = userId c → socket c' ≠ ws) →
     sessionConnections (on_close ws w) = sessionConnections w).
Proof.
  intros Hc. split.
  - by apply on_close_removed.
  - intros Hs Hu Hstale.
    destruct (on_close_cases ws w) as [E|(sid & uid & Hs' & Hu' & Hs0 & Hu0)].
    { by rewrite E. }
    rewrite Hs in Hs'. rewrite Hu in Hu'. injection Hs' as <-. injection Hu' as <-.
    unfold entries in Hc, Hstale.
    destruct (sessionConnections w !! s) as [conns|] eqn:Hl; cbn in Hc, Hstale.
    + rewrite (on_close_bound _ _ _ _ _ Hs Hu Hs0 Hu0 Hl).
      rewrite (survivors_all _ _ _ Hstale).
      destruct conns as [|c0 conns]; [by apply elem_of_nil in Hc|].
      cbn. by apply insert_id.
    + by apply elem_of_nil in Hc.
Qed.

Lemma unregister_needs_matching_handle_witness :
  {| userId := 1; socket := 1 |}
    ∈ entries (set_readyState 2 CLOSED (run (join 1 42 1 ++ join 2 42 1) init)) 42
  ∧ sessionConnections
      (on_close 2 (set_readyState 2 CLOSED (run (join 1 42 1 ++ join 2 42 1) init)))
    = sessionConnections (set_readyState 2 CLOSED (run (join 1 42 1 ++ join 2 42 1) init)).
Proof.
  assert (Hin : {| userId := 1; socket := 1 |}
                  ∈ entries (set_readyState 2 CLOSED
                               (run (join 1 42 1 ++ join 2 42 1) init)) 42).
  { elem_by_evaluation. }
  split; [exact Hin|].
  destruct (unregister_needs_matching_handle 2%nat _ 42 _ Hin) as [_ Hkeep].
  apply Hkeep; [by_evaluation|by_evaluation|].
  intros c' Hc' _. apply list_elem_of_In in Hc'. vm_compute in Hc'.
  destruct Hc' as [<-|[]]. discriminate.
Defined.


Lemma readyState_on_close ws w : readyState (on_close ws w) = readyState w.
Proof.
  destruct (on_close_cases ws w) as [->|(sid & uid & Hs & Hu & Hs0 & Hu0)]; [done|].
  destruct (sessionConnections w !! sid) as [conns|] eqn:Hl;
    [|by rewrite (on_close_absent _ _ _ Hs Hl)].
  rewrite (on_close_bound _ _ _ _ _ Hs Hu Hs0 Hu0 Hl).
  by destruct (length _ =? 0)%nat.
Qed.

Lemma isOpen_ext w1 w2 h : readyState w1 = readyState w2 → isOpen w1 h = isOpen w2 h.
Proof. intros E. unfold isOpen. by rewrite E. Qed.

Lemma isOpen_closed ws w h :
  isOpen (step (Close ws) w) h = if decide (h = ws) then false else isOpen w h.
Proof.
  cbn [step]. rewrite (isOpen_ext _ (set_readyState ws CLOSED w)) by apply readyState_on_close.
  unfold isOpen, set_readyState; cbn. destruct (decide (h = ws)) as [->|Hne].
  - by rewrite lookup_insert_eq.
  - by rewrite lookup_insert_ne.
Qed.





Lemma filter_filter_swap {A} (p q : A → bool) (l : list A) :
  List.filter p (List.filter q l) = List.filter q (List.filter p l).
Proof.
  induction l as [|x l IH]; [reflexivity|]. cbn.
  destruct (p x) eqn:Ep, (q x) eqn:Eq; cbn; rewrite ?Ep, ?Eq, IH; reflexivity.
Qed.

(** C8, as stated, fails: the loop sends the roster once per remaining entry,
    not once per socket. A socket that has sent chat frames under two user
    ids has two entries in the session and is sent two roster frames when
    another connection of the session closes. *)
Lemma roster_once_per_entry : ¬ each_survivor_notified_once.
Proof.
  intros H.
  specialize (H (join 1 42 1 ++ join 1 42 2 ++ join 3 42 3) 3%nat 42 3 1%nat
                ltac:(by_evaluation) ltac:(by_evaluation) ltac:(elem_by_evaluation)).
  assert (Hc : ∃ c, c ∈ entries (step (Close 3)
                                   (run (join 1 42 1 ++ join 1 42 2 ++ join 3 42 3) init)) 42
                    ∧ socket c = 1%nat).
  { exists {| userId := 1; socket := 1 |}. split; [elem_by_evaluation|reflexivity]. }
  specialize (H Hc ltac:(by_evaluation)). vm_compute in H. discriminate H.
Qed.

(** C8, amended: when a bound connection closes and entries remain in its
    session, the session's list becomes the remaining entries and one
    sessionUpdate frame is sent per remaining entry whose socket is open, in
    the order of the list, and to nobody else; its participants are the
    [userId]s of the remaining entries, each with the user name ["User"]. A
    socket receives as many frames as it has open remaining entries: exactly
    one when it has one entry. *)
Theorem close_notifies_survivors ws w sid uid conns :
  var_sessionId (vars_of w ws) = Some sid →
  var_userId (vars_of w ws) = Some uid →
  sid ≠ 0 → uid ≠ 0 →
  sessionConnections w !! sid = Some conns →
  survivors uid ws conns ≠ [] →
  let remaining := survivors uid ws conns in
  let update :=
    JObject [("type", JString "sessionUpdate"); ("sessionId", JNumber sid);
             ("participants",
               JArray (map (fun c => JObject [("userId", JNumber (userId c));
                                              ("username", JString "User")]) remaining))] in
  let w' := step (Close ws) w in
  let notified := List.filter (fun c => isOpen w' (socket c)) remaining in
  entries w' sid = remaining
  ∧ sent w' = sent w ++ map (fun c => (socket c, Relay update)) notified
  ∧ (∀ c, c ∈ remaining → isOpen w' (socket c) = true →
       (socket c, Relay update) ∈ sent_during w w')
  ∧ (∀ h f, (h, f) ∈ sent_during w w' →
       f = Relay update ∧ h ≠ ws ∧ ∃ c, c ∈ remaining ∧ socket c = h)
  ∧ (∀ h, received h (sent_during w w')
          = length (List.filter (fun c => (socket c =? h)%nat) notified))
  ∧ (∀ c, List.filter (fun c' => (socket c' =? socket c)%nat) remaining = [c] →
       isOpen w' (socket c) = true →
       received (socket c) (sent_during w w') = 1%nat).
Proof.
  intros Hs Hu Hs0 Hu0 Hl Hrem remaining update w' notified.
  set (w0 := set_readyState ws CLOSED w).
  assert (Hroster : roster sid remaining = update).
  { unfold roster, update, SessionUpdateMessage_toJSON. cbn. by rewrite map_map. }
  assert (Hw' : w' = deliver (deliveries w0 (fun _ => true) update remaining)
                       (set_sessionConnections (<[sid := remaining]> (sessionConnections w0)) w0)).
  { subst w'. cbn [step]. fold w0.
    rewrite (on_close_bound ws w0 sid uid conns Hs Hu Hs0 Hu0 Hl). fold remaining.
    destruct (length remaining =? 0)%nat eqn:E.
    - by apply survivors_nil_length in E.
    - by rewrite Hroster. }
  assert (Hopen : ∀ h, isOpen w' h = isOpen w0 h).
  { intros h. apply isOpen_ext. subst w'. cbn [step]. apply readyState_on_close. }
  assert (Hnot : notified = List.filter (fun c => true && isOpen w0 (socket c)) remaining).
  { subst notified. apply filter_ext. intros c. by rewrite Hopen. }
  assert (Hsent : sent w' = sent w ++ map (fun c => (socket c, Relay update)) notified).
  { rewrite Hw', Hnot. reflexivity. }
  assert (Hin : ∀ h f, (h, f) ∈ sent_during w w' ↔
            f = Relay update
            ∧ ∃ c, c ∈ remaining ∧ socket c = h ∧ isOpen w' h = true).
  { intros h f. rewrite (sent_during_deliver _ _ _ Hsent), Hnot.
    change (map (fun c => (socket c, Relay update))
              (List.filter (fun c => true && isOpen w0 (socket c)) remaining))
      with (deliveries w0 (fun _ => true) update remaining).
    rewrite elem_of_deliveries. split.
    - intros (-> & c & Hc & <- & _ & Ho). split; [done|]. exists c. by rewrite Hopen.
    - intros (-> & c & Hc & <- & Ho). split; [done|]. exists c. by rewrite <- Hopen. }
  assert (Hcount : ∀ h, received h (sent_during w w')
                        = length (List.filter (fun c => (socket c =? h)%nat) notified)).
  { intros h. rewrite (sent_during_deliver _ _ _ Hsent). apply received_deliveries. }
  split; [|split; [exact Hsent|split; [|split; [|split; [exact Hcount|]]]]].
  - rewrite Hw', entries_deliver. unfold entries; cbn. by rewrite lookup_insert_eq.
  - intros c Hc Ho. apply Hin. split; [done|]. by exists c.
  - intros h f (-> & c & Hc & <- & Ho)%Hin. split; [done|]. split; [|by exists c].
    intros E. rewrite E in Ho. subst w'. rewrite isOpen_closed, decide_True in Ho; done.
  - intros c Hone Ho. rewrite Hcount. subst notified.
    rewrite filter_filter_swap, Hone. cbn [List.filter]. by rewrite Ho.
Qed.

Lemma close_notifies_survivors_witness :
  sent (step (Close 2) (run (join 1 42 1 ++ join 2 42 2) init))
  = sent (run (join 1 42 1 ++ join 2 42 2) init)
    ++ [(1%nat,
         Relay (JObject [("type", JString "sessionUpdate"); ("sessionId", JNumber 42);
                         ("participants",
                           JArray [JObject [("userId", JNumber 1);
                                            ("username", JString "User")]])]))].
Proof.
  apply (close_notifies_survivors 2%nat (run (join 1 42 1 ++ join 2 42 2) init) 42 2
           [ {| userId := 1; socket := 1 |}; {| userId := 2; socket := 2 |} ]);
    by_evaluation.
Defined.

(** ** One event at a time *)

Lemma step_syntax_error ws w : step (Message ws JSONSyntaxError) w = w.
Proof. reflexivity. Qed.

Lemma step_invalid ws j errors w :
  parse wsMessageSchema j = ParseError errors →
  step (Message ws (JSONValue j)) w = send ws (ErrorFrame "Invalid message format" errors) w.
Proof. intros H. unfold step. by rewrite (try_block_invalid _ _ _ _ H). Qed.

Lemma step_videoSync ws j m w :
  parse wsMessageSchema j = ParseOk (VideoSync m) →
  step (Message ws (JSONValue j)) w
  = let w1 := assign_sessionId ws (sync_sessionId m) w in
    register_connection ws
      (deliver (deliveries w1 (fun c => userId_differs c (var_userId (vars_of w ws)))
                  (VideoSyncMessage_toJSON m) (entries w1 (sync_sessionId m))) w1).
Proof. intros H. unfold step. by rewrite (try_block_videoSync _ _ _ _ H). Qed.

Lemma step_sessionUpdate ws j m w :
  parse wsMessageSchema j = ParseOk (SessionUpdate m) →
  step (Message ws (JSONValue j)) w
  = let w1 := assign_sessionId ws (update_sessionId m) w in
    register_connection ws
      (deliver (deliveries w1 (fun _ => true) (SessionUpdateMessage_toJSON m)
                  (entries w1 (update_sessionId m))) w1).
Proof. intros H. unfold step. by rewrite (try_block_sessionUpdate _ _ _ _ H). Qed.

Lemma step_chat ws j m w :
  parse wsMessageSchema j = ParseOk (Chat m) →
  step (Message ws (JSONValue j)) w = set_pending (pending w ++ [(ws, m)]) (bound ws m w).
Proof. intros H. unfold step. by rewrite (try_block_chat _ _ _ _ H). Qed.

Lemma step_settle_ok k ws m w :
  pending w !! k = Some (ws, m) →
  step (Settle k true) w
  = let w2 := set_pending (delete k (pending w)) w in
    register_connection ws
      (deliver (deliveries w2 (fun _ => true) (ChatMessage_toJSON m)
                  (from_option (entries w2) [] (var_sessionId (vars_of w2 ws)))) w2).
Proof.
  intros H. unfold step. rewrite H. unfold after_await, settle.
  by rewrite broadcast_session_deliver.
Qed.

Lemma step_settle_failed k ws m w :
  pending w !! k = Some (ws, m) →
  step (Settle k false) w = set_pending (delete k (pending w)) w.
Proof. intros H. unfold step. by rewrite H. Qed.

Lemma step_settle_none k db_ok w :
  pending w !! k = None → step (Settle k db_ok) w = w.
Proof. intros H. unfold step. by rewrite H. Qed.

Lemma set_pending_id w : set_pending (pending w) w = w.
Proof. by destruct w. Qed.

Lemma on_message_sessionUpdate ws j m db_ok w :
  parse wsMessageSchema j = ParseOk (SessionUpdate m) →
  on_message ws (JSONValue j) db_ok w
  = let w1 := assign_sessionId ws (update_sessionId m) w in
    register_connection ws
      (deliver (deliveries w (fun _ => true) (SessionUpdateMessage_toJSON m)
                  (entries w (update_sessionId m))) w1).
Proof.
  intros H. unfold on_message. rewrite (try_block_sessionUpdate _ _ _ _ H). reflexivity.
Qed.

Lemma pending_register_connection ws w :
  pending (register_connection ws w) = pending w.
Proof.
  unfold register_connection.
  destruct (var_userId (vars_of w ws)), (var_sessionId (vars_of w ws)); try reflexivity.
  by destruct (_ && _).
Qed.

(** A ['message'] callback that is not interleaved at its [await] is the
    event [Message] followed at once by the settlement of its own promise. *)
Lemma on_message_run ws message db_ok w :
  run [Message ws message; Settle (length (pending w)) db_ok] w
  = on_message ws message db_ok w.
Proof.
  assert (Hnone : ∀ w', pending w' = pending w →
            step (Settle (length (pending w)) db_ok) w' = w').
  { intros w' E. apply step_settle_none. rewrite E. by apply lookup_ge_None_2. }
  cbn [run foldl]. destruct message as [|j].
  { rewrite step_syntax_error. by apply Hnone. }
  destruct (parse wsMessageSchema j) as [[m|m|m]|errors] eqn:H.
  - rewrite (step_videoSync _ _ _ _ H), (on_message_videoSync _ _ _ _ _ H).
    apply Hnone. cbv zeta. by rewrite pending_register_connection.
  - rewrite (step_chat _ _ _ _ H).
    assert (Hl : pending (set_pending (pending w ++ [(ws, m)]) (bound ws m w))
                   !! length (pending w) = Some (ws, m)).
    { cbn. by rewrite lookup_app_r, Nat.sub_diag. }
    assert (Hd : set_pending
                   (delete (length (pending w))
                      (pending (set_pending (pending w ++ [(ws, m)]) (bound ws m w))))
                   (set_pending (pending w ++ [(ws, m)]) (bound ws m w))
                 = bound ws m w).
    { cbn [pending set_pending]. rewrite delete_middle, app_nil_r.
      apply (set_pending_id (bound ws m w)). }
    destruct db_ok.
    + rewrite (step_settle_ok _ _ _ _ Hl). cbv zeta. rewrite Hd, vars_of_bound.
      by rewrite (on_message_chat_ok _ _ _ _ H).
    + rewrite (step_settle_failed _ _ _ _ Hl), Hd.
      by rewrite (on_message_chat_failed _ _ _ _ H).
  - rewrite (step_sessionUpdate _ _ _ _ H).
    rewrite (on_message_sessionUpdate _ _ _ _ _ H).
    apply Hnone. cbv zeta. by rewrite pending_register_connection.
  - rewrite (step_invalid _ _ _ _ H), (on_message_invalid _ _ _ _ _ H).
    by apply Hnone.
Qed.

(** ** The registration block and the table *)

Lemma register_connection_cases ws w :
  register_connection ws w = w
  ∨ ∃ uid sid,
      var_userId (vars_of w ws) = Some uid ∧ var_sessionId (vars_of w ws) = Some sid
      ∧ uid ≠ 0 ∧ sid ≠ 0 ∧ (∀ c, c ∈ entries w sid → userId c ≠ uid)
      ∧ register_connection ws w
        = set_sessionConnections
            (<[sid := entries w sid ++ [ {| userId := uid; socket := ws |} ]]>
               (sessionConnections w)) w.
Proof.
  destruct (var_userId (vars_of w ws)) as [uid|] eqn:Hu;
    [|left; unfold register_connection; by rewrite Hu].
  destruct (var_sessionId (vars_of w ws)) as [sid|] eqn:Hs;
    [|left; unfold register_connection; by rewrite Hu, Hs].
  destruct (decide (uid = 0)) as [->|Hu0];
    [left; unfold register_connection; by rewrite Hu, Hs|].
  destruct (decide (sid = 0)) as [->|Hs0].
  { left. unfold register_connection. rewrite Hu, Hs. cbn. by rewrite andb_false_r. }
  destruct (existsb (fun conn => userId conn =? uid) (entries w sid)) eqn:E.
  - left. apply existsb_exists in E as (c & Hc & Hcu).
    apply (register_existing _ _ uid sid c); try done.
    + by apply list_elem_of_In.
    + by apply Z.eqb_eq.
  - right. exists uid, sid. repeat split; try done.
    + intros c Hc Hcu.
      assert (existsb (fun conn => userId conn =? uid) (entries w sid) = true) as E'.
      { apply existsb_exists. exists c. split; [by apply list_elem_of_In|].
        by apply Z.eqb_eq. }
      congruence.
    + apply register_new; try done. intros c Hc Hcu.
      assert (existsb (fun conn => userId conn =? uid) (entries w sid) = true) as E'.
      { apply existsb_exists. exists c. split; [by apply list_elem_of_In|].
        by apply Z.eqb_eq. }
      congruence.
Qed.

Lemma vars_of_register_connection ws w h :
  vars_of (register_connection ws w) h = vars_of w h.
Proof.
  destruct (register_connection_cases ws w) as [->|(? & ? & _ & _ & _ & _ & _ & ->)]; done.
Qed.

Lemma entries_insert w sid l s :
  entries (set_sessionConnections (<[sid := l]> (sessionConnections w)) w) s
  = if decide (s = sid) then l else entries w s.
Proof.
  unfold entries; cbn. destruct (decide (s = sid)) as [->|Hne].
  - by rewrite lookup_insert_eq.
  - by rewrite lookup_insert_ne.
Qed.

(** Registration keeps every entry, and an entry it adds is the caller's,
    under the caller's current [userId] and [sessionId]. *)
Lemma register_entries ws w s c :
  (c ∈ entries (register_connection ws w) s →
     c ∈ entries w s
     ∨ (socket c = ws ∧ var_userId (vars_of w ws) = Some (userId c)
        ∧ var_sessionId (vars_of w ws) = Some s))
  ∧ (c ∈ entries w s → c ∈ entries (register_connection ws w) s).
Proof.
  destruct (register_connection_cases ws w)
    as [->|(uid & sid & Hu & Hs & _ & _ & _ & ->)]; [by split; [left|]|].
  rewrite entries_insert. destruct (decide (s = sid)) as [->|Hne]; [|by split; [left|]].
  split.
  - intros [Hc|Hc]%elem_of_app; [by left|]. right.
    apply list_elem_of_singleton in Hc as ->. by cbn.
  - intros Hc. apply elem_of_app. by left.
Qed.

Lemma table_wf_register ws w :
  table_wf (sessionConnections w) → table_wf (sessionConnections (register_connection ws w)).
Proof.
  intros Hwf.
  destruct (register_connection_cases ws w)
    as [->|(uid & sid & Hu & Hs & Hu0 & Hs0 & Hfresh & ->)]; [done|].
  intros s conns. cbn. destruct (decide (s = sid)) as [->|Hne].
  - rewrite lookup_insert_eq. intros [= <-].
    assert (Hold : NoDup (map userId (entries w sid))
                   ∧ ∀ c, c ∈ entries w sid → userId c ≠ 0).
    { unfold entries. destruct (sessionConnections w !! sid) as [l|] eqn:Hl; cbn.
      - destruct (Hwf _ _ Hl) as (_ & ? & _ & ?). done.
      - split; [constructor|]. intros c Hc. by apply elem_of_nil in Hc. }
    destruct Hold as [Hnd Hnz]. repeat split; try done.
    + by destruct (entries w sid).
    + rewrite map_app. apply NoDup_app. repeat split; try done.
      * intros u Hin Hin'. apply list_elem_of_singleton in Hin' as ->.
        apply list_elem_of_In, in_map_iff in Hin as (c & Hcu & Hc).
        apply list_elem_of_In in Hc. by apply (Hfresh c Hc).
      * apply NoDup_singleton.
    + intros c [Hc|Hc]%elem_of_app; [by apply Hnz|].
      by apply list_elem_of_singleton in Hc as ->.
  - rewrite lookup_insert_ne by done. apply Hwf.
Qed.

Lemma NoDup_map_filter {A B} (f : A → B) (p : A → bool) (l : list A) :
  NoDup (map f l) → NoDup (map f (List.filter p l)).
Proof.
  induction l as [|x l IH]; [done|]. cbn. intros [Hx Hl]%NoDup_cons.
  destruct (p x); [|by apply IH]. cbn. apply NoDup_cons. split; [|by apply IH].
  intros Hin. apply Hx. apply list_elem_of_In, in_map_iff in Hin as (y & E & Hy).
  apply filter_In in Hy as [Hy _]. apply list_elem_of_In, in_map_iff. by exists y.
Qed.

Lemma table_wf_on_close ws w :
  table_wf (sessionConnections w) → table_wf (sessionConnections (on_close ws w)).
Proof.
  intros Hwf.
  destruct (on_close_cases ws w) as [->|(sid & uid & Hs & Hu & Hs0 & Hu0)]; [done|].
  destruct (sessionConnections w !! sid) as [conns|] eqn:Hl;
    [|by rewrite (on_close_absent _ _ _ Hs Hl)].
  rewrite (on_close_bound _ _ _ _ _ Hs Hu Hs0 Hu0 Hl).
  destruct (Hwf _ _ Hl) as (_ & Hnd & _ & Hnz).
  destruct (length (survivors uid ws conns) =? 0)%nat eqn:E; cbn; intros s l.
  - destruct (decide (s = sid)) as [->|Hne].
    + by rewrite lookup_delete_eq.
    + rewrite lookup_delete_ne by done. apply Hwf.
  - destruct (decide (s = sid)) as [->|Hne].
    + rewrite lookup_insert_eq. intros [= <-]. repeat split; try done.
      * intros E'. apply survivors_nil_length in E'. congruence.
      * by apply NoDup_map_filter.
      * intros c [Hc _]%elem_of_survivors. by apply Hnz.
    + rewrite lookup_insert_ne by done. apply Hwf.
Qed.

(** ** Reachable tables *)

Lemma table_wf_step e w :
  table_wf (sessionConnections w) → table_wf (sessionConnections (step e w)).
Proof.
  intros Hwf. destruct e as [ws [|j]|k db_ok|ws|ws].
  - done.
  - destruct (parse wsMessageSchema j) as [[m|m|m]|errors] eqn:H.
    + rewrite (step_videoSync _ _ _ _ H). by apply table_wf_register.
    + by rewrite (step_chat _ _ _ _ H).
    + rewrite (step_sessionUpdate _ _ _ _ H). by apply table_wf_register.
    + by rewrite (step_invalid _ _ _ _ H).
  - destruct (pending w !! k) as [[ws m]|] eqn:Hk; [destruct db_ok|].
    + rewrite (step_settle_ok _ _ _ _ Hk). by apply table_wf_register.
    + by rewrite (step_settle_failed _ _ _ _ Hk).
    + by rewrite (step_settle_none _ _ _ Hk).
  - done.
  - by apply table_wf_on_close.
Qed.

Lemma table_wf_run events w :
  table_wf (sessionConnections w) → table_wf (sessionConnections (run events w)).
Proof.
  revert w. induction events as [|e events IH]; intros w Hwf; [done|].
  cbn. by apply IH, table_wf_step.
Qed.

Lemma table_wf_init : table_wf (sessionConnections init).
Proof.
  intros sid conns H. unfold init in H. cbn [sessionConnections] in H.
  by rewrite lookup_empty in H.
Qed.

(** An event that runs the registration block for [ws] ends with it, and
    nothing before it in the handler touches the table. *)
Lemma step_registers e w ws :
  registers e w ws →
  ∃ w0, step e w = register_connection ws w0
        ∧ sessionConnections w0 = sessionConnections w.
Proof.
  intros Hr. destruct e as [ws' [|j]|k [|]|ws'|ws']; try done.
  - destruct Hr as (-> & m & H & Hm). destruct m as [m|m|m]; [|done|].
    + eexists. split; [apply (step_videoSync _ _ _ _ H)|done].
    + eexists. split; [apply (step_sessionUpdate _ _ _ _ H)|done].
  - destruct Hr as (m & Hk). eexists. split; [apply (step_settle_ok _ _ _ _ Hk)|done].
Qed.

(** An event that changes the table runs the registration block or is a
    close. *)
Lemma step_table_changed e w :
  sessionConnections (step e w) ≠ sessionConnections w →
  (∃ ws, registers e w ws) ∨ (∃ ws, e = Close ws).
Proof.
  intros Hch. destruct e as [ws [|j]|k db_ok|ws|ws].
  - done.
  - destruct (parse wsMessageSchema j) as [[m|m|m]|errors] eqn:H.
    + left. exists ws. split; [done|]. by exists (VideoSync m).
    + by rewrite (step_chat _ _ _ _ H) in Hch.
    + left. exists ws. split; [done|]. by exists (SessionUpdate m).
    + by rewrite (step_invalid _ _ _ _ H) in Hch.
  - destruct (pending w !! k) as [[ws m]|] eqn:Hk; [destruct db_ok|].
    + left. exists ws. by exists m.
    + by rewrite (step_settle_failed _ _ _ _ Hk) in Hch.
    + by rewrite (step_settle_none _ _ _ Hk) in Hch.
  - done.
  - right. by exists ws.
Qed.

Lemma filter_none {A} (p : A → bool) (l : list A) :
  (∀ y, In y l → p y = false) → List.filter p l = [].
Proof.
  induction l as [|y l IH]; intros H; [reflexivity|]. cbn.
  rewrite (H y) by by left. apply IH. intros z Hz. apply H. by right.
Qed.

Lemma filter_userId_unique (conns : list Connection) (c : Connection) :
  NoDup (map userId conns) → c ∈ conns →
  List.filter (fun c' => userId c' =? userId c) conns = [c].
Proof.
  induction conns as [|x l IH]; intros Hnd Hc; [by apply elem_of_nil in Hc|].
  cbn [map] in Hnd. apply NoDup_cons in Hnd as [Hx Hnd]. cbn [List.filter].
  apply elem_of_cons in Hc as [->|Hc].
  - rewrite Z.eqb_refl. f_equal. apply filter_none. intros y Hy.
    apply Z.eqb_neq. intros E. apply Hx. rewrite <- E.
    by apply list_elem_of_In, in_map.
  - assert ((userId x =? userId c) = false) as ->.
    { apply Z.eqb_neq. intros E. apply Hx. rewrite E.
      apply list_elem_of_In, in_map. by apply list_elem_of_In. }
    by apply IH.
Qed.

(** C3, amended: nothing replaces an entry. The registration block runs at
    the end of the handler of every valid videoSync or sessionUpdate frame
    and after the successful storage write of a chat frame, for the sending
    connection and the [userId] and [sessionId] that its variables hold then.
    It appends the entry (userId, socket of the sender) to the list of that
    session exactly when both are set and non-zero and the list has no entry
    with that [userId]; otherwise it leaves the table as it is. So when a
    second connection of a user who already has an entry in the session
    sends a frame establishing that identity, the table is unchanged: the
    pair keeps its one entry, which still refers to the old socket. No other
    event of a message changes the table: not a rejected frame, not the
    reception of a chat frame, not a failed storage write (after which the
    variables stay bound, so that a later valid frame of the connection runs
    the block for them). *)
Theorem register_inserts_or_keeps (events : list Event) (e : Event) :
  let w := run events init in
  let w' := step e w in
  (∀ ws u s,
     registers e w ws →
     var_userId (vars_of w' ws) = Some u →
     var_sessionId (vars_of w' ws) = Some s →
     (u ≠ 0 → s ≠ 0 → (∀ c, c ∈ entries w s → userId c ≠ u) →
        sessionConnections w'
        = <[s := entries w s ++ [ {| userId := u; socket := ws |} ]]> (sessionConnections w))
     ∧ (∀ c, c ∈ entries w s → userId c = u →
          sessionConnections w' = sessionConnections w
          ∧ List.filter (fun c' => userId c' =? u) (entries w' s) = [c])
     ∧ (u = 0 ∨ s = 0 → sessionConnections w' = sessionConnections w))
  ∧ (∀ ws, registers e w ws →
       var_userId (vars_of w' ws) = None ∨ var_sessionId (vars_of w' ws) = None →
       sessionConnections w' = sessionConnections w)
  ∧ (sessionConnections w' ≠ sessionConnections w →
       (∃ ws, registers e w ws) ∨ (∃ ws, e = Close ws))
  ∧ (∀ k, e = Settle k false → vars w' = vars w).
Proof.
  intros w w'. split; [|split; [|split]].
  - intros ws u s Hr Hu Hs.
    destruct (step_registers e w ws Hr) as (w0 & E & Ht).
    subst w'. rewrite E in Hu, Hs |- *. rewrite vars_of_register_connection in Hu, Hs.
    assert (He : ∀ s', entries w0 s' = entries w s').
    { intros s'. unfold entries. by rewrite Ht. }
    split; [|split].
    + intros Hu0 Hs0 Hnone. rewrite (register_new _ _ u s); try done.
      * cbn. by rewrite He, Ht.
      * intros c Hc. apply Hnone. by rewrite <- He.
    + intros c Hc Hcu. rewrite (register_existing _ _ u s c); try done.
      2:{ by rewrite He. }
      split; [done|]. rewrite He, <- Hcu. apply filter_userId_unique; [|done].
      unfold entries in Hc |- *.
      destruct (sessionConnections w !! s) as [conns|] eqn:Hl; cbn in Hc |- *.
      * by destruct (table_wf_run events init table_wf_init _ _ Hl) as (_ & ? & _).
      * by apply elem_of_nil in Hc.
    + intros H0. by rewrite (register_falsy _ _ u s).
  - intros ws Hr Hnone.
    destruct (step_registers e w ws Hr) as (w0 & E & Ht).
    subst w'. rewrite E in Hnone |- *. rewrite vars_of_register_connection in Hnone.
    assert (register_connection ws w0 = w0) as ->; [|done].
    unfold register_connection.
    destruct Hnone as [-> | ->]; [done|]. by destruct (var_userId (vars_of w0 ws)).
  - apply step_table_changed.
  - intros k ->. subst w'. cbn [step]. by destruct (pending w !! k) as [[ws m]|].
Qed.

Lemma register_inserts_or_keeps_witness :
  List.filter (fun c' => userId c' =? 1)
    (entries (step (Settle 0 true)
                (run (join 1 42 1 ++ [Message 2 (JSONValue (chat_frame 42 1 "back"))]) init))
       42)
  = [ {| userId := 1; socket := 1 |} ].
Proof.
  pose proof (register_inserts_or_keeps
                (join 1 42 1 ++ [Message 2 (JSONValue (chat_frame 42 1 "back"))])
                (Settle 0 true)) as H.
  cbv zeta in H. destruct H as (H & _).
  destruct (H 2%nat 1 42) as (_ & Hkeep & _).
  - exists {| chat_sessionId := 42; chat_userId := 1; chat_username := "ann";
              chat_message := "back"; chat_timestamp := 7 |}.
    by_evaluation.
  - by_evaluation.
  - by_evaluation.
  - apply (Hkeep {| userId := 1; socket := 1 |}); [elem_by_evaluation|reflexivity].
Defined.

(** An entry that appears was pushed by the registration block of its own
    socket, under that socket's current [userId] and [sessionId]. *)
Lemma step_added e w s c :
  c ∈ entries (step e w) s → c ∉ entries w s →
  registers e w (socket c)
  ∧ var_userId (vars_of (step e w) (socket c)) = Some (userId c)
  ∧ var_sessionId (vars_of (step e w) (socket c)) = Some s.
Proof.
  assert (Hreg : ∀ ws w1,
            c ∈ entries (register_connection ws w1) s →
            entries w1 s = entries w s → c ∉ entries w s →
            socket c = ws
            ∧ var_userId (vars_of (register_connection ws w1) (socket c)) = Some (userId c)
            ∧ var_sessionId (vars_of (register_connection ws w1) (socket c)) = Some s).
  { intros ws w1 Hc E Hn. rewrite !vars_of_register_connection.
    destruct (proj1 (register_entries ws w1 s c) Hc) as [Hold|(<- & ? & ?)]; [|done].
    by rewrite E in Hold. }
  intros Hc Hn. destruct e as [ws [|j]|k db_ok|ws|ws].
  - done.
  - destruct (parse wsMessageSchema j) as [[m|m|m]|errors] eqn:H.
    + rewrite (step_videoSync _ _ _ _ H) in Hc |- *. cbv zeta in Hc |- *.
      destruct (Hreg _ _ Hc eq_refl Hn) as (E & ? & ?). repeat split; try done.
      by exists (VideoSync m).
    + by rewrite (step_chat _ _ _ _ H) in Hc.
    + rewrite (step_sessionUpdate _ _ _ _ H) in Hc |- *. cbv zeta in Hc |- *.
      destruct (Hreg _ _ Hc eq_refl Hn) as (E & ? & ?). repeat split; try done.
      by exists (SessionUpdate m).
    + by rewrite (step_invalid _ _ _ _ H) in Hc.
  - destruct (pending w !! k) as [[ws m]|] eqn:Hk; [destruct db_ok|].
    + rewrite (step_settle_ok _ _ _ _ Hk) in Hc |- *. cbv zeta in Hc |- *.
      destruct (Hreg _ _ Hc eq_refl Hn) as (E & ? & ?). repeat split; try done.
      cbn. exists m. by rewrite E.
    + by rewrite (step_settle_failed _ _ _ _ Hk) in Hc.
    + by rewrite (step_settle_none _ _ _ Hk) in Hc.
  - done.
  - by apply on_close_subset in Hc.
Qed.

(** An entry disappears only when its own socket closes. *)
Lemma step_removed e w s c :
  c ∈ entries w s → c ∉ entries (step e w) s → e = Close (socket c).
Proof.
  assert (Hreg : ∀ ws w1,
            entries w1 s = entries w s →
            c ∈ entries w s → c ∈ entries (register_connection ws w1) s).
  { intros ws w1 E Hc. apply register_entries. by rewrite E. }
  assert (Hreg' : ∀ ws w1 w2,
            w2 = register_connection ws w1 → entries w1 s = entries w s →
            c ∈ entries w s → c ∈ entries w2 s).
  { intros ws w1 w2 -> E Hc. by apply Hreg. }
  intros Hc Hn. destruct e as [ws [|j]|k db_ok|ws|ws].
  - done.
  - destruct Hn. destruct (parse wsMessageSchema j) as [[m|m|m]|errors] eqn:H.
    + by apply (Hreg' _ _ _ (step_videoSync _ _ _ _ H)).
    + by rewrite (step_chat _ _ _ _ H).
    + by apply (Hreg' _ _ _ (step_sessionUpdate _ _ _ _ H)).
    + by rewrite (step_invalid _ _ _ _ H).
  - destruct Hn. destruct (pending w !! k) as [[ws m]|] eqn:Hk; [destruct db_ok|].
    + by apply (Hreg' _ _ _ (step_settle_ok _ _ _ _ Hk)).
    + by rewrite (step_settle_failed _ _ _ _ Hk).
    + by rewrite (step_settle_none _ _ _ Hk).
  - done.
  - cbn [step] in Hn.
    destruct (on_close_removed ws (set_readyState ws CLOSED w) s c Hc Hn) as (<- & _).
    done.
Qed.

(** C9, as stated, fails: every valid frame assigns its [sessionId] to the
    connection's [sessionId] variable, and the registration block then pushes
    the connection onto that session's list; a registered connection that
    sends a videoSync frame for another session is then in both lists. *)
Lemma frame_for_other_session_registers_again :
  ¬ (∀ events, one_session_per_connection (run events init))
  ∧ ¬ membership_ignores_later_frames.
Proof.
  split; intros H.
  - specialize (H (join 1 42 1 ++ [Message 1 (JSONValue (sync_frame 43))]) 42 43
                  {| userId := 1; socket := 1 |} {| userId := 1; socket := 1 |}
                  ltac:(elem_by_evaluation) ltac:(elem_by_evaluation) eq_refl).
    discriminate H.
  - specialize (H (join 1 42 1) 1%nat (JSONValue (sync_frame 43)) 42
                  {| userId := 1; socket := 1 |} ltac:(elem_by_evaluation) eq_refl).
    apply (f_equal (lookup 43)) in H. vm_compute in H. discriminate H.
Qed.

(** C9, amended: in every reachable state each session's list is non-empty
    and has at most one entry per [userId], so an entry occurs at most once in
    a list (one socket can still be in the lists of several sessions); an
    entry is added only by the registration block run for its own socket
    after a valid frame, under that socket's current [userId] and
    [sessionId], and is removed only by the ['close'] callback of its own
    socket. *)
Theorem membership_by_registration_and_close (events : list Event) :
  table_wf (sessionConnections (run events init))
  ∧ (∀ sid conns, sessionConnections (run events init) !! sid = Some conns →
       conns ≠ [] ∧ NoDup (map userId conns) ∧ NoDup conns)
  ∧ (∀ w e s c, c ∈ entries (step e w) s → c ∉ entries w s →
       registers e w (socket c)
       ∧ var_userId (vars_of (step e w) (socket c)) = Some (userId c)
       ∧ var_sessionId (vars_of (step e w) (socket c)) = Some s)
  ∧ (∀ w e s c, c ∈ entries w s → c ∉ entries (step e w) s → e = Close (socket c)).
Proof.
  pose proof (table_wf_run events init table_wf_init) as Hwf.
  split; [exact Hwf|]. split; [|split].
  - intros sid conns Hl. destruct (Hwf _ _ Hl) as (Hne & Hnd & _).
    repeat split; try done. by apply NoDup_fmap_1 in Hnd.
  - intros w e s c. apply step_added.
  - intros w e s c. apply step_removed.
Qed.

(** ** A connection that never sends a chat frame *)

Section NeverBound.
Variable h : Handle.

Lemma never_bound_init : never_bound h init.
Proof.
  repeat split; try done.
  - intros s c Hc. unfold entries, init in Hc. cbn [sessionConnections] in Hc.
    rewrite lookup_empty in Hc. by apply elem_of_nil in Hc.
  - intros d Hd. by apply elem_of_nil in Hd.
  - intros d Hd. by apply elem_of_nil in Hd.
Qed.

Lemma never_bound_deliver ds w :
  (∀ d, d ∈ ds → fst d ≠ h) → never_bound h w → never_bound h (deliver ds w).
Proof.
  intros Hds (Ha & Hb & Hc & Hd). repeat split; try done.
  intros d [?|?]%elem_of_app; [by apply Hc|by apply Hds].
Qed.

Lemma deliveries_registered w w' cond payload s :
  (∀ s c, c ∈ entries w s → socket c ≠ h) →
  ∀ d, d ∈ deliveries w' cond payload (entries w s) → fst d ≠ h.
Proof.
  intros Hb [h' f] (_ & c & Hc & <- & _)%elem_of_deliveries. by apply (Hb s).
Qed.

Lemma never_bound_register ws w :
  never_bound h w → never_bound h (register_connection ws w).
Proof.
  intros (Ha & Hb & Hc & Hd).
  destruct (register_connection_cases ws w)
    as [->|(uid & sid & Hu & Hs & _ & _ & _ & ->)]; [done|].
  repeat split; try done.
  intros s c. rewrite entries_insert. destruct (decide (s = sid)) as [->|Hne].
  - intros [Hin|Hin]%elem_of_app; [by apply (Hb sid)|].
    apply list_elem_of_singleton in Hin as ->. cbn. intros ->. congruence.
  - apply Hb.
Qed.

Lemma never_bound_assign_sessionId ws sid w :
  never_bound h w → never_bound h (assign_sessionId ws sid w).
Proof.
  intros (Ha & Hb & Hc & Hd). repeat split; try done.
  destruct (decide (ws = h)) as [->|Hne].
  - by rewrite vars_of_assign_sessionId.
  - by rewrite vars_of_assign_sessionId_ne.
Qed.

Lemma never_bound_assign_userId ws uid w :
  ws ≠ h → never_bound h w → never_bound h (assign_userId ws uid w).
Proof.
  intros Hne (Ha & Hb & Hc & Hd). repeat split; try done.
  by rewrite vars_of_assign_userId_ne.
Qed.

Lemma never_bound_set_pending q w :
  (∀ d, d ∈ q → fst d ≠ h) → never_bound h w → never_bound h (set_pending q w).
Proof. intros Hq (Ha & Hb & Hc & Hd). by repeat split. Qed.

Lemma never_bound_set_readyState ws r w :
  never_bound h w → never_bound h (set_readyState ws r w).
Proof. intros (Ha & Hb & Hc & Hd). by repeat split. Qed.

Lemma never_bound_on_close ws w :
  never_bound h w → never_bound h (on_close ws w).
Proof.
  intros Hnb.
  destruct (on_close_cases ws w) as [->|(sid & uid & Hs & Hu & Hs0 & Hu0)]; [done|].
  destruct (sessionConnections w !! sid) as [conns|] eqn:Hl;
    [|by rewrite (on_close_absent _ _ _ Hs Hl)].
  rewrite (on_close_bound _ _ _ _ _ Hs Hu Hs0 Hu0 Hl).
  assert (Hconns : conns = entries w sid) by (unfold entries; by rewrite Hl).
  destruct Hnb as (Ha & Hb & Hc & Hd).
  destruct (length (survivors uid ws conns) =? 0)%nat.
  - repeat split; try done. intros s c. unfold entries; cbn.
    destruct (decide (s = sid)) as [->|Hne].
    + rewrite lookup_delete_eq. intros Hin. by apply elem_of_nil in Hin.
    + rewrite lookup_delete_ne by done. apply Hb.
  - apply never_bound_deliver.
    + intros [h' f] (_ & c & Hin & <- & _)%elem_of_deliveries.
      apply elem_of_survivors in Hin as [Hin _]. rewrite Hconns in Hin.
      by apply (Hb sid).
    + repeat split; try done. intros s c. rewrite entries_insert.
      destruct (decide (s = sid)) as [->|Hne]; [|apply Hb].
      intros [Hin _]%elem_of_survivors. rewrite Hconns in Hin. by apply (Hb sid).
Qed.

Lemma never_bound_step e w :
  (∀ message, e = Message h message →
     ∃ j m, message = JSONValue j ∧ parse wsMessageSchema j = ParseOk (VideoSync m)) →
  never_bound h w → never_bound h (step e w).
Proof.
  intros He Hnb. destruct e as [ws message|k db_ok|ws|ws].
  - destruct (decide (ws = h)) as [->|Hne].
    + destruct (He message eq_refl) as (j & m & -> & H).
      rewrite (step_videoSync _ _ _ _ H). cbv zeta.
      apply never_bound_register, never_bound_deliver.
      * apply deliveries_registered. apply Hnb.
      * by apply never_bound_assign_sessionId.
    + destruct message as [|j]; [done|].
      destruct (parse wsMessageSchema j) as [[m|m|m]|errors] eqn:H.
      * rewrite (step_videoSync _ _ _ _ H). cbv zeta.
        apply never_bound_register, never_bound_deliver.
        -- apply deliveries_registered. apply Hnb.
        -- by apply never_bound_assign_sessionId.
      * rewrite (step_chat _ _ _ _ H). apply never_bound_set_pending.
        -- intros d [Hd|Hd]%elem_of_app; [by apply Hnb|].
           by apply list_elem_of_singleton in Hd as ->.
        -- by apply never_bound_assign_userId, never_bound_assign_sessionId.
      * rewrite (step_sessionUpdate _ _ _ _ H). cbv zeta.
        apply never_bound_register, never_bound_deliver.
        -- apply deliveries_registered. apply Hnb.
        -- by apply never_bound_assign_sessionId.
      * rewrite (step_invalid _ _ _ _ H), send_deliver. apply never_bound_deliver; [|done].
        intros d Hd. by apply list_elem_of_singleton in Hd as ->.
  - assert (Hq : ∀ d, d ∈ delete k (pending w) → fst d ≠ h).
    { intros d Hd. apply Hnb. by apply list_elem_of_delete_inv in Hd. }
    destruct (pending w !! k) as [[ws m]|] eqn:Hk; [destruct db_ok|].
    + rewrite (step_settle_ok _ _ _ _ Hk). cbv zeta.
      apply never_bound_register, never_bound_deliver.
      * destruct (var_sessionId _) as [sid|]; cbn [from_option].
        -- apply (deliveries_registered w). apply Hnb.
        -- intros d Hd. by apply elem_of_nil in Hd.
      * by apply never_bound_set_pending.
    + rewrite (step_settle_failed _ _ _ _ Hk). by apply never_bound_set_pending.
    + by rewrite (step_settle_none _ _ _ Hk).
  - by apply never_bound_set_readyState.
  - by apply never_bound_on_close, never_bound_set_readyState.
Qed.

Lemma never_bound_run events w :
  only_videoSync h events → never_bound h w → never_bound h (run events w).
Proof.
  revert w. induction events as [|e events IH]; intros w Hev Hnb; [done|].
  cbn. apply IH.
  - intros message Hin. apply Hev. by apply list_elem_of_further.
  - apply never_bound_step; [|done]. intros message ->. apply Hev, list_elem_of_here.
Qed.
End NeverBound.

Lemma vars_on_close ws w : vars (on_close ws w) = vars w.
Proof.
  destruct (on_close_cases ws w) as [->|(sid & uid & Hs & Hu & Hs0 & Hu0)]; [done|].
  destruct (sessionConnections w !! sid) as [conns|] eqn:Hl;
    [|by rewrite (on_close_absent _ _ _ Hs Hl)].
  rewrite (on_close_bound _ _ _ _ _ Hs Hu Hs0 Hu0 Hl).
  by destruct (length _ =? 0)%nat.
Qed.

Lemma var_userId_assign_sessionId ws' sid w ws :
  var_userId (vars_of (assign_sessionId ws' sid w) ws) = var_userId (vars_of w ws).
Proof.
  destruct (decide (ws' = ws)) as [->|Hne].
  - by rewrite vars_of_assign_sessionId.
  - by rewrite vars_of_assign_sessionId_ne.
Qed.

(** The [userId] variable of a connection is assigned by that connection's
    valid chat frames only. *)
Lemma userId_assigned_by_chat ws w e :
  var_userId (vars_of (step e w) ws) ≠ var_userId (vars_of w ws) →
  ∃ j m, e = Message ws (JSONValue j) ∧ parse wsMessageSchema j = ParseOk (Chat m).
Proof.
  intros Hch. destruct e as [ws' [|j]|k db_ok|ws'|ws'].
  - done.
  - destruct (parse wsMessageSchema j) as [[m|m|m]|errors] eqn:H.
    + rewrite (step_videoSync _ _ _ _ H) in Hch. cbv zeta in Hch.
      rewrite vars_of_register_connection, vars_of_deliver in Hch.
      by rewrite var_userId_assign_sessionId in Hch.
    + destruct (decide (ws' = ws)) as [->|Hne]; [by exists j, m|].
      rewrite (step_chat _ _ _ _ H) in Hch. destruct Hch.
      change (vars_of (set_pending ?q ?w') ws) with (vars_of w' ws). unfold bound.
      by rewrite vars_of_assign_userId_ne, var_userId_assign_sessionId.
    + rewrite (step_sessionUpdate _ _ _ _ H) in Hch. cbv zeta in Hch.
      rewrite vars_of_register_connection, vars_of_deliver in Hch.
      by rewrite var_userId_assign_sessionId in Hch.
    + by rewrite (step_invalid _ _ _ _ H) in Hch.
  - destruct (pending w !! k) as [[ws1 m]|] eqn:Hk; [destruct db_ok|].
    + rewrite (step_settle_ok _ _ _ _ Hk) in Hch. cbv zeta in Hch.
      by rewrite vars_of_register_connection in Hch.
    + by rewrite (step_settle_failed _ _ _ _ Hk) in Hch.
    + by rewrite (step_settle_none _ _ _ Hk) in Hch.
  - done.
  - destruct Hch. cbn [step]. unfold vars_of. by rewrite vars_on_close.
Qed.

(** C10: a connection whose frames so far were all valid videoSync frames
    has no [userId], has no entry in any session's list, and no frame was
    ever sent to it; a videoSync message has no [userId] field, and the
    [userId] variable of a connection changes only at a valid chat frame of
    that connection. *)
Theorem videoSync_only_connection_not_registered (h : Handle) (events : list Event) :
  only_videoSync h events →
  var_userId (vars_of (run events init) h) = None
  ∧ (∀ s c, c ∈ entries (run events init) s → socket c ≠ h)
  ∧ (∀ d, d ∈ sent (run events init) → fst d ≠ h)
  ∧ (∀ w e, var_userId (vars_of (step e w) h) ≠ var_userId (vars_of w h) →
       ∃ j m, e = Message h (JSONValue j) ∧ parse wsMessageSchema j = ParseOk (Chat m)).
Proof.
  intros Hev.
  destruct (never_bound_run h events init Hev (never_bound_init h)) as (Ha & Hb & Hc & _).
  repeat split; try done. intros w e. apply userId_assigned_by_chat.
Qed.

Lemma videoSync_only_connection_not_registered_witness :
  only_videoSync 3
    (join 1 42 1 ++ join 2 42 2
     ++ [Message 3 (JSONValue (sync_frame 42));
         Message 1 (JSONValue (chat_frame 42 1 "hello")); Settle 0 true;
         Message 2 (JSONValue (sync_frame 42)); Close 2])
  ∧ ∀ d, d ∈ sent (run (join 1 42 1 ++ join 2 42 2
                        ++ [Message 3 (JSONValue (sync_frame 42));
                            Message 1 (JSONValue (chat_frame 42 1 "hello")); Settle 0 true;
                            Message 2 (JSONValue (sync_frame 42)); Close 2]) init) →
         fst d ≠ 3%nat.
Proof.
  assert (Hev : only_videoSync 3
            (join 1 42 1 ++ join 2 42 2
             ++ [Message 3 (JSONValue (sync_frame 42));
                 Message 1 (JSONValue (chat_frame 42 1 "hello")); Settle 0 true;
                 Message 2 (JSONValue (sync_frame 42)); Close 2])).
  { intros message Hin. apply list_elem_of_In in Hin. cbn in Hin.
    repeat (destruct Hin as [Hin|Hin]; [try discriminate Hin|]); [|done].
    injection Hin as <-. eexists _, _. split; reflexivity. }
  split; [exact Hev|].
  apply (videoSync_only_connection_not_registered 3%nat _ Hev).
Defined.

(** ** Chat frames whose storage call settles later *)

(** When the promise of a chat handler resolves, the frame goes to the
    session that the connection's [sessionId] variable names at that moment. *)
Lemma sent_settle_ok k ws m w :
  pending w !! k = Some (ws, m) →
  sent (step (Settle k true) w)
  = sent w ++ deliveries w (fun _ => true) (ChatMessage_toJSON m)
                (from_option (entries w) [] (var_sessionId (vars_of w ws))).
Proof.
  intros Hk. rewrite (step_settle_ok _ _ _ _ Hk). cbv zeta.
  by rewrite sent_register_connection.
Qed.

Lemma sent_settle_failed k ws m w :
  pending w !! k = Some (ws, m) →
  sent (step (Settle k false) w) = sent w
  ∧ sessionConnections (step (Settle k false) w) = sessionConnections w.
Proof. intros Hk. by rewrite (step_settle_failed _ _ _ _ Hk). Qed.

(** The [sessionId] variable of a connection changes only at a valid frame
    of that connection, to the [sessionId] of the frame. *)
Lemma var_sessionId_step e w ws s :
  var_sessionId (vars_of w ws) = Some s →
  (∀ j m, e = Message ws (JSONValue j) → parse wsMessageSchema j = ParseOk m →
          WsMessage_sessionId m = s) →
  var_sessionId (vars_of (step e w) ws) = Some s.
Proof.
  intros Hs He. destruct e as [ws' [|j]|k db_ok|ws'|ws'].
  - done.
  - destruct (parse wsMessageSchema j) as [[m|m|m]|errors] eqn:H.
    + rewrite (step_videoSync _ _ _ _ H). cbv zeta.
      rewrite vars_of_register_connection, vars_of_deliver.
      destruct (decide (ws' = ws)) as [->|Hne].
      * rewrite vars_of_assign_sessionId. cbn. f_equal.
        apply (He j (VideoSync m) eq_refl H).
      * by rewrite vars_of_assign_sessionId_ne.
    + rewrite (step_chat _ _ _ _ H).
      change (vars_of (set_pending ?q ?w') ws) with (vars_of w' ws).
      destruct (decide (ws' = ws)) as [->|Hne].
      * rewrite vars_of_bound. cbn. f_equal. apply (He j (Chat m) eq_refl H).
      * unfold bound. by rewrite vars_of_assign_userId_ne, vars_of_assign_sessionId_ne.
    + rewrite (step_sessionUpdate _ _ _ _ H). cbv zeta.
      rewrite vars_of_register_connection, vars_of_deliver.
      destruct (decide (ws' = ws)) as [->|Hne].
      * rewrite vars_of_assign_sessionId. cbn. f_equal.
        apply (He j (SessionUpdate m) eq_refl H).
      * by rewrite vars_of_assign_sessionId_ne.
    + by rewrite (step_invalid _ _ _ _ H).
  - destruct (pending w !! k) as [[ws1 m]|] eqn:Hk; [destruct db_ok|].
    + rewrite (step_settle_ok _ _ _ _ Hk). cbv zeta.
      by rewrite vars_of_register_connection.
    + by rewrite (step_settle_failed _ _ _ _ Hk).
    + by rewrite (step_settle_none _ _ _ Hk).
  - done.
  - cbn [step]. unfold vars_of in *. by rewrite vars_on_close.
Qed.

Lemma var_sessionId_run events w ws s :
  var_sessionId (vars_of w ws) = Some s →
  (∀ j m, Message ws (JSONValue j) ∈ events → parse wsMessageSchema j = ParseOk m →
          WsMessage_sessionId m = s) →
  var_sessionId (vars_of (run events w) ws) = Some s.
Proof.
  revert w. induction events as [|e events IH]; intros w Hs Hev; [done|].
  cbn [run foldl]. apply (IH (step e w)).
  - apply var_sessionId_step; [done|]. intros j m ->. apply Hev, list_elem_of_here.
  - intros j m Hin. apply Hev. by apply list_elem_of_further.
Qed.

Lemma run_app (a b : list Event) (w : World) : run (a ++ b) w = run b (run a w).
Proof. unfold run. apply foldl_app. Qed.

(** A valid frame of a connection sets its [sessionId] variable to the
    [sessionId] of the frame. *)
Lemma var_sessionId_valid_frame ws j m w :
  parse wsMessageSchema j = ParseOk m →
  var_sessionId (vars_of (step (Message ws (JSONValue j)) w) ws)
  = Some (WsMessage_sessionId m).
Proof.
  intros H. destruct m as [m|m|m]; cbn [WsMessage_sessionId].
  - rewrite (step_videoSync _ _ _ _ H). cbv zeta.
    by rewrite vars_of_register_connection, vars_of_deliver, vars_of_assign_sessionId.
  - rewrite (step_chat _ _ _ _ H).
    change (vars_of (set_pending ?q ?w') ws) with (vars_of w' ws).
    by rewrite vars_of_bound.
  - rewrite (step_sessionUpdate _ _ _ _ H). cbv zeta.
    by rewrite vars_of_register_connection, vars_of_deliver, vars_of_assign_sessionId.
Qed.

(** C1, amended: a valid chat frame binds the connection to the frame's
    [sessionId] and [userId] and suspends the handler at the storage write;
    nothing is sent yet and the table is unchanged. When the write succeeds
    (whatever other callbacks ran in between), the validated message (the
    six fields of the schema and no others) is serialised and sent once to
    each entry that is registered at that moment in the session that the
    connection's [sessionId] variable names at that moment, and whose socket
    is open, the sender's own entry included; that session is the one named
    by the last valid frame of the connection that was handled before the
    settlement: the chat frame itself, unless a valid frame of the same
    connection for another session was handled in between. When the write
    fails, nothing is sent and the table is unchanged. *)
Theorem chat_fanout (ws : Handle) (j : json) (m : ChatMessage) (w : World)
    (between : list Event) (k : nat) :
  parse wsMessageSchema j = ParseOk (Chat m) →
  let w1 := step (Message ws (JSONValue j)) w in
  let w2 := run between w1 in
  pending w2 !! k = Some (ws, m) →
  let payload :=
    JObject [("type", JString "chat");
             ("sessionId", JNumber (chat_sessionId m));
             ("userId", JNumber (chat_userId m));
             ("username", JString (chat_username m));
             ("message", JString (chat_message m));
             ("timestamp", JNumber (chat_timestamp m))] in
  let target := from_option (entries w2) [] (var_sessionId (vars_of w2 ws)) in
  (sent w1 = sent w
   ∧ sessionConnections w1 = sessionConnections w
   ∧ pending w1 = pending w ++ [(ws, m)]
   ∧ vars_of w1 ws = {| var_userId := Some (chat_userId m);
                        var_sessionId := Some (chat_sessionId m) |})
  ∧ sent (step (Settle k true) w2)
    = sent w2 ++ map (fun c => (socket c, Relay payload))
                   (List.filter (fun c => isOpen w2 (socket c)) target)
  ∧ (∀ c, c ∈ target → isOpen w2 (socket c) = true →
       (socket c, Relay payload) ∈ sent_during w2 (step (Settle k true) w2))
  ∧ ({| userId := chat_userId m; socket := ws |} ∈ target → isOpen w2 ws = true →
       (ws, Relay payload) ∈ sent_during w2 (step (Settle k true) w2))
  ∧ ((∀ j' m', Message ws (JSONValue j') ∈ between →
               parse wsMessageSchema j' = ParseOk m' →
               WsMessage_sessionId m' = chat_sessionId m) →
     target = entries w2 (chat_sessionId m))
  ∧ (∀ before j' m' after,
       between = before ++ Message ws (JSONValue j') :: after →
       parse wsMessageSchema j' = ParseOk m' →
       (∀ j'' m'', Message ws (JSONValue j'') ∈ after →
                   parse wsMessageSchema j'' = ParseOk m'' →
                   WsMessage_sessionId m'' = WsMessage_sessionId m') →
       target = entries w2 (WsMessage_sessionId m'))
  ∧ sent (step (Settle k false) w2) = sent w2
  ∧ sessionConnections (step (Settle k false) w2) = sessionConnections w2.
Proof.
  intros H w1 w2 Hk payload target.
  assert (Hw1 : w1 = set_pending (pending w ++ [(ws, m)]) (bound ws m w)).
  { subst w1. apply (step_chat _ _ _ _ H). }
  assert (Hv1 : vars_of w1 ws = {| var_userId := Some (chat_userId m);
                                   var_sessionId := Some (chat_sessionId m) |}).
  { rewrite Hw1. change (vars_of (set_pending ?q ?w') ws) with (vars_of w' ws).
    apply vars_of_bound. }
  assert (Hs : sent (step (Settle k true) w2)
               = sent w2 ++ deliveries w2 (fun _ => true) payload target).
  { apply (sent_settle_ok _ _ _ _ Hk). }
  assert (Hin : ∀ c, c ∈ target → isOpen w2 (socket c) = true →
                     (socket c, Relay payload) ∈ sent_during w2 (step (Settle k true) w2)).
  { intros c Hc Ho. rewrite (sent_during_deliver _ _ _ Hs), elem_of_deliveries.
    split; [done|]. by exists c. }
  split; [|split; [exact Hs|split; [exact Hin|split; [|split; [|split]]]]].
  - split; [by rewrite Hw1|]. split; [by rewrite Hw1|]. split; [by rewrite Hw1|done].
  - intros Hc Ho. by apply (Hin _ Hc).
  - intros Hsame.
    assert (Hv : var_sessionId (vars_of w2 ws) = Some (chat_sessionId m)).
    { apply var_sessionId_run; [by rewrite Hv1|done]. }
    subst target. by rewrite Hv.
  - intros before j' m' after Hb H' Hafter.
    assert (Hv : var_sessionId (vars_of w2 ws) = Some (WsMessage_sessionId m')).
    { subst w2. rewrite Hb, run_app. cbn [run foldl].
      change (foldl (fun w e => step e w) ?x after) with (run after x).
      apply var_sessionId_run; [|done]. by apply var_sessionId_valid_frame. }
    subst target. by rewrite Hv.
  - apply (sent_settle_failed _ _ _ _ Hk).
Qed.

Lemma chat_fanout_witness :
  sent (step (Settle 0 true)
          (run [Message 2 (JSONValue (sync_frame 42)); Closing 3]
             (step (Message 1 (JSONValue (chat_frame 42 1 "hello")))
                (run (join 1 42 1 ++ join 2 42 2 ++ join 3 42 3) init))))
  = sent (run [Message 2 (JSONValue (sync_frame 42)); Closing 3]
            (step (Message 1 (JSONValue (chat_frame 42 1 "hello")))
               (run (join 1 42 1 ++ join 2 42 2 ++ join 3 42 3) init)))
    ++ [(1%nat, Relay (JObject [("type", JString "chat"); ("sessionId", JNumber 42);
                                ("userId", JNumber 1); ("username", JString "ann");
                                ("message", JString "hello"); ("timestamp", JNumber 7)]));
        (2%nat, Relay (JObject [("type", JString "chat"); ("sessionId", JNumber 42);
                                ("userId", JNumber 1); ("username", JString "ann");
                                ("message", JString "hello"); ("timestamp", JNumber 7)]))].
Proof.
  apply (chat_fanout 1%nat (chat_frame 42 1 "hello")
           {| chat_sessionId := 42; chat_userId := 1; chat_username := "ann";
              chat_message := "hello"; chat_timestamp := 7 |}
           (run (join 1 42 1 ++ join 2 42 2 ++ join 3 42 3) init)
           [Message 2 (JSONValue (sync_frame 42)); Closing 3] 0 eq_refl eq_refl).
Defined.

(** ** The scenario of the specification

    Users 1 and 2 join session 42 (each by a first chat frame); user 1 sends
    a videoSync frame, which reaches user 2 only; user 2 disconnects and
    user 1 is told that it is the only participant left. *)
Example two_users_scenario :
  let w := run (join 1 42 1 ++ join 2 42 2) init in
  let w1 := run [Message 1 (JSONValue (sync_frame 42))] w in
  let w2 := run [Close 2] w1 in
  entries w 42 = [ {| userId := 1; socket := 1 |}; {| userId := 2; socket := 2 |} ]
  ∧ sent_during w w1 = [(2%nat, Relay (sync_frame 42))]
  ∧ entries w2 42 = [ {| userId := 1; socket := 1 |} ]
  ∧ sent_during w1 w2
    = [(1%nat, Relay (roster 42 [ {| userId := 1; socket := 1 |} ]))].
Proof. by vm_compute. Qed.

(** The registration comes after the fan-out: the first chat frame of a
    connection is not echoed to it, the later ones are. *)
Example first_chat_not_echoed :
  sent (run (join 1 42 1) init) = []
  ∧ sent (run (join 1 42 1 ++ join 1 42 1) init) = [(1%nat, Relay (chat_frame 42 1 "hi"))].
Proof. by vm_compute. Qed.

(** * Further properties of the schemas *)

Lemma has_issue_issue {A} c p : has_issue (@issue A c p).
Proof. done. Qed.

Lemma has_issue_map_parse {A B} (g : A → B) r : has_issue r → has_issue (map_parse g r).
Proof. by destruct r. Qed.

Lemma has_issue_and_field {A B} (f : SafeParse (A → B)) x :
  has_issue f → has_issue x → has_issue (f <&> x).
Proof.
  destruct f as [g|[|i e1]], x as [a|[|i' e2]]; cbn; done.
Qed.

Lemma has_issue_z_number p input : has_issue (z_number p input).
Proof. by destruct input as [[]|]. Qed.

Lemma has_issue_z_string p input : has_issue (z_string p input).
Proof. by destruct input as [[]|]. Qed.

Lemma has_issue_z_literal v p input : has_issue (z_literal v p input).
Proof. destruct input as [[| | |s| |]|]; try done. cbn. by destruct (String.eqb s v). Qed.

Lemma has_issue_z_enum_action p input : has_issue (z_enum_action p input).
Proof.
  destruct input as [[| | |s| |]|]; try done. cbn.
  by repeat (destruct (String.eqb s _)).
Qed.

Lemma has_issue_z_optional {A} (inner : Schema A) p input :
  (∀ p input, has_issue (inner p input)) → has_issue (z_optional inner p input).
Proof. intros H. destruct input; [|done]. apply has_issue_map_parse, H. Qed.

Lemma has_issue_participantSchema p input : has_issue (participantSchema p input).
Proof.
  destruct input as [[| | | | |o]|]; try done. unfold participantSchema.
  repeat apply has_issue_and_field; try done.
  - apply has_issue_z_number.
  - apply has_issue_z_string.
Qed.

Lemma has_issue_parse_items {A} (element : Schema A) p i items :
  (∀ p input, has_issue (element p input)) → has_issue (parse_items element p i items).
Proof.
  intros H. revert i. induction items as [|item items IH]; intros i; [done|].
  cbn [parse_items]. apply has_issue_and_field; [apply has_issue_and_field|].
  - done.
  - apply H.
  - apply IH.
Qed.

Lemma has_issue_wsMessageSchema p input : has_issue (wsMessageSchema p input).
Proof.
  destruct input as [[| | | | |o]|]; try done. unfold wsMessageSchema.
  destruct (get "type" o) as [[| | |t| |]|]; try done.
  destruct (String.eqb t "videoSync"); [|destruct (String.eqb t "chat");
    [|destruct (String.eqb t "sessionUpdate"); [|done]]];
    apply has_issue_map_parse; cbn beta iota;
    repeat apply has_issue_and_field; try done;
    auto using has_issue_z_literal, has_issue_z_number, has_issue_z_string,
      has_issue_z_enum_action.
  - apply has_issue_z_optional, has_issue_z_number.
  - apply has_issue_z_optional, has_issue_z_number.
  - unfold z_array. destruct (get "participants" o) as [[| | | |items|]|]; try done.
    apply has_issue_parse_items, has_issue_participantSchema.
Qed.

Lemma parse_error_nonempty (j : json) (errors : list ZodIssue) :
  parse wsMessageSchema j = ParseError errors → errors ≠ [].
Proof.
  intros H ->. pose proof (has_issue_wsMessageSchema [] (Some j)) as Hi.
  unfold parse in H. by rewrite H in Hi.
Qed.

(** X1: Every rejection names at least one issue: the [details] of an error
    frame are never empty. *)
Theorem rejection_has_details (j : json) (errors : list ZodIssue) :
  parse wsMessageSchema j = ParseError errors → errors ≠ [].
Proof. apply parse_error_nonempty. Qed.

Lemma rejection_has_details_witness :
  parse wsMessageSchema (JArray [])
    = ParseError [ {| code := invalid_type; path := [] |} ]
  ∧ [ {| code := invalid_type; path := [] |} ] ≠ [].
Proof.
  split; [reflexivity|].
  apply (rejection_has_details (JArray []) _ eq_refl).
Defined.

Lemma WsMessage_reparse (m : WsMessage) :
  parse wsMessageSchema (WsMessage_toJSON m) = ParseOk m.
Proof.
  destruct m as [v|c|u]; unfold parse, wsMessageSchema.
  - pose proof (videoSync_reparse v) as H. unfold parse in H.
    cbn [WsMessage_toJSON]. unfold VideoSyncMessage_toJSON at 1.
    cbn [get app String.eqb Ascii.eqb Bool.eqb]. cbn match. by rewrite H.
  - pose proof (chat_reparse c) as H. unfold parse in H.
    cbn [WsMessage_toJSON]. unfold ChatMessage_toJSON at 1.
    cbn [get app String.eqb Ascii.eqb Bool.eqb]. cbn match. by rewrite H.
  - pose proof (sessionUpdate_reparse u) as H. unfold parse in H.
    cbn [WsMessage_toJSON]. unfold SessionUpdateMessage_toJSON at 1.
    cbn [get app String.eqb Ascii.eqb Bool.eqb]. cbn match. by rewrite H.
Qed.

(** X2: Every message has a wire form that the schema accepts and reads back as
    the same message. *)
Theorem wire_form_round_trip (m : WsMessage) :
  parse wsMessageSchema (WsMessage_toJSON m) = ParseOk m.
Proof. apply WsMessage_reparse. Qed.

Lemma get_extra key k v (o1 o2 : list (string * json)) :
  k ≠ key → get key (o1 ++ (k, v) :: o2) = get key (o1 ++ o2).
Proof.
  intros Hne. induction o1 as [|[k1 v1] o1 IH]; cbn.
  - by apply String.eqb_neq in Hne as ->.
  - by rewrite IH.
Qed.

(** X3: A key that no shape names is ignored wherever it stands in the object:
    the frame is accepted or rejected, and read, as if the key were not
    there. *)
Theorem unknown_key_ignored (k : string) (v : json) (o1 o2 : list (string * json)) :
  k ∉ shape_keys →
  parse wsMessageSchema (JObject (o1 ++ (k, v) :: o2))
  = parse wsMessageSchema (JObject (o1 ++ o2)).
Proof.
  intros Hk.
  assert (E : ∀ key, key ∈ shape_keys →
            get key (o1 ++ (k, v) :: o2) = get key (o1 ++ o2)).
  { intros key Hin. apply get_extra. by intros ->. }
  unfold parse, wsMessageSchema, videoSyncMessageSchema, chatMessageSchema,
    sessionUpdateSchema.
  rewrite !E; first done;
    unfold shape_keys; repeat first [apply list_elem_of_here | apply list_elem_of_further].
Qed.

Lemma unknown_key_ignored_witness :
  parse wsMessageSchema
    (JObject [("type", JString "videoSync"); ("admin", JBool true);
              ("sessionId", JNumber 42); ("action", JString "play")])
  = parse wsMessageSchema (sync_frame 42).
Proof.
  apply (unknown_key_ignored "admin" (JBool true) [("type", JString "videoSync")]
           [("sessionId", JNumber 42); ("action", JString "play")]).
  intros Hin. apply list_elem_of_In in Hin. vm_compute in Hin.
  repeat (destruct Hin as [Hin|Hin]; [discriminate Hin|]). exact Hin.
Defined.

(** X4: An accepted frame is an object whose [type] is the discriminator of the
    variant it was read as. *)
Theorem accepted_frame_has_its_type (j : json) (m : WsMessage) :
  parse wsMessageSchema j = ParseOk m →
  ∃ o, j = JObject o ∧ get "type" o = Some (JString (WsMessage_type m)).
Proof.
  unfold parse, wsMessageSchema. destruct j as [| | | | |o]; try done.
  destruct (get "type" o) as [[| | |t| |]|] eqn:Ht; try done.
  destruct (String.eqb t "videoSync") eqn:E1;
    [|destruct (String.eqb t "chat") eqn:E2;
      [|destruct (String.eqb t "sessionUpdate") eqn:E3; [|done]]].
  - apply String.eqb_eq in E1 as ->.
    destruct (videoSyncMessageSchema _ _); [|done]. intros [= <-]. by exists o.
  - apply String.eqb_eq in E2 as ->.
    destruct (chatMessageSchema _ _); [|done]. intros [= <-]. by exists o.
  - apply String.eqb_eq in E3 as ->.
    destruct (sessionUpdateSchema _ _); [|done]. intros [= <-]. by exists o.
Qed.

Lemma accepted_frame_has_its_type_witness :
  ∃ o, chat_frame 42 1 "hi" = JObject o ∧ get "type" o = Some (JString "chat").
Proof.
  apply (accepted_frame_has_its_type (chat_frame 42 1 "hi")
           (Chat {| chat_sessionId := 42; chat_userId := 1; chat_username := "ann";
                    chat_message := "hi"; chat_timestamp := 7 |}) eq_refl).
Defined.

(** X5: An object whose [type] is missing, is not a string, or is none of the
    three discriminators is rejected with the single issue
    [invalid_union_discriminator] at path [type], whatever else it holds. *)
Theorem unknown_type_rejected (o : list (string * json)) :
  (∀ m, get "type" o ≠ Some (JString (WsMessage_type m))) →
  parse wsMessageSchema (JObject o)
  = ParseError [ {| code := invalid_union_discriminator; path := [PKey "type"] |} ].
Proof.
  intros H. unfold parse, wsMessageSchema.
  destruct (get "type" o) as [[| | |t| |]|] eqn:Ht; try done.
  destruct (String.eqb t "videoSync") eqn:E1;
    [|destruct (String.eqb t "chat") eqn:E2;
      [|destruct (String.eqb t "sessionUpdate") eqn:E3; [|done]]].
  - apply String.eqb_eq in E1 as ->.
    by destruct (H (VideoSync (Build_VideoSyncMessage 0 play None None))).
  - apply String.eqb_eq in E2 as ->.
    by destruct (H (Chat (Build_ChatMessage 0 0 "" "" 0))).
  - apply String.eqb_eq in E3 as ->.
    by destruct (H (SessionUpdate (Build_SessionUpdateMessage 0 []))).
Qed.

Lemma unknown_type_rejected_witness :
  parse wsMessageSchema
    (JObject [("type", JString "error"); ("message", JString "Invalid message format")])
  = ParseError [ {| code := invalid_union_discriminator; path := [PKey "type"] |} ].
Proof.
  apply (unknown_type_rejected
           [("type", JString "error"); ("message", JString "Invalid message format")]).
  intros [v|c|u]; discriminate.
Defined.

(** * Further properties of the relay *)

(** ** What one event sends *)

Lemma readyState_register_connection ws w :
  readyState (register_connection ws w) = readyState w.
Proof.
  destruct (register_connection_cases ws w) as [->|(? & ? & _ & _ & _ & _ & _ & ->)]; done.
Qed.

Lemma deliveries_ext w1 w2 cond payload conns :
  readyState w1 = readyState w2 →
  deliveries w1 cond payload conns = deliveries w2 cond payload conns.
Proof.
  intros E. unfold deliveries. f_equal. apply filter_ext. intros c.
  by rewrite (isOpen_ext w1 w2 _ E).
Qed.

(** The [send] calls of one event: none, one error reply to the sender of a
    frame that failed the schema, or one loop over registered entries with
    the wire form of a message. *)
Lemma step_sent_cases e w :
  ∃ ds, sent (step e w) = sent w ++ ds
    ∧ (ds = []
       ∨ (∃ ws j errors,
            e = Message ws (JSONValue j) ∧ parse wsMessageSchema j = ParseError errors
            ∧ ds = [(ws, ErrorFrame "Invalid message format" errors)])
       ∨ (∃ cond m conns,
            ds = deliveries (step e w) cond (WsMessage_toJSON m) conns
            ∧ ∀ c, c ∈ conns → ∃ s, c ∈ entries w s)).
Proof.
  assert (Hreg : ∀ ws w1 cond m conns,
            sent w1 = sent w → readyState w1 = readyState w →
            (∀ c, c ∈ conns → ∃ s, c ∈ entries w s) →
            ∀ w', w' = register_connection ws
                         (deliver (deliveries w1 cond (WsMessage_toJSON m) conns) w1) →
            ∃ ds, sent w' = sent w ++ ds
              ∧ (ds = []
                 ∨ (∃ ws j errors,
                      e = Message ws (JSONValue j)
                      ∧ parse wsMessageSchema j = ParseError errors
                      ∧ ds = [(ws, ErrorFrame "Invalid message format" errors)])
                 ∨ (∃ cond m conns,
                      ds = deliveries w' cond (WsMessage_toJSON m) conns
                      ∧ ∀ c, c ∈ conns → ∃ s, c ∈ entries w s))).
  { intros ws w1 cond m conns Es Er Hconns w' ->.
    exists (deliveries w1 cond (WsMessage_toJSON m) conns). split.
    - rewrite sent_register_connection. cbn. by rewrite Es.
    - right; right. exists cond, m, conns. split; [|done].
      apply deliveries_ext. by rewrite readyState_register_connection. }
  destruct e as [ws [|j]|k db_ok|ws|ws].
  - exists []. split; [by rewrite app_nil_r|by left].
  - destruct (parse wsMessageSchema j) as [[m|m|m]|errors] eqn:H.
    + apply (Hreg ws (assign_sessionId ws (sync_sessionId m) w)
               (fun c => userId_differs c (var_userId (vars_of w ws)))
               (VideoSync m) (entries w (sync_sessionId m))); try done.
      * intros c Hc. by exists (sync_sessionId m).
      * by rewrite (step_videoSync _ _ _ _ H).
    + exists []. split; [|by left]. rewrite (step_chat _ _ _ _ H). cbn.
      by rewrite app_nil_r.
    + apply (Hreg ws (assign_sessionId ws (update_sessionId m) w) (fun _ => true)
               (SessionUpdate m) (entries w (update_sessionId m))); try done.
      * intros c Hc. by exists (update_sessionId m).
      * by rewrite (step_sessionUpdate _ _ _ _ H).
    + exists [(ws, ErrorFrame "Invalid message format" errors)]. split.
      * by rewrite (step_invalid _ _ _ _ H).
      * right; left. by exists ws, j, errors.
  - destruct (pending w !! k) as [[ws m]|] eqn:Hk; [destruct db_ok|].
    + apply (Hreg ws (set_pending (delete k (pending w)) w) (fun _ => true) (Chat m)
               (from_option (entries w) [] (var_sessionId (vars_of w ws)))); try done.
      * intros c Hc. destruct (var_sessionId (vars_of w ws)) as [s|]; cbn in Hc.
        -- by exists s.
        -- by apply elem_of_nil in Hc.
      * by rewrite (step_settle_ok _ _ _ _ Hk).
    + exists []. split; [|by left]. rewrite (step_settle_failed _ _ _ _ Hk). cbn.
      by rewrite app_nil_r.
    + exists []. split; [|by left]. rewrite (step_settle_none _ _ _ Hk).
      by rewrite app_nil_r.
  - exists []. split; [cbn; by rewrite app_nil_r|by left].
  - cbn [step]. set (w0 := set_readyState ws CLOSED w).
    destruct (on_close_cases ws w0) as [E|(sid & uid & Hs & Hu & Hs0 & Hu0)].
    { exists []. split; [rewrite E; cbn; by rewrite app_nil_r|by left]. }
    destruct (sessionConnections w0 !! sid) as [conns|] eqn:Hl.
    2:{ exists []. split; [|by left]. rewrite (on_close_absent _ _ _ Hs Hl). cbn.
        by rewrite app_nil_r. }
    pose proof (on_close_bound _ _ _ _ _ Hs Hu Hs0 Hu0 Hl) as E.
    destruct (length (survivors uid ws conns) =? 0)%nat.
    { exists []. split; [rewrite E; cbn; by rewrite app_nil_r|by left]. }
    exists (deliveries w0 (fun _ => true) (roster sid (survivors uid ws conns))
              (survivors uid ws conns)).
    split; [by rewrite E|]. right; right.
    exists (fun _ => true),
      (SessionUpdate
         {| update_sessionId := sid;
            update_participants :=
              map (fun conn => {| part_userId := userId conn; part_username := "User" |})
                  (survivors uid ws conns) |}),
      (survivors uid ws conns).
    split.
    + apply deliveries_ext. by rewrite readyState_on_close.
    + intros c [Hc _]%elem_of_survivors. exists sid. unfold entries.
      change (sessionConnections w) with (sessionConnections w0). by rewrite Hl.
Qed.

Lemma readyState_step e w :
  readyState (step e w)
  = match e with
    | Closing ws => <[ws := CLOSING]> (readyState w)
    | Close ws => <[ws := CLOSED]> (readyState w)
    | _ => readyState w
    end.
Proof.
  destruct e as [ws [|j]|k db_ok|ws|ws]; try done.
  - destruct (parse wsMessageSchema j) as [[m|m|m]|errors] eqn:H.
    + rewrite (step_videoSync _ _ _ _ H). cbv zeta.
      by rewrite readyState_register_connection.
    + by rewrite (step_chat _ _ _ _ H).
    + rewrite (step_sessionUpdate _ _ _ _ H). cbv zeta.
      by rewrite readyState_register_connection.
    + by rewrite (step_invalid _ _ _ _ H).
  - destruct (pending w !! k) as [[ws m]|] eqn:Hk; [destruct db_ok|].
    + rewrite (step_settle_ok _ _ _ _ Hk). cbv zeta.
      by rewrite readyState_register_connection.
    + by rewrite (step_settle_failed _ _ _ _ Hk).
    + by rewrite (step_settle_none _ _ _ Hk).
  - cbn [step]. by rewrite readyState_on_close.
Qed.

(** A socket that has left the OPEN state does not come back to it. *)
Lemma isOpen_step_false e w h : isOpen w h = false → isOpen (step e w) h = false.
Proof.
  unfold isOpen. rewrite readyState_step. intros H.
  destruct e as [ws msg|k db_ok|ws|ws]; try done.
  - destruct (decide (ws = h)) as [->|Hne].
    + by rewrite lookup_insert_eq.
    + by rewrite lookup_insert_ne.
  - destruct (decide (ws = h)) as [->|Hne].
    + by rewrite lookup_insert_eq.
    + by rewrite lookup_insert_ne.
Qed.

Lemma step_no_relay_to_closed e w h :
  isOpen w h = false →
  ∃ ds, sent (step e w) = sent w ++ ds ∧ ∀ p, (h, Relay p) ∉ ds.
Proof.
  intros Hc. destruct (step_sent_cases e w) as (ds & Es & Hds). exists ds.
  split; [done|]. intros p Hin.
  destruct Hds as [->|[(ws & j & errors & _ & _ & ->)|(cond & m & conns & -> & _)]].
  - by apply elem_of_nil in Hin.
  - by apply list_elem_of_singleton in Hin.
  - apply elem_of_deliveries in Hin as (_ & c & _ & <- & _ & Ho).
    rewrite (isOpen_step_false e w _ Hc) in Ho. done.
Qed.

Lemma run_no_relay_to_closed events w h :
  isOpen w h = false →
  ∃ ds, sent (run events w) = sent w ++ ds ∧ ∀ p, (h, Relay p) ∉ ds.
Proof.
  revert w. induction events as [|e events IH]; intros w Hc.
  - exists []. split; [cbn; by rewrite app_nil_r|]. intros p Hin.
    by apply elem_of_nil in Hin.
  - destruct (step_no_relay_to_closed e w h Hc) as (ds1 & E1 & H1).
    destruct (IH (step e w) (isOpen_step_false e w h Hc)) as (ds2 & E2 & H2).
    exists (ds1 ++ ds2). split.
    + cbn [run foldl]. change (foldl _ (step e w) events) with (run events (step e w)).
      by rewrite E2, E1, app_assoc.
    + intros p [Hin|Hin]%elem_of_app; [by apply (H1 p)|by apply (H2 p)].
Qed.

(** X8: Once a socket has left the OPEN state (its ['close'] event was handled,
    or the transport is closing), no relayed frame is sent to it any more,
    whatever happens afterwards and whether or not it still has entries. *)
Theorem no_relay_after_leaving_open (w : World) (events : list Event) (h : Handle) :
  isOpen w h = false →
  ∀ p, (h, Relay p) ∉ sent_during w (run events w).
Proof.
  intros Hc p. destruct (run_no_relay_to_closed events w h Hc) as (ds & E & Hds).
  rewrite (sent_during_deliver _ _ _ E). apply Hds.
Qed.

Lemma no_relay_after_leaving_open_witness :
  {| userId := 2; socket := 2 |}
    ∈ entries (run (join 1 42 1 ++ join 2 42 2 ++ [Closing 2]) init) 42
  ∧ (2%nat, Relay (sync_frame 42))
      ∉ sent_during (run (join 1 42 1 ++ join 2 42 2 ++ [Closing 2]) init)
          (run [Message 1 (JSONValue (sync_frame 42))]
             (run (join 1 42 1 ++ join 2 42 2 ++ [Closing 2]) init)).
Proof.
  split; [elem_by_evaluation|].
  apply (no_relay_after_leaving_open
           (run (join 1 42 1 ++ join 2 42 2 ++ [Closing 2]) init)
           [Message 1 (JSONValue (sync_frame 42))] 2%nat).
  by_evaluation.
Defined.

(** X9: An error frame is sent only in answer to a frame that parsed as JSON
    and failed the schema, to the socket that sent that frame; its message is
    the fixed text and its details are the issues of that failure, at least
    one. *)
Theorem error_frame_answers_invalid_frame (w : World) (e : Event) (h : Handle)
    (msg : string) (details : list ZodIssue) :
  (h, ErrorFrame msg details) ∈ sent_during w (step e w) →
  msg = "Invalid message format"
  ∧ details ≠ []
  ∧ ∃ j, e = Message h (JSONValue j) ∧ parse wsMessageSchema j = ParseError details.
Proof.
  intros Hin. destruct (step_sent_cases e w) as (ds & Es & Hds).
  rewrite (sent_during_deliver _ _ _ Es) in Hin.
  destruct Hds as [->|[(ws & j & errors & -> & H & ->)|(cond & m & conns & -> & _)]].
  - by apply elem_of_nil in Hin.
  - apply list_elem_of_singleton in Hin. injection Hin as -> -> ->.
    repeat split; try done.
    + by apply (parse_error_nonempty j).
    + by exists j.
  - by apply elem_of_deliveries in Hin as (? & _).
Qed.

Lemma error_frame_answers_invalid_frame_witness :
  ∃ j, Message 1 (JSONValue (JObject [("type", JString "chat")])) = Message 1 (JSONValue j)
       ∧ parse wsMessageSchema j
         = ParseError
             [ {| code := invalid_type; path := [PKey "sessionId"] |};
               {| code := invalid_type; path := [PKey "userId"] |};
               {| code := invalid_type; path := [PKey "username"] |};
               {| code := invalid_type; path := [PKey "message"] |};
               {| code := invalid_type; path := [PKey "timestamp"] |} ].
Proof.
  apply (error_frame_answers_invalid_frame init
           (Message 1 (JSONValue (JObject [("type", JString "chat")]))) 1%nat
           "Invalid message format").
  apply list_elem_of_In. vm_compute. left. reflexivity.
Defined.

(** ** Frames that the claims leave aside *)






(** X14: The ['close'] callback of a bound connection removes from the session it
    is bound to exactly the entries that carry both its [userId] and its
    socket, and leaves the lists of all other sessions as they are. *)
Theorem close_removes_own_entry ws w sid uid :
  var_sessionId (vars_of w ws) = Some sid →
  var_userId (vars_of w ws) = Some uid →
  sid ≠ 0 → uid ≠ 0 →
  (∀ c, (c ∈ entries (on_close ws w) sid)
        ↔ (c ∈ entries w sid ∧ ¬ (userId c = uid ∧ socket c = ws)))
  ∧ ({| userId := uid; socket := ws |} ∉ entries (on_close ws w) sid)
  ∧ (∀ s, s ≠ sid → entries (on_close ws w) s = entries w s).
Proof.
  intros Hs Hu Hs0 Hu0. split; [|split].
  - intros c. rewrite (entries_on_close _ _ _ _ sid Hs Hu Hs0 Hu0).
    rewrite decide_True by done. apply elem_of_survivors.
  - rewrite (entries_on_close _ _ _ _ sid Hs Hu Hs0 Hu0).
    rewrite decide_True by done. rewrite elem_of_survivors. intros [_ Hn].
    by apply Hn.
  - intros s Hne. rewrite (entries_on_close _ _ _ _ s Hs Hu Hs0 Hu0).
    by rewrite decide_False.
Qed.

Lemma close_removes_own_entry_witness :
  ({| userId := 2; socket := 2 |}
     ∉ entries (on_close 2 (run (join 1 42 1 ++ join 2 42 2 ++ join 3 43 3) init)) 42)
  ∧ entries (on_close 2 (run (join 1 42 1 ++ join 2 42 2 ++ join 3 43 3) init)) 43
    = entries (run (join 1 42 1 ++ join 2 42 2 ++ join 3 43 3) init) 43.
Proof.
  assert (Hs : var_sessionId
                 (vars_of (run (join 1 42 1 ++ join 2 42 2 ++ join 3 43 3) init) 2)
               = Some 42) by by_evaluation.
  assert (Hu : var_userId
                 (vars_of (run (join 1 42 1 ++ join 2 42 2 ++ join 3 43 3) init) 2)
               = Some 2) by by_evaluation.
  assert (Hs0 : 42 ≠ 0) by discriminate.
  assert (Hu0 : 2 ≠ 0) by discriminate.
  destruct (close_removes_own_entry 2%nat _ 42 2 Hs Hu Hs0 Hu0) as (_ & Hgone & Hother).
  split; [exact Hgone|]. apply Hother. discriminate.
Defined.

Lemma register_postcondition ws w u s :
  var_userId (vars_of w ws) = Some u → var_sessionId (vars_of w ws) = Some s →
  u ≠ 0 → s ≠ 0 →
  ∃ c, c ∈ entries (register_connection ws w) s ∧ userId c = u.
Proof.
  intros Hu Hs Hu0 Hs0.
  destruct (existsb (fun conn => userId conn =? u) (entries w s)) eqn:E.
  - apply existsb_exists in E as (c & Hc & Hcu). apply Z.eqb_eq in Hcu.
    apply list_elem_of_In in Hc. exists c. split; [|done].
    by rewrite (register_existing _ _ u s c).
  - exists {| userId := u; socket := ws |}. split; [|done].
    rewrite (register_new _ _ u s); try done.
    + rewrite entries_insert, decide_True by done. apply elem_of_app. right.
      apply list_elem_of_here.
    + intros c Hc Hcu.
      assert (existsb (fun conn => userId conn =? u) (entries w s) = true) as E'.
      { apply existsb_exists. exists c. split; [by apply list_elem_of_In|].
        by apply Z.eqb_eq. }
      congruence.
Qed.

(** X15: Whenever the registration block has run for a socket (after a valid
    videoSync or sessionUpdate frame, or after the successful write of a chat
    frame) and the socket's [userId] and [sessionId] are non-zero, the
    session that [sessionId] names holds an entry with that [userId]: the
    socket's own, or an older one of the same user. *)
Theorem registered_after_valid_frame (e : Event) (w : World) (ws : Handle) (u s : Z) :
  registers e w ws →
  var_userId (vars_of (step e w) ws) = Some u →
  var_sessionId (vars_of (step e w) ws) = Some s →
  u ≠ 0 → s ≠ 0 →
  ∃ c, c ∈ entries (step e w) s ∧ userId c = u.
Proof.
  assert (Hreg : ∀ w1 w', w' = register_connection ws w1 →
            var_userId (vars_of w' ws) = Some u → var_sessionId (vars_of w' ws) = Some s →
            u ≠ 0 → s ≠ 0 → ∃ c, c ∈ entries w' s ∧ userId c = u).
  { intros w1 w' -> Hu Hs Hu0 Hs0. rewrite vars_of_register_connection in Hu, Hs.
    by apply register_postcondition. }
  intros Hr. destruct e as [ws' [|j]|k [|]|ws'|ws']; try done.
  - destruct Hr as (-> & m & H & Hm). destruct m as [m|m|m]; [|done|].
    + apply (Hreg _ _ (step_videoSync _ _ _ _ H)).
    + apply (Hreg _ _ (step_sessionUpdate _ _ _ _ H)).
  - destruct Hr as (m & Hk). apply (Hreg _ _ (step_settle_ok _ _ _ _ Hk)).
Qed.

Lemma registered_after_valid_frame_witness :
  ∃ c, c ∈ entries (step (Message 1 (JSONValue (sync_frame 43))) (run (join 1 42 1) init)) 43
       ∧ userId c = 1.
Proof.
  apply (registered_after_valid_frame (Message 1 (JSONValue (sync_frame 43)))
           (run (join 1 42 1) init) 1%nat 1 43).
  - split; [done|]. eexists. split; [reflexivity|done].
  - by_evaluation.
  - by_evaluation.
  - discriminate.
  - discriminate.
Defined.

(** X16: The fan-out of a chat frame reads the connection's [sessionId] variable
    after the [await]: when the same connection has sent a videoSync frame
    for another session while the storage write was under way, the chat frame
    goes to the open entries of that other session. *)
Theorem late_chat_follows_rebinding (k : nat) (ws : Handle) (m : ChatMessage)
    (j : json) (m' : VideoSyncMessage) (w : World) :
  pending w !! k = Some (ws, m) →
  parse wsMessageSchema j = ParseOk (VideoSync m') →
  let w1 := step (Message ws (JSONValue j)) w in
  sent (step (Settle k true) w1)
  = sent w1 ++ map (fun c => (socket c, Relay (ChatMessage_toJSON m)))
                 (List.filter (fun c => isOpen w1 (socket c))
                              (entries w1 (sync_sessionId m'))).
Proof.
  intros Hk H w1.
  assert (Hk1 : pending w1 !! k = Some (ws, m)).
  { subst w1. rewrite (step_videoSync _ _ _ _ H). cbv zeta.
    by rewrite pending_register_connection. }
  assert (Hs : var_sessionId (vars_of w1 ws) = Some (sync_sessionId m')).
  { subst w1. rewrite (step_videoSync _ _ _ _ H). cbv zeta.
    by rewrite vars_of_register_connection, vars_of_deliver, vars_of_assign_sessionId. }
  rewrite (sent_settle_ok _ _ _ _ Hk1), Hs. reflexivity.
Qed.

Lemma late_chat_follows_rebinding_witness :
  sent_during
    (step (Message 1 (JSONValue (sync_frame 43)))
       (run (join 2 43 2 ++ join 1 42 1 ++ [Message 1 (JSONValue (chat_frame 42 1 "x"))])
          init))
    (step (Settle 0 true)
       (step (Message 1 (JSONValue (sync_frame 43)))
          (run (join 2 43 2 ++ join 1 42 1 ++ [Message 1 (JSONValue (chat_frame 42 1 "x"))])
             init)))
  = [(2%nat, Relay (chat_frame 42 1 "x")); (1%nat, Relay (chat_frame 42 1 "x"))].
Proof.
  apply sent_during_deliver.
  apply (late_chat_follows_rebinding 0 1%nat
           {| chat_sessionId := 42; chat_userId := 1; chat_username := "ann";
              chat_message := "x"; chat_timestamp := 7 |}
           (sync_frame 43)
           {| sync_sessionId := 43; sync_action := play;
              sync_timestamp := None; sync_currentTime := None |}
           (run (join 2 43 2 ++ join 1 42 1 ++ [Message 1 (JSONValue (chat_frame 42 1 "x"))])
              init)); by_evaluation.
Defined.

(** * The storage layer *)

(** ** Sessions of a user *)

Lemma map_has_In {V} k (m : JsMap V) : map_has k m = true ↔ In k (map fst m).
Proof.
  induction m as [|[k' v'] m IH]; cbn; [split; [done|tauto]|].
  rewrite orb_true_iff, IH, Z.eqb_eq. tauto.
Qed.

Lemma fst_map_set {V} k (v : V) m :
  map fst (map_set k v m) = if map_has k m then map fst m else map fst m ++ [k].
Proof.
  induction m as [|[k' v'] m IH]; cbn; [done|].
  destruct (k' =? k) eqn:E; cbn.
  - apply Z.eqb_eq in E as ->. done.
  - rewrite IH. by destruct (map_has k m).
Qed.

Lemma In_map_set {V} k (v : V) m kv :
  In kv (map_set k v m) → kv = (k, v) ∨ In kv m.
Proof.
  induction m as [|[k' v'] m IH]; cbn.
  - intros [<-|[]]. by left.
  - destruct (k' =? k); cbn.
    + intros [<-|Hin]; [by left|right; by right].
    + intros [<-|Hin]; [right; by left|].
      destruct (IH Hin) as [->|?]; [by left|right; by right].
Qed.

Lemma gathered_set src m s :
  gathered_from src m → gathered_from (src ++ [s]) (map_set (session_id s) s m).
Proof.
  intros (Hnd & Hval & Hkeys). split; [|split].
  - rewrite fst_map_set. destruct (map_has (session_id s) m) eqn:E; [done|].
    apply NoDup_app. repeat split; try done.
    + intros k Hk Hk'. apply list_elem_of_singleton in Hk' as ->.
      apply list_elem_of_In, map_has_In in Hk. congruence.
    + apply NoDup_singleton.
  - intros k v [[= -> ->]|Hin]%In_map_set.
    + split; [done|]. apply in_or_app. right. by left.
    + destruct (Hval k v Hin) as [? ?]. split; [done|]. apply in_or_app. by left.
  - intros k. rewrite fst_map_set, map_app, in_app_iff. cbn.
    destruct (map_has (session_id s) m) eqn:E.
    + rewrite Hkeys. split; [by left|]. intros [?|[<-|[]]]; [done|].
      by apply Hkeys, map_has_In.
    + rewrite in_app_iff, Hkeys. cbn. tauto.
Qed.

Lemma gathered_skip src m s :
  gathered_from src m → map_has (session_id s) m = true → gathered_from (src ++ [s]) m.
Proof.
  intros (Hnd & Hval & Hkeys) Hhas. split; [done|split].
  - intros k v Hin. destruct (Hval k v Hin) as [? ?]. split; [done|].
    apply in_or_app. by left.
  - intros k. rewrite map_app, in_app_iff, Hkeys. cbn. split; [by left|].
    intros [?|[<-|[]]]; [done|]. by apply Hkeys, map_has_In.
Qed.

Lemma gathered_hosted l src m :
  gathered_from src m →
  gathered_from (src ++ l) (foldl (fun m session => map_set (session_id session) session m) m l).
Proof.
  revert src m. induction l as [|s l IH]; intros src m H; cbn.
  - by rewrite app_nil_r.
  - replace (src ++ s :: l) with ((src ++ [s]) ++ l) by by rewrite <- app_assoc.
    apply IH. by apply gathered_set.
Qed.

Lemma gathered_participated l src m :
  gathered_from src m →
  gathered_from (src ++ l)
    (foldl (fun m session =>
              if negb (map_has (session_id session) m)
              then map_set (session_id session) session m
              else m) m l).
Proof.
  revert src m. induction l as [|s l IH]; intros src m H; cbn.
  - by rewrite app_nil_r.
  - replace (src ++ s :: l) with ((src ++ [s]) ++ l) by by rewrite <- app_assoc.
    apply IH. destruct (map_has (session_id s) m) eqn:E; cbn.
    + by apply gathered_skip.
    + by apply gathered_set.
Qed.

(** The second loop never replaces what the first loop has put in. *)
Lemma hosted_kept (hosted : list Session) l m :
  (∀ k, In k (map session_id hosted) → In k (map fst m)) →
  (∀ k v, In (k, v) m → In k (map session_id hosted) → In v hosted) →
  ∀ k v,
    In (k, v) (foldl (fun m session =>
                        if negb (map_has (session_id session) m)
                        then map_set (session_id session) session m
                        else m) m l) →
    In k (map session_id hosted) → In v hosted.
Proof.
  revert m. induction l as [|s l IH]; intros m Hkeys Hval; cbn; [done|].
  apply IH.
  - intros k Hk. destruct (map_has (session_id s) m) eqn:E; cbn; [by apply Hkeys|].
    rewrite fst_map_set, E. apply in_or_app. left. by apply Hkeys.
  - intros k v Hin Hk. destruct (map_has (session_id s) m) eqn:E; cbn in Hin.
    + by apply (Hval k).
    + apply In_map_set in Hin as [[= -> ->]|Hin]; [|by apply (Hval k)].
      apply Hkeys, map_has_In in Hk. congruence.
Qed.

(** X17: [getSessionsByUserId] returns every session at most once per id, the ids
    being exactly those of the hosted and the joined sessions; each returned
    row is a row of one of the two queries, and for an id that is hosted it
    is the hosted row. *)
Theorem getSessionsByUserId_no_duplicates (hosted participated : list Session) :
  NoDup (map session_id (getSessionsByUserId hosted participated))
  ∧ (∀ i, In i (map session_id (getSessionsByUserId hosted participated))
          ↔ In i (map session_id hosted) ∨ In i (map session_id participated))
  ∧ (∀ s, In s (getSessionsByUserId hosted participated) →
          In s hosted ∨ In s participated)
  ∧ (∀ s, In s (getSessionsByUserId hosted participated) →
          In (session_id s) (map session_id hosted) → In s hosted).
Proof.
  unfold getSessionsByUserId, map_values.
  set (m1 := foldl (fun m session => map_set (session_id session) session m) [] hosted).
  set (m2 := foldl _ m1 participated).
  assert (H0 : gathered_from [] []).
  { split; [constructor|]. split; [by intros k v []|]. intros k. by cbn. }
  pose proof (gathered_hosted hosted [] [] H0) as H1. cbn [app] in H1. fold m1 in H1.
  pose proof (gathered_participated participated hosted m1 H1) as H2. fold m2 in H2.
  destruct H2 as (Hnd & Hval & Hkeys).
  assert (Eids : map session_id (map snd m2) = map fst m2).
  { rewrite map_map. apply map_ext_in. intros [k v] Hin. cbn.
    by destruct (Hval k v Hin). }
  rewrite Eids. split; [done|]. split; [|split].
  - intros i. by rewrite Hkeys, map_app, in_app_iff.
  - intros s ([k v] & <- & Hin)%in_map_iff. cbn.
    destruct (Hval k v Hin) as [_ Hs]. by apply in_app_iff in Hs.
  - intros s ([k v] & <- & Hin)%in_map_iff Hid. cbn in *.
    destruct (Hval k v Hin) as [Ek _]. rewrite Ek in Hid.
    destruct H1 as (_ & Hval1 & Hkeys1).
    apply (hosted_kept hosted participated m1) with (k := k); try done.
    + intros k' Hk'. by apply Hkeys1.
    + intros k' v' Hin' _. by destruct (Hval1 k' v' Hin').
Qed.

(** ** Playlist items *)

Lemma maximum_spec x xs :
  In (maximum x xs) (x :: xs) ∧ ∀ y, In y (x :: xs) → y ≤ maximum x xs.
Proof.
  unfold maximum. revert x. induction xs as [|z xs IH]; intros x; cbn [foldl].
  - split; [by left|]. intros y [<-|[]]. lia.
  - destruct (IH (Z.max x z)) as [Hin Hge]. split.
    + destruct Hin as [E|Hin]; [|right; by right].
      destruct (Z.max_spec x z) as [[_ E']|[_ E']]; rewrite E' in E |- *.
      * right. by left.
      * by left.
    + intros y [<-|[<-|Hy]].
      * specialize (Hge (Z.max x z) (or_introl eq_refl)). lia.
      * specialize (Hge (Z.max x z) (or_introl eq_refl)). lia.
      * apply Hge. by right.
Qed.

Lemma or_zero_id x : or_zero x = x.
Proof. unfold or_zero. destruct (x =? 0) eqn:E; [|done]. by apply Z.eqb_eq in E. Qed.

Lemma filter_in_playlist_app pid items item :
  in_playlist pid item = true →
  List.filter (in_playlist pid) (items ++ [item])
  = List.filter (in_playlist pid) items ++ [item].
Proof. intros H. rewrite List.filter_app. cbn. by rewrite H. Qed.

(** The order that [addPlaylistItem] stores. *)
Lemma stored_order_spec fresh ins items :
  let column := map item_order (List.filter (in_playlist (ins_playlistId ins)) items) in
  item_order (snd (addPlaylistItem fresh ins items))
  = match column with
    | [] => 1
    | o :: os => maximum o os + 1
    end.
Proof.
  cbn. rewrite or_zero_id.
  by destruct (map item_order (List.filter (in_playlist (ins_playlistId ins)) items)).
Qed.

Lemma sorted_before_last {A} (R : A → A → Prop) (r : list A) (z : A) :
  StronglySorted R (r ++ [z]) → ∀ y, In y r → R y z.
Proof.
  induction r as [|a r IH]; [by intros _ y []|].
  cbn. intros Hs y [<-|Hy].
  - apply StronglySorted_inv in Hs as [_ Hall]. rewrite Forall_forall in Hall.
    apply Hall, list_elem_of_In, in_or_app. right. by left.
  - apply StronglySorted_inv in Hs as [Hs _]. by apply IH.
Qed.

(** X18: [addPlaylistItem] gives the new row an order greater than that of every
    row the playlist already has (1 for the first row), whatever order the
    caller asked for; the table keeps its rows and gains the new one, and
    every later reading of the playlist in ascending order ends with it. *)
Theorem addPlaylistItem_appends (fresh : Z) (ins : InsertPlaylistItem)
    (items : list PlaylistItem) :
  let items' := fst (addPlaylistItem fresh ins items) in
  let item := snd (addPlaylistItem fresh ins items) in
  items' = items ++ [item]
  ∧ item_playlistId item = ins_playlistId ins
  ∧ (∀ old, In old items → item_playlistId old = ins_playlistId ins →
            item_order old < item_order item)
  ∧ ((∀ old, In old items → item_playlistId old ≠ ins_playlistId ins) →
     item_order item = 1)
  ∧ (∀ rows, is_getPlaylistItems (ins_playlistId ins) items' rows →
             last rows = Some item).
Proof.
  intros items' item.
  assert (Hlt : ∀ old, In old items → item_playlistId old = ins_playlistId ins →
                       item_order old < item_order item).
  { intros old Hold Hpl. subst item. rewrite stored_order_spec.
    assert (Hin : In (item_order old)
                    (map item_order (List.filter (in_playlist (ins_playlistId ins)) items))).
    { apply in_map, filter_In. split; [done|]. by apply Z.eqb_eq. }
    destruct (map item_order _) as [|o os]; [done|].
    destruct (maximum_spec o os) as [_ Hge]. specialize (Hge _ Hin). lia. }
  split; [done|]. split; [done|]. split; [exact Hlt|]. split.
  - intros Hnone. subst item. rewrite stored_order_spec.
    destruct (List.filter _ items) as [|old l] eqn:E; [done|].
    assert (Hin : In old (List.filter (in_playlist (ins_playlistId ins)) items))
      by (rewrite E; by left).
    apply filter_In in Hin as [Hin Hpl]. apply Z.eqb_eq in Hpl.
    by destruct (Hnone old Hin).
  - intros rows [Hperm0 Hsorted].
    assert (Hperm : rows ≡ₚ List.filter (in_playlist (ins_playlistId ins)) items ++ [item]).
    { rewrite Hperm0. change items' with (items ++ [item]).
      rewrite filter_in_playlist_app; [done|]. by apply Z.eqb_eq. }
    clear Hperm0.
    destruct (exists_last (l := rows)) as (r & z & ->).
    { intros ->. apply Permutation_nil_l in Hperm. by destruct (List.filter _ items). }
    rewrite last_snoc.
    assert (Hz : In z (List.filter (in_playlist (ins_playlistId ins)) items ++ [item])).
    { apply list_elem_of_In. rewrite <- Hperm. apply list_elem_of_In, in_or_app.
      right. by left. }
    apply in_app_iff in Hz as [Hz|[<-|[]]]; [|done].
    apply filter_In in Hz as [Hz Hpl].
    apply Z.eqb_eq in Hpl. specialize (Hlt z Hz Hpl).
    assert (Hitem : In item (r ++ [z])).
    { apply list_elem_of_In. rewrite Hperm. apply list_elem_of_In, in_or_app.
      right. by left. }
    apply in_app_iff in Hitem as [Hitem|[->|[]]]; [|lia].
    apply Sorted_StronglySorted in Hsorted; [|intros a b c; lia].
    pose proof (sorted_before_last _ r z Hsorted item Hitem). cbn in *. lia.
Qed.

(** X19: The order that the route computes for a new item differs from the one
    stored only for the first item of a playlist: the route says 0, the
    storage stores 1; from the second item on both are the greatest order
    plus one. *)
Theorem route_order_and_stored_order (fresh : Z) (ins : InsertPlaylistItem)
    (items currentItems : list PlaylistItem) :
  is_getPlaylistItems (ins_playlistId ins) items currentItems →
  (currentItems = [] →
     nextOrder currentItems = 0 ∧ item_order (snd (addPlaylistItem fresh ins items)) = 1)
  ∧ (currentItems ≠ [] →
     item_order (snd (addPlaylistItem fresh ins items)) = nextOrder currentItems).
Proof.
  intros [Hperm _]. rewrite stored_order_spec. cbv zeta. split.
  - intros ->. apply Permutation_nil_l in Hperm. by rewrite <- Hperm.
  - intros Hne. unfold nextOrder.
    assert (Hperm' : map item_order currentItems
                       ≡ₚ map item_order
                            (List.filter (in_playlist (ins_playlistId ins)) items)).
    { by apply Permutation_map. }
    destruct (map item_order currentItems) as [|o os] eqn:E1.
    { by destruct currentItems. }
    destruct (map item_order (List.filter _ items)) as [|o' os'] eqn:E2.
    { by apply Permutation_nil_r in Hperm'. }
    destruct (maximum_spec o os) as [Hin1 Hge1], (maximum_spec o' os') as [Hin2 Hge2].
    assert (maximum o os ≤ maximum o' os').
    { apply Hge2, list_elem_of_In. rewrite <- Hperm'. by apply list_elem_of_In. }
    assert (maximum o' os' ≤ maximum o os).
    { apply Hge1, list_elem_of_In. rewrite Hperm'. by apply list_elem_of_In. }
    lia.
Qed.

Lemma route_order_and_stored_order_witness :
  is_getPlaylistItems 7
    [ Build_PlaylistItem 1 7 "a" None None None 1;
      Build_PlaylistItem 2 8 "b" None None None 9;
      Build_PlaylistItem 3 7 "c" None None None 5 ]
    [ Build_PlaylistItem 1 7 "a" None None None 1;
      Build_PlaylistItem 3 7 "c" None None None 5 ]
  ∧ item_order
      (snd (addPlaylistItem 4 (Build_InsertPlaylistItem 7 "d" None None None 0)
              [ Build_PlaylistItem 1 7 "a" None None None 1;
                Build_PlaylistItem 2 8 "b" None None None 9;
                Build_PlaylistItem 3 7 "c" None None None 5 ]))
    = 6.
Proof.
  assert (H : is_getPlaylistItems 7
                [ Build_PlaylistItem 1 7 "a" None None None 1;
                  Build_PlaylistItem 2 8 "b" None None None 9;
                  Build_PlaylistItem 3 7 "c" None None None 5 ]
                [ Build_PlaylistItem 1 7 "a" None None None 1;
                  Build_PlaylistItem 3 7 "c" None None None 5 ]).
  { split; [reflexivity|]. repeat constructor; cbn; lia. }
  split; [exact H|].
  destruct (route_order_and_stored_order 4
              (Build_InsertPlaylistItem 7 "d" None None None 0) _ _ H) as [_ Hne].
  rewrite Hne; [reflexivity|discriminate].
Defined.

(** ** The routes that change a playlist's items *)

Lemma In_removePlaylistItem iid items item :
  In item (removePlaylistItem iid items) ↔ In item items ∧ item_id item ≠ iid.
Proof.
  unfold removePlaylistItem. rewrite filter_In, negb_true_iff, Z.eqb_neq. tauto.
Qed.

(** X20: The delete route checks that the caller owns the playlist named in the
    path, and then (both ids being within the range of their columns)
    removes every row that has the item id of the path, whatever playlist
    that row belongs to; all other rows stay. *)
Theorem delete_item_route_removes_by_id (u pid iid : Z) (p : Playlist) (db : Db) :
  u ≠ 0 →
  int4 pid = true → int4 iid = true →
  getPlaylist pid db = Some p →
  playlist_userId p = u →
  status (fst (delete_item_route (Some u) (Some pid) (Some iid) db)) = 200%nat
  ∧ playlists (snd (delete_item_route (Some u) (Some pid) (Some iid) db)) = playlists db
  ∧ ∀ item,
      In item (playlistItems (snd (delete_item_route (Some u) (Some pid) (Some iid) db)))
      ↔ In item (playlistItems db) ∧ item_id item ≠ iid.
Proof.
  intros Hu Hpid Hiid Hp Hown. unfold delete_item_route. cbn [truthy].
  apply Z.eqb_neq in Hu as ->. cbn [negb]. rewrite Hpid, Hiid, Hp, Hown.
  rewrite bool_decide_eq_true_2 by done. cbn [negb fst snd status playlists playlistItems].
  split; [done|]. split; [done|]. intros item. apply In_removePlaylistItem.
Qed.

Lemma delete_item_route_removes_by_id_witness :
  In (Build_PlaylistItem 2 8 "b" None None None 9)
     (playlistItems
        {| playlists := [Build_Playlist 7 "mine" 1 None; Build_Playlist 8 "theirs" 2 None];
           playlistItems := [ Build_PlaylistItem 1 7 "a" None None None 1;
                              Build_PlaylistItem 2 8 "b" None None None 9 ] |})
  ∧ ¬ In (Build_PlaylistItem 2 8 "b" None None None 9)
        (playlistItems
           (snd (delete_item_route (Some 1) (Some 7) (Some 2)
                   {| playlists := [Build_Playlist 7 "mine" 1 None;
                                    Build_Playlist 8 "theirs" 2 None];
                      playlistItems := [ Build_PlaylistItem 1 7 "a" None None None 1;
                                         Build_PlaylistItem 2 8 "b" None None None 9 ] |}))).
Proof.
  split; [right; by left|].
  destruct (delete_item_route_removes_by_id 1 7 2 (Build_Playlist 7 "mine" 1 None)
              {| playlists := [Build_Playlist 7 "mine" 1 None;
                               Build_Playlist 8 "theirs" 2 None];
                 playlistItems := [ Build_PlaylistItem 1 7 "a" None None None 1;
                                    Build_PlaylistItem 2 8 "b" None None None 9 ] |})
    as (_ & _ & Hitems);
    [discriminate|reflexivity|reflexivity|reflexivity|reflexivity|].
  intros Hin. apply Hitems in Hin as [_ Hne]. by apply Hne.
Defined.

Lemma delete_item_route_cases (userId playlistId itemId : option Z) (db : Db) :
  (truthy userId = false
   ∧ delete_item_route userId playlistId itemId db
     = ({| status := 401; reply_message := "Not authenticated" |}, db))
  ∨ (truthy userId = true ∧ (playlistId = None ∨ itemId = None)
     ∧ delete_item_route userId playlistId itemId db
       = ({| status := 400; reply_message := "Invalid playlist or item ID" |}, db))
  ∨ (∃ pid iid,
       truthy userId = true ∧ playlistId = Some pid ∧ itemId = Some iid
       ∧ int4 pid = false
       ∧ delete_item_route userId playlistId itemId db = (internal_server_error, db))
  ∨ (∃ pid iid,
       truthy userId = true ∧ playlistId = Some pid ∧ itemId = Some iid
       ∧ int4 pid = true ∧ getPlaylist pid db = None
       ∧ delete_item_route userId playlistId itemId db
         = ({| status := 404; reply_message := "Playlist not found" |}, db))
  ∨ (∃ pid iid p,
       truthy userId = true ∧ playlistId = Some pid ∧ itemId = Some iid
       ∧ int4 pid = true ∧ getPlaylist pid db = Some p
       ∧ Some (playlist_userId p) ≠ userId
       ∧ delete_item_route userId playlistId itemId db
         = ({| status := 403;
               reply_message := "Not authorized to remove items from this playlist" |}, db))
  ∨ (∃ pid iid p,
       truthy userId = true ∧ playlistId = Some pid ∧ itemId = Some iid
       ∧ int4 pid = true ∧ getPlaylist pid db = Some p
       ∧ Some (playlist_userId p) = userId ∧ int4 iid = false
       ∧ delete_item_route userId playlistId itemId db = (internal_server_error, db))
  ∨ (∃ pid iid p,
       truthy userId = true ∧ playlistId = Some pid ∧ itemId = Some iid
       ∧ int4 pid = true ∧ getPlaylist pid db = Some p
       ∧ Some (playlist_userId p) = userId ∧ int4 iid = true
       ∧ delete_item_route userId playlistId itemId db
         = ({| status := 200; reply_message := "Item removed successfully" |},
            {| playlists := playlists db;
               playlistItems := removePlaylistItem iid (playlistItems db) |})).
Proof.
  unfold delete_item_route. destruct (truthy userId) eqn:Et; cbn [negb]; [|by left].
  right. destruct playlistId as [pid|]; [|left; split; [done|]; split; [by left|done]].
  destruct itemId as [iid|]; [|left; split; [done|]; split; [by right|done]].
  right. destruct (int4 pid) eqn:Epid; cbn [negb]; [|left; by exists pid, iid].
  right. destruct (getPlaylist pid db) as [p|] eqn:Hp; [|left; by exists pid, iid].
  right. destruct (bool_decide (Some (playlist_userId p) = userId)) eqn:Eo; cbn [negb].
  - right. apply bool_decide_eq_true_1 in Eo.
    destruct (int4 iid) eqn:Eiid; cbn [negb].
    + right. by exists pid, iid, p.
    + left. by exists pid, iid, p.
  - left. apply bool_decide_eq_false_1 in Eo. by exists pid, iid, p.
Qed.

(** X21: The delete route answers 200 exactly when the caller is logged in, both
    path parameters are numbers within the range of their columns, the
    playlist exists and the caller owns it; in every other case the database
    is left as it is. A caller who is not logged in gets 401 whatever the
    parameters are, a parameter that is not a number gets 400 before the
    playlist is looked up, and a number outside the range gets 500: the
    playlist id at once, the item id only after the caller has passed the
    ownership check. *)
Theorem delete_item_route_refusals (userId playlistId itemId : option Z) (db : Db) :
  (status (fst (delete_item_route userId playlistId itemId db)) = 200%nat
   ↔ ∃ u pid iid p,
       userId = Some u ∧ u ≠ 0 ∧ playlistId = Some pid ∧ itemId = Some iid
       ∧ int4 pid = true ∧ int4 iid = true
       ∧ getPlaylist pid db = Some p ∧ playlist_userId p = u)
  ∧ (status (fst (delete_item_route userId playlistId itemId db)) ≠ 200%nat →
     snd (delete_item_route userId playlistId itemId db) = db)
  ∧ (truthy userId = false →
     status (fst (delete_item_route userId playlistId itemId db)) = 401%nat)
  ∧ (truthy userId = true → playlistId = None ∨ itemId = None →
     status (fst (delete_item_route userId playlistId itemId db)) = 400%nat)
  ∧ (status (fst (delete_item_route userId playlistId itemId db)) = 500%nat
     ↔ truthy userId = true
       ∧ ∃ pid iid, playlistId = Some pid ∧ itemId = Some iid
           ∧ (int4 pid = false
              ∨ (int4 iid = false
                 ∧ ∃ p, getPlaylist pid db = Some p ∧ Some (playlist_userId p) = userId))).
Proof.
  assert (Htruthy : ∀ u, truthy (Some u) = true ↔ u ≠ 0).
  { intros u. cbn. by rewrite negb_true_iff, Z.eqb_neq. }
  destruct (delete_item_route_cases userId playlistId itemId db)
    as [(Et & ->)|[(Et & Hnan & ->)|[(pid & iid & Et & -> & -> & Epid & ->)
         |[(pid & iid & Et & -> & -> & Epid & Hp & ->)
          |[(pid & iid & p & Et & -> & -> & Epid & Hp & Ho & ->)
           |[(pid & iid & p & Et & -> & -> & Epid & Hp & Ho & Eiid & ->)
            |(pid & iid & p & Et & -> & -> & Epid & Hp & Ho & Eiid & ->)]]]]]];
    cbn [fst snd status internal_server_error].
  all: split; [|split; [|split; [|split]]].
  all: try (split; [discriminate|]).
  all: try (intros; discriminate).
  all: try done.
  all: try congruence.
  all: try by_cases Htruthy.
  - split; [intros _|done]. split; [done|]. exists pid, iid.
    split; [done|]. split; [done|]. by left.
  - split; [intros _|done]. split; [done|]. exists pid, iid.
    split; [done|]. split; [done|]. right. split; [done|]. by exists p.
  - split; [intros _|done]. subst userId. exists (playlist_userId p), pid, iid, p.
    repeat split; try done. by apply Htruthy.
Qed.

(** ** Reordering a playlist *)

Lemma set_order_set_order o o' item : set_order o (set_order o' item) = set_order o item.
Proof. reflexivity. Qed.

Lemma set_order_id item : set_order (item_order item) item = item.
Proof. by destruct item. Qed.

Lemma updatePlaylistItemOrder_from_rows pid i ids items :
  updatePlaylistItemOrder_from pid i ids items = map (reorder_row pid i ids) items.
Proof.
  revert i items. induction ids as [|id ids IH]; intros i items; cbn.
  - by rewrite map_id.
  - rewrite IH. unfold update_order. by rewrite map_map.
Qed.

(** A row keeps everything but its order. *)
Lemma reorder_row_fields pid i ids item :
  reorder_row pid i ids item = set_order (item_order (reorder_row pid i ids item)) item.
Proof.
  revert i item. induction ids as [|id ids IH]; intros i item; cbn.
  - by rewrite set_order_id.
  - rewrite IH at 1. by destruct (_ && _).
Qed.

Lemma reorder_row_id pid i ids item : item_id (reorder_row pid i ids item) = item_id item.
Proof. by rewrite reorder_row_fields. Qed.

Lemma reorder_row_playlistId pid i ids item :
  item_playlistId (reorder_row pid i ids item) = item_playlistId item.
Proof. by rewrite reorder_row_fields. Qed.

Lemma reorder_row_unchanged pid i ids item :
  item_playlistId item ≠ pid ∨ ¬ In (item_id item) ids →
  reorder_row pid i ids item = item.
Proof.
  revert i. induction ids as [|id ids IH]; intros i H; cbn; [done|].
  assert ((item_id item =? id) && (item_playlistId item =? pid) = false) as ->.
  { apply andb_false_iff. destruct H as [H|H].
    - right. by apply Z.eqb_neq.
    - left. apply Z.eqb_neq. intros E. apply H. by left. }
  apply IH. destruct H as [H|H]; [by left|]. right. intros Hin. apply H. by right.
Qed.

Lemma reorder_row_order pid i ids k item :
  NoDup ids → ids !! k = Some (item_id item) → item_playlistId item = pid →
  item_order (reorder_row pid i ids item) = Z.of_nat (i + k) + 1.
Proof.
  revert i k item. induction ids as [|id ids IH]; intros i k item Hnd Hk Hpl; [done|].
  apply NoDup_cons in Hnd as [Hid Hnd]. cbn [reorder_row]. destruct k as [|k].
  - cbn in Hk. injection Hk as ->. rewrite Z.eqb_refl, Hpl, Z.eqb_refl. cbn [andb].
    rewrite reorder_row_unchanged.
    + cbn. f_equal. lia.
    + right. cbn. intros Hin. by apply Hid, list_elem_of_In.
  - cbn in Hk.
    assert ((item_id item =? id) = false) as ->.
    { apply Z.eqb_neq. intros <-. apply Hid. by apply list_elem_of_lookup_2 in Hk. }
    cbn [andb]. rewrite (IH (S i) k); try done. f_equal. lia.
Qed.

Lemma updatePlaylistItemOrder_rows (pid : Z) (ids : list Z) (items : list PlaylistItem) :
  Forall2 (fun item item' =>
             item' = set_order (item_order item') item
             ∧ (item_playlistId item ≠ pid ∨ ¬ In (item_id item) ids → item' = item)
             ∧ (NoDup ids → item_playlistId item = pid →
                ∀ k, ids !! k = Some (item_id item) → item_order item' = Z.of_nat k + 1))
          items (updatePlaylistItemOrder pid ids items).
Proof.
  unfold updatePlaylistItemOrder. rewrite updatePlaylistItemOrder_from_rows.
  induction items as [|item items IH]; cbn; constructor; [|done].
  split; [apply reorder_row_fields|]. split; [apply reorder_row_unchanged|].
  intros Hnd Hpl k Hk. by rewrite (reorder_row_order pid 0 ids k).
Qed.

Lemma accepted_false_rejected pid i bad items :
  accepted bad = false → update_order_await pid i bad items = None.
Proof.
  unfold update_order_await. destruct (int4 pid); cbn [negb]; [|done].
  destruct bad as [id| |]; cbn; [by intros ->|done|done].
Qed.

(** As long as the elements are integers within the range, the loop that
    can be rejected runs like the loop that cannot. *)
Lemma updatePlaylistItemOrder_await_ints pid i ids rest items :
  int4 pid = true →
  Forall (fun id => int4 id = true) ids →
  updatePlaylistItemOrder_await_from pid i (map IntParam ids ++ rest) items
  = updatePlaylistItemOrder_await_from pid (i + length ids) rest
      (updatePlaylistItemOrder_from pid i ids items).
Proof.
  intros Hpid Hids. revert i items.
  induction Hids as [|id ids Hid Hids IH]; intros i items; cbn [map app length].
  - by rewrite Nat.add_0_r.
  - cbn [updatePlaylistItemOrder_await_from updatePlaylistItemOrder_from].
    unfold update_order_await. rewrite Hpid, Hid. cbn [negb].
    rewrite IH. by rewrite Nat.add_succ_comm.
Qed.

Lemma updatePlaylistItemOrder_await_fst pid i ps items :
  int4 pid = true →
  fst (updatePlaylistItemOrder_await_from pid i ps items) = forallb accepted ps.
Proof.
  intros Hpid. revert i items. induction ps as [|p ps IH]; intros i items; [done|].
  cbn [updatePlaylistItemOrder_await_from forallb]. unfold update_order_await.
  rewrite Hpid. cbn [negb].
  destruct p as [id| |]; cbn [accepted]; [destruct (int4 id)| |]; cbn [andb fst]; try done;
    apply IH.
Qed.

Lemma Forall2_diag_all {A} (P : A → A → Prop) (l : list A) :
  (∀ x, P x x) → Forall2 P l l.
Proof. intros H. induction l; constructor; done. Qed.

(** Whatever the array holds and wherever the loop ends, a row keeps
    everything but its order, and a row of another playlist, or one whose id
    is not an element of the array, keeps its order too. *)
Lemma updatePlaylistItemOrder_await_rows pid i ps items :
  Forall2 (fun item item' =>
             item' = set_order (item_order item') item
             ∧ (item_playlistId item ≠ pid ∨ ¬ In (IntParam (item_id item)) ps →
                item' = item))
          items (snd (updatePlaylistItemOrder_await_from pid i ps items)).
Proof.
  revert i items. induction ps as [|p ps IH]; intros i items.
  - apply Forall2_diag_all. intros x. split; [by rewrite set_order_id|done].
  - cbn [updatePlaylistItemOrder_await_from].
    destruct (update_order_await pid i p items) as [items'|] eqn:E.
    2:{ apply Forall2_diag_all. intros x. split; [by rewrite set_order_id|done]. }
    unfold update_order_await in E. destruct (int4 pid); cbn [negb] in E; [|done].
    destruct p as [id| |]; [destruct (int4 id); [|done]| |done]; injection E as <-.
    + pose proof (IH (S i) (update_order pid i id items)) as H.
      unfold update_order in H |- *.
      change (map ?g items) with (g <$> items) in H. apply Forall2_fmap_l in H.
      eapply Forall2_impl; [exact H|].
      cbn. intros item item' [Hf Hsame].
      destruct ((item_id item =? id) && (item_playlistId item =? pid)) eqn:Em.
      * split; [by rewrite Hf|]. apply andb_true_iff in Em as [Ei Ep].
        apply Z.eqb_eq in Ei, Ep. intros [Hn|Hn]; [done|].
        destruct Hn. left. by rewrite Ei.
      * split; [done|]. intros [Hn|Hn]; apply Hsame; [by left|].
        right. intros Hin. apply Hn. by right.
    + eapply Forall2_impl; [apply (IH (S i))|].
      cbn. intros item item' [Hf Hsame]. split; [done|].
      intros [Hn|Hn]; apply Hsame; [by left|]. right. intros Hin. apply Hn. by right.
Qed.

Lemma updatePlaylistItemOrder_await_prefix (pid : Z) (ids : list Z) (rest : list IdParam)
    (items : list PlaylistItem) :
  int4 pid = true →
  Forall (fun id => int4 id = true) ids →
  match rest with
  | [] => True
  | bad :: _ => accepted bad = false
  end →
  fst (updatePlaylistItemOrder_await pid (map IntParam ids ++ rest) items)
  = match rest with [] => true | _ :: _ => false end
  ∧ snd (updatePlaylistItemOrder_await pid (map IntParam ids ++ rest) items)
    = updatePlaylistItemOrder pid ids items.
Proof.
  intros Hpid Hids Hrest.
  unfold updatePlaylistItemOrder_await, updatePlaylistItemOrder.
  rewrite (updatePlaylistItemOrder_await_ints _ _ _ _ _ Hpid Hids).
  destruct rest as [|bad post]; [done|].
  cbn [updatePlaylistItemOrder_await_from].
  by rewrite (accepted_false_rejected _ _ _ _ Hrest).
Qed.

(** X22: [updatePlaylistItemOrder] runs its statements one by one with no
    transaction around them. While the elements of [itemIds] are integers
    within the range of the column, each statement changes nothing but the
    order, and that only in the rows of the playlist with the listed id (no
    id listed twice: the row gets its index plus 1). At the first element
    that the database rejects the promise is rejected: the statements made
    so far stay applied, and the rows listed after that element keep their
    old order. *)
Theorem reorder_changes_orders_only (pid : Z) (ids : list Z) (rest : list IdParam)
    (items : list PlaylistItem) :
  int4 pid = true →
  Forall (fun id => int4 id = true) ids →
  match rest with
  | [] => True
  | bad :: _ => accepted bad = false
  end →
  let result := updatePlaylistItemOrder_await pid (map IntParam ids ++ rest) items in
  fst result = match rest with [] => true | _ :: _ => false end
  ∧ snd result = updatePlaylistItemOrder pid ids items
  ∧ Forall2 (fun item item' =>
               item' = set_order (item_order item') item
               ∧ (item_playlistId item ≠ pid ∨ ¬ In (item_id item) ids → item' = item)
               ∧ (NoDup ids → item_playlistId item = pid →
                  ∀ k, ids !! k = Some (item_id item) → item_order item' = Z.of_nat k + 1))
            items (snd result).
Proof.
  intros Hpid Hids Hrest result. subst result.
  destruct (updatePlaylistItemOrder_await_prefix pid ids rest items Hpid Hids Hrest) as [Hf Hs].
  split; [exact Hf|]. split; [exact Hs|]. rewrite Hs.
  apply updatePlaylistItemOrder_rows.
Qed.

Lemma reorder_changes_orders_only_witness :
  updatePlaylistItemOrder_await 7 [IntParam 3; IntParam 99999999999; IntParam 1]
    [ Build_PlaylistItem 1 7 "a" None None None 1;
      Build_PlaylistItem 2 8 "b" None None None 9;
      Build_PlaylistItem 3 7 "c" None None None 5 ]
  = (false,
     [ Build_PlaylistItem 1 7 "a" None None None 1;
       Build_PlaylistItem 2 8 "b" None None None 9;
       Build_PlaylistItem 3 7 "c" None None None 1 ]).
Proof.
  destruct (reorder_changes_orders_only 7 [3] [IntParam 99999999999; IntParam 1]
              [ Build_PlaylistItem 1 7 "a" None None None 1;
                Build_PlaylistItem 2 8 "b" None None None 9;
                Build_PlaylistItem 3 7 "c" None None None 5 ])
    as (Hf & Hs & _); [reflexivity|by repeat constructor|reflexivity|].
  apply injective_projections; [exact Hf|exact Hs].
Defined.

Lemma position_lookup x l : In x l → l !! position x l = Some x.
Proof.
  induction l as [|y l IH]; [done|]. cbn. intros Hin.
  destruct (y =? x) eqn:E.
  - apply Z.eqb_eq in E as ->. done.
  - apply Z.eqb_neq in E. destruct Hin as [?|Hin]; [done|]. by apply IH.
Qed.

Lemma map_position_seq l :
  NoDup l → map (fun x => position x l) l = seq 0 (length l).
Proof.
  induction l as [|y l IH]; [done|]. intros [Hy Hnd]%NoDup_cons.
  cbn [map position length seq]. rewrite Z.eqb_refl. f_equal.
  rewrite <- seq_shift, <- (IH Hnd), map_map. apply map_ext_in. intros x Hx.
  assert ((y =? x) = false) as ->; [|done].
  apply Z.eqb_neq. intros ->. by apply Hy, list_elem_of_In.
Qed.

Lemma Sorted_map {A B} (f : A → B) (R : B → B → Prop) (l : list A) :
  Sorted (fun a b => R (f a) (f b)) l → Sorted R (map f l).
Proof.
  induction 1 as [|a l Hs IH Hhd]; cbn; constructor; [done|].
  destruct Hhd; cbn; by constructor.
Qed.

Lemma Sorted_positions a n :
  Sorted Z.le (map (fun k => Z.of_nat k + 1) (seq a n)).
Proof.
  revert a. induction n as [|n IH]; intros a; cbn; constructor; [apply IH|].
  destruct n; cbn; constructor. lia.
Qed.

Lemma filter_reordered pid i ids items :
  List.filter (in_playlist pid) (map (reorder_row pid i ids) items)
  = map (reorder_row pid i ids) (List.filter (in_playlist pid) items).
Proof.
  induction items as [|item items IH]; [done|]. cbn.
  unfold in_playlist at 1. rewrite reorder_row_playlistId.
  fold (in_playlist pid item). destruct (in_playlist pid item); cbn; by rewrite IH.
Qed.

(** X23: After a reorder that lists each item of the playlist exactly once, every
    reading of the playlist in ascending order gives the items in the listed
    order. *)
Theorem reorder_read_back (pid : Z) (ids : list Z) (items rows : list PlaylistItem) :
  NoDup ids →
  ids ≡ₚ map item_id (List.filter (in_playlist pid) items) →
  is_getPlaylistItems pid (updatePlaylistItemOrder pid ids items) rows →
  map item_id rows = ids.
Proof.
  intros Hnd Hids [Hperm Hsorted].
  unfold updatePlaylistItemOrder in Hperm.
  rewrite updatePlaylistItemOrder_from_rows, filter_reordered in Hperm.
  set (F := List.filter (in_playlist pid) items) in *.
  set (g := reorder_row pid 0 ids) in *.
  assert (Horder : ∀ x, In x F →
            item_order (g x) = Z.of_nat (position (item_id x) ids) + 1).
  { intros x Hx. subst g.
    rewrite (reorder_row_order pid 0 ids (position (item_id x) ids)); try done.
    - apply position_lookup, list_elem_of_In. rewrite Hids.
      by apply list_elem_of_In, in_map.
    - apply filter_In in Hx as [_ Hpl]. by apply Z.eqb_eq. }
  assert (Horders : map item_order rows
                    = map (fun k => Z.of_nat k + 1) (seq 0 (length ids))).
  { apply (Sorted_unique Z.le).
    - by apply Sorted_map.
    - apply Sorted_positions.
    - rewrite <- (map_position_seq ids Hnd), map_map.
      transitivity (map item_order (map g F)); [by apply Permutation_map|].
      rewrite map_map.
      transitivity (map (fun i => Z.of_nat (position i ids) + 1) (map item_id F)).
      + rewrite map_map. apply Permutation_refl'.
        apply map_ext_in. intros x Hx. by apply Horder.
      + apply Permutation_map. by symmetry. }
  assert (Hlen : length rows = length ids).
  { rewrite (Permutation_length Hperm), (Permutation_length Hids).
    by rewrite !length_map. }
  apply (list_eq_same_length _ _ (length ids)); [done|by rewrite length_map|].
  intros j i1 i2 Hj H1 H2.
  change (map item_id rows) with (item_id <$> rows) in H1.
  rewrite list_lookup_fmap in H1.
  destruct (rows !! j) as [r|] eqn:Hr; [|done]. cbn in H1. injection H1 as <-.
  assert (Hoj : item_order r = Z.of_nat j + 1).
  { assert (Ho : map item_order rows !! j = Some (item_order r)).
    { change (map item_order rows) with (item_order <$> rows).
      by rewrite list_lookup_fmap, Hr. }
    rewrite Horders in Ho.
    change (map (fun k => Z.of_nat k + 1) (seq 0 (length ids)))
      with ((fun k => Z.of_nat k + 1) <$> seq 0 (length ids)) in Ho.
    rewrite list_lookup_fmap, lookup_seq_lt in Ho by done. cbn in Ho.
    by injection Ho as <-. }
  assert (Hin : In r (map g F)).
  { apply list_elem_of_In. rewrite <- Hperm. by apply list_elem_of_lookup_2 in Hr. }
  apply in_map_iff in Hin as (x & <- & Hx).
  rewrite (Horder x Hx) in Hoj.
  assert (Hpos : position (item_id x) ids = j) by lia.
  assert (Hlook : ids !! position (item_id x) ids = Some (item_id x)).
  { apply position_lookup, list_elem_of_In. rewrite Hids.
    by apply list_elem_of_In, in_map. }
  rewrite Hpos, H2 in Hlook. injection Hlook as ->.
  subst g. by rewrite reorder_row_id.
Qed.

Lemma reorder_read_back_witness :
  map item_id
    [ set_order 1 (Build_PlaylistItem 3 7 "c" None None None 5);
      set_order 2 (Build_PlaylistItem 1 7 "a" None None None 1) ]
  = [3; 1].
Proof.
  apply (reorder_read_back 7 [3; 1]
           [ Build_PlaylistItem 1 7 "a" None None None 1;
             Build_PlaylistItem 2 8 "b" None None None 9;
             Build_PlaylistItem 3 7 "c" None None None 5 ]).
  - apply NoDup_cons. split; [|apply NoDup_singleton].
    intros Hin. apply list_elem_of_singleton in Hin. discriminate.
  - cbn. apply perm_swap.
  - split.
    + cbn. apply perm_swap.
    + repeat constructor; cbn; lia.
Defined.

Lemma reorder_route_cases (userId playlistId : option Z) (itemIds : option (list IdParam))
    (db : Db) :
  (status (fst (reorder_route userId playlistId itemIds db)) ≠ 200%nat
   ∧ status (fst (reorder_route userId playlistId itemIds db)) ≠ 500%nat
   ∧ snd (reorder_route userId playlistId itemIds db) = db)
  ∨ (∃ pid ids,
       truthy userId = true ∧ playlistId = Some pid ∧ itemIds = Some ids
       ∧ int4 pid = false
       ∧ reorder_route userId playlistId itemIds db = (internal_server_error, db))
  ∨ (∃ pid ids p,
       truthy userId = true ∧ playlistId = Some pid ∧ itemIds = Some ids
       ∧ int4 pid = true
       ∧ getPlaylist pid db = Some p ∧ Some (playlist_userId p) = userId
       ∧ reorder_route userId playlistId itemIds db
         = (if forallb accepted ids
            then {| status := 200; reply_message := "Playlist reordered successfully" |}
            else internal_server_error,
            {| playlists := playlists db;
               playlistItems :=
                 snd (updatePlaylistItemOrder_await pid ids (playlistItems db)) |})).
Proof.
  unfold reorder_route. destruct (truthy userId) eqn:Et; cbn [negb]; [|by left].
  destruct playlistId as [pid|]; [|by left].
  destruct itemIds as [ids|]; [|by left].
  destruct (int4 pid) eqn:Epid; cbn [negb]; [|right; left; by exists pid, ids].
  destruct (getPlaylist pid db) as [p|] eqn:Hp; [|by left].
  destruct (bool_decide (Some (playlist_userId p) = userId)) eqn:Eo; cbn [negb]; [|by left].
  right; right. apply bool_decide_eq_true_1 in Eo. exists pid, ids, p.
  repeat split; try done. cbv zeta. unfold updatePlaylistItemOrder_await.
  by rewrite (updatePlaylistItemOrder_await_fst _ _ _ _ Epid).
Qed.

(** X24: The reorder route hands the array of the request to the storage as it
    is. It answers 200 with every statement applied when the database
    accepts all elements, and 500 when it rejects one; the statements made
    before the rejected element stay applied, so a 500 does not mean that
    nothing was changed. With any other answer (401, 400, 404, 403) the
    database is as before. Whatever the array holds, the playlists, the
    number and identity of the item rows and every row of another playlist
    stay as they are: item ids of other playlists in the array have no
    effect. *)
Theorem reorder_route_stays_in_playlist (userId playlistId : option Z)
    (itemIds : option (list IdParam)) (db : Db) :
  let r := reorder_route userId playlistId itemIds db in
  (status (fst r) ≠ 200%nat → status (fst r) ≠ 500%nat → snd r = db)
  ∧ playlists (snd r) = playlists db
  ∧ Forall2 (fun item item' =>
               item' = set_order (item_order item') item
               ∧ (Some (item_playlistId item) ≠ playlistId → item' = item))
            (playlistItems db) (playlistItems (snd r))
  ∧ (status (fst r) = 200%nat
     ↔ ∃ u pid ids p,
         userId = Some u ∧ u ≠ 0 ∧ playlistId = Some pid ∧ itemIds = Some ids
         ∧ int4 pid = true ∧ getPlaylist pid db = Some p ∧ playlist_userId p = u
         ∧ ∀ x, In x ids → accepted x = true)
  ∧ (∀ u pid p ids bad post,
       userId = Some u → u ≠ 0 → playlistId = Some pid → int4 pid = true →
       getPlaylist pid db = Some p → playlist_userId p = u →
       Forall (fun id => int4 id = true) ids → accepted bad = false →
       itemIds = Some (map IntParam ids ++ bad :: post) →
       r = (internal_server_error,
            {| playlists := playlists db;
               playlistItems := updatePlaylistItemOrder pid ids (playlistItems db) |})).
Proof.
  intros r. subst r.
  assert (Htruthy : ∀ u, truthy (Some u) = true ↔ u ≠ 0).
  { intros u. cbn. by rewrite negb_true_iff, Z.eqb_neq. }
  assert (Hsame : Forall2 (fun item item' =>
                             item' = set_order (item_order item') item
                             ∧ (Some (item_playlistId item) ≠ playlistId → item' = item))
                    (playlistItems db) (playlistItems db)).
  { apply Forall2_diag_all. intros x. split; [by rewrite set_order_id|done]. }
  split; [|split; [|split; [|split]]].
  - destruct (reorder_route_cases userId playlistId itemIds db)
      as [(_ & _ & E)|[(pid & ids & _ & _ & _ & _ & ->)
                      |(pid & ids & p & _ & _ & _ & _ & _ & _ & ->)]]; try done.
    cbn [fst snd]. destruct (forallb accepted ids); cbn; done.
  - destruct (reorder_route_cases userId playlistId itemIds db)
      as [(_ & _ & ->)|[(pid & ids & _ & _ & _ & _ & ->)
                       |(pid & ids & p & _ & _ & _ & _ & _ & _ & ->)]]; done.
  - destruct (reorder_route_cases userId playlistId itemIds db)
      as [(_ & _ & ->)|[(pid & ids & _ & _ & _ & _ & ->)
                       |(pid & ids & p & _ & -> & _ & _ & _ & _ & ->)]]; try done.
    cbn [snd playlistItems].
    eapply Forall2_impl; [apply updatePlaylistItemOrder_await_rows|].
    cbn. intros item item' (Hf & Hother). split; [done|].
    intros Hne. apply Hother. left. intros E. apply Hne. by rewrite E.
  - destruct (reorder_route_cases userId playlistId itemIds db)
      as [(Hn & _ & _)|[(pid & ids & Et & -> & -> & Epid & ->)
                       |(pid & ids & p & Et & -> & -> & Epid & Hp & Ho & ->)]].
    + split; [done|]. intros (u & pid & ids & p & -> & Hu & -> & -> & Epid & Hp & Ho & Hall).
      destruct Hn. unfold reorder_route. cbn [truthy]. apply Z.eqb_neq in Hu as ->.
      cbn [negb]. rewrite Epid, Hp, Ho. rewrite bool_decide_eq_true_2 by done.
      cbn [negb]. cbv zeta. unfold updatePlaylistItemOrder_await.
      rewrite (updatePlaylistItemOrder_await_fst _ _ _ _ Epid).
      assert (forallb accepted ids = true) as ->; [|done].
      apply forallb_forall. done.
    + cbn [fst status internal_server_error]. split; [done|]. by_cases Htruthy.
    + cbn [fst]. destruct (forallb accepted ids) eqn:Ea; cbn [status internal_server_error].
      * split; [intros _|done]. subst userId. exists (playlist_userId p), pid, ids, p.
        repeat split; try done; [by apply Htruthy|].
        by apply forallb_forall.
      * split; [done|]. intros (u & ? & ? & ? & _ & _ & [= <-] & [= <-] & _ & _ & _ & Hall).
        apply forallb_forall in Hall. congruence.
  - intros u pid p ids bad post -> Hu -> Epid Hp Ho Hids Hbad ->.
    unfold reorder_route. cbn [truthy]. apply Z.eqb_neq in Hu as ->.
    cbn [negb]. rewrite Epid, Hp, Ho. rewrite bool_decide_eq_true_2 by done.
    cbn [negb]. cbv zeta.
    destruct (updatePlaylistItemOrder_await_prefix pid ids (bad :: post) (playlistItems db)
                Epid Hids Hbad) as [-> ->].
    reflexivity.
Qed.

Lemma reorder_route_stays_in_playlist_witness :
  reorder_route (Some 1) (Some 7)
    (Some [IntParam 3; IntParam 99999999999; IntParam 1])
    {| playlists := [Build_Playlist 7 "mine" 1 None];
       playlistItems := [ Build_PlaylistItem 1 7 "a" None None None 1;
                          Build_PlaylistItem 2 8 "b" None None None 9;
                          Build_PlaylistItem 3 7 "c" None None None 5 ] |}
  = (internal_server_error,
     {| playlists := [Build_Playlist 7 "mine" 1 None];
        playlistItems := [ Build_PlaylistItem 1 7 "a" None None None 1;
                           Build_PlaylistItem 2 8 "b" None None None 9;
                           Build_PlaylistItem 3 7 "c" None None None 1 ] |}).
Proof.
  pose proof (reorder_route_stays_in_playlist (Some 1) (Some 7)
                (Some [IntParam 3; IntParam 99999999999; IntParam 1])
                {| playlists := [Build_Playlist 7 "mine" 1 None];
                   playlistItems := [ Build_PlaylistItem 1 7 "a" None None None 1;
                                      Build_PlaylistItem 2 8 "b" None None None 9;
                                      Build_PlaylistItem 3 7 "c" None None None 5 ] |}) as H.
  cbv zeta in H. destruct H as (_ & _ & _ & _ & H).
  apply (H 1 7 (Build_Playlist 7 "mine" 1 None) [3] (IntParam 99999999999) [IntParam 1]);
    try reflexivity; try discriminate.
  by repeat constructor.
Defined.

(** ** Joining and leaving *)

Lemma isParticipant_spec sid uid rows :
  existsb (fun p => participant_userId p =? uid) (getSessionParticipants sid rows) = true
  ↔ ∃ p, In p rows ∧ participant_sessionId p = sid ∧ participant_userId p = uid.
Proof.
  unfold getSessionParticipants. rewrite existsb_exists. split.
  - intros (p & [Hin Hs]%filter_In & Hu). exists p.
    apply Z.eqb_eq in Hs, Hu. done.
  - intros (p & Hin & Hs & Hu). exists p. rewrite filter_In, !Z.eqb_eq. done.
Qed.

Lemma In_participant_rows sid uid rows p :
  In p (List.filter (is_participant_row sid uid) rows)
  ↔ In p rows ∧ participant_sessionId p = sid ∧ participant_userId p = uid.
Proof.
  unfold is_participant_row. by rewrite filter_In, andb_true_iff, !Z.eqb_eq.
Qed.

Lemma addParticipant_new fresh now sid uid rows :
  (¬ ∃ p, In p rows ∧ participant_sessionId p = sid ∧ participant_userId p = uid) →
  fst (addParticipant fresh now sid uid rows)
  = rows ++ [ {| participant_id := fresh; participant_sessionId := sid;
                 participant_userId := uid; participant_joinedAt := Some now |} ].
Proof.
  intros Hnone. unfold addParticipant.
  destruct (List.filter (is_participant_row sid uid) rows) as [|p l] eqn:E; [done|].
  destruct Hnone. exists p. apply In_participant_rows. rewrite E. by left.
Qed.

(** X25: A successful join leaves the user with a participant row for the
    session, leaves the sessions table as it is, adds nothing when the user
    is a participant already, and is idempotent: joining again changes
    nothing and answers 200 again. *)
Theorem join_route_idempotent (fresh now fresh' now' uid sid : Z) (db : SessionDb) :
  status (fst (join_route fresh now (Some uid) (Some sid) db)) = 200%nat →
  let db1 := snd (join_route fresh now (Some uid) (Some sid) db) in
  (∃ p, In p (participants db1) ∧ participant_sessionId p = sid ∧ participant_userId p = uid)
  ∧ sessions db1 = sessions db
  ∧ ((∃ p, In p (participants db)
           ∧ participant_sessionId p = sid ∧ participant_userId p = uid) → db1 = db)
  ∧ join_route fresh' now' (Some uid) (Some sid) db1
    = ({| status := 200; reply_message := "Joined session successfully" |}, db1).
Proof.
  unfold join_route. cbn [truthy].
  destruct (uid =? 0) eqn:Eu; cbn [negb]; [done|].
  destruct (getSession sid db) as [session|] eqn:Hs; [|done]. intros _.
  cbv zeta.
  destruct (existsb _ (getSessionParticipants sid (participants db))) eqn:Ep; cbn [negb snd].
  - rewrite Hs, Ep. cbn [negb]. apply isParticipant_spec in Ep. by destruct db.
  - assert (Hnone : ¬ ∃ p, In p (participants db)
                           ∧ participant_sessionId p = sid ∧ participant_userId p = uid).
    { intros H. apply isParticipant_spec in H. congruence. }
    rewrite (addParticipant_new _ _ _ _ _ Hnone).
    assert (Hnow : existsb (fun p => participant_userId p =? uid)
                     (getSessionParticipants sid
                        (participants db
                         ++ [ {| participant_id := fresh; participant_sessionId := sid;
                                 participant_userId := uid;
                                 participant_joinedAt := Some now |} ])) = true).
    { apply isParticipant_spec. eexists. split; [apply in_or_app; right; by left|done]. }
    split; [|split; [done|split; [done|]]].
    + eexists. split; [cbn; apply in_or_app; right; by left|done].
    + unfold getSession in *. cbn [sessions participants]. rewrite Hs, Hnow. done.
Qed.

Lemma join_route_idempotent_witness :
  join_route 11 200 (Some 5) (Some 42)
    (snd (join_route 10 100 (Some 5) (Some 42)
            {| sessions := [Build_Session 42 "movie" 1 "vid" None None None (Some true)];
               participants := [Build_ParticipantRow 1 42 1 None] |}))
  = ({| status := 200; reply_message := "Joined session successfully" |},
     {| sessions := [Build_Session 42 "movie" 1 "vid" None None None (Some true)];
        participants := [Build_ParticipantRow 1 42 1 None;
                         Build_ParticipantRow 10 42 5 (Some 100)] |}).
Proof.
  apply (join_route_idempotent 10 100 11 200 5 42
           {| sessions := [Build_Session 42 "movie" 1 "vid" None None None (Some true)];
              participants := [Build_ParticipantRow 1 42 1 None] |}).
  reflexivity.
Defined.




